(** * Transit route planner: graph, A* search, trip aggregation

    A shallow embedding of [code.py].  Python objects that the program
    mutates in place (the [Node]s owned by a [Graph], the [defaultdict] of
    edges) live in one store, the [Graph.t] value, which every operation
    takes and hands back.

    Numbers.  Costs, times and heuristic values are Python numbers; they are
    taken in [Z] (whole currency units, hours, kilometres).  The one
    non-finite value the program uses, [float('inf')], is the constructor
    [Inf] of [num].

    Dictionaries.  A Python [dict] iterates in insertion order and keeps the
    position of a key that is overwritten, and the search iterates over
    [edges[..].keys()]: dictionaries are association lists in insertion
    order.

    Library code.  [haversine] is trigonometry on floats from [math]; the
    search only adds its values to costs and compares them, so the search
    and the planner take it as an argument.  The order in which Python
    iterates over a set of objects is unspecified; [min(open_set, ...)]
    depends on it when two nodes tie, so the search takes that order as an
    argument, [set_iter], too.

    Loops.  The two [while] loops need not terminate: they take [fuel], one
    unit per iteration, and answer [OutOfFuel] when it is used up.
    Exceptions are results: [KeyError]. *)

From Stdlib Require Import ZArith List String Bool Lia Permutation Sorted.
Import ListNotations.
Local Open Scope Z_scope.

(* ================================================================== *)
(** * Numbers with [float('inf')] *)

Inductive num : Type :=
| Fin (z : Z)
| Inf.

(** [a + b] where [b] is finite. *)
Definition num_add (a : num) (b : Z) : num :=
  match a with
  | Fin x => Fin (x + b)
  | Inf => Inf
  end.

(** [a < b]. *)
Definition num_ltb (a b : num) : bool :=
  match a, b with
  | Fin x, Fin y => x <? y
  | Fin _, Inf => true
  | Inf, _ => false
  end.

(** A (latitude, longitude) pair, in millionths of a degree. *)
Definition Location : Type := (Z * Z)%type.

(* ================================================================== *)
(** * Dictionaries in insertion order *)

Section Dict.
Context {V : Type}.

Definition dict : Type := list (string * V).

(** [d.get(k)]: [None] when [k] is not a key. *)
Fixpoint dict_get (k : string) (d : dict) : option V :=
  match d with
  | [] => None
  | (k', v) :: d' => if String.eqb k' k then Some v else dict_get k d'
  end.

(** [d[k] = v]: overwrite in place, or append a new key. *)
Fixpoint dict_set (k : string) (v : V) (d : dict) : dict :=
  match d with
  | [] => [(k, v)]
  | (k', v') :: d' =>
      if String.eqb k' k then (k, v) :: d' else (k', v') :: dict_set k v d'
  end.

(** [d.keys()]. *)
Definition dict_keys (d : dict) : list string := map fst d.
End Dict.

Arguments dict V : clear implicits.

(* ================================================================== *)
(** * class Node *)

Module Node.
Record t : Type := mk {
  name : string;
  location : Location;
  g : num;
  h : Z;
  f : num;
  parent : option string   (* the parent Node, by its key in graph.nodes *)
}.

(** [Node.__init__]. *)
Definition init (name : string) (location : Location) : t :=
  mk name location Inf 0 Inf None.
End Node.

(* ================================================================== *)
(** * class TransportRoute *)

Module TransportRoute.
Record t : Type := mk {
  name : string;
  mode : string;
  class_type : string;
  base_cost : Z;
  base_time : Z;
  average_delay : Z;
  transfer_time : Z;
  stop_time : Z;
  expected_waiting : Z
}.

Definition calculate_total_cost (self : t) : Z := base_cost self.

Definition calculate_total_time (self : t) : Z :=
  base_time self + stop_time self + average_delay self
  + expected_waiting self + transfer_time self.
End TransportRoute.

(* ================================================================== *)
(** * class Graph *)

(** [graph.nodes] is written by [add_node] only, which stores
    [Node(name, location)] under [name]: the dictionary is the list of its
    values in insertion order, looked up by their [name] field.  A [Node]
    object is identified with its entry, so assigning to a field of a node
    is [nodes_put] of the changed record. *)

Fixpoint nodes_get (k : string) (ns : list Node.t) : option Node.t :=
  match ns with
  | [] => None
  | n :: ns' => if String.eqb (Node.name n) k then Some n else nodes_get k ns'
  end.

Fixpoint nodes_put (n : Node.t) (ns : list Node.t) : list Node.t :=
  match ns with
  | [] => [n]
  | m :: ns' =>
      if String.eqb (Node.name m) (Node.name n) then n :: ns'
      else m :: nodes_put n ns'
  end.

Module Graph.
Record t : Type := mk {
  nodes : list Node.t;
  edges : dict (dict TransportRoute.t)   (* defaultdict(dict) *)
}.

(** [Graph.__init__]. *)
Definition init : t := mk [] [].

Definition add_node (name : string) (location : Location) (self : t) : t :=
  mk (nodes_put (Node.init name location) (nodes self)) (edges self).

(** [self.edges[from_node][to_node] = route]; the [defaultdict] supplies
    an empty inner dictionary for a new [from_node].  No exception is
    raised on any input. *)
Definition add_edge (from_node to_node : string) (route : TransportRoute.t)
    (self : t) : t :=
  let inner := match dict_get from_node (edges self) with
               | Some d => d
               | None => []
               end in
  mk (nodes self) (dict_set from_node (dict_set to_node route inner) (edges self)).

(** [self.edges[node.name].keys()]; looking up a missing key of the
    [defaultdict] inserts it. *)
Definition get_neighbors (node : Node.t) (self : t) : list string * t :=
  match dict_get (Node.name node) (edges self) with
  | Some d => (dict_keys d, self)
  | None => ([], mk (nodes self) (dict_set (Node.name node) [] (edges self)))
  end.

(** [self.edges[from_node.name][to_node.name]]; [None] is the [KeyError]
    of the inner dictionary. *)
Definition get_route (from_node to_node : Node.t) (self : t)
    : option TransportRoute.t * t :=
  match dict_get (Node.name from_node) (edges self) with
  | Some d => (dict_get (Node.name to_node) d, self)
  | None => (None, mk (nodes self) (dict_set (Node.name from_node) [] (edges self)))
  end.
End Graph.

(** A graph as the program builds one: [Graph()] followed by [add_node] and
    [add_edge] calls, in any order. *)
Inductive constructed : Graph.t -> Prop :=
| constructed_init : constructed Graph.init
| constructed_node name location G :
    constructed G -> constructed (Graph.add_node name location G)
| constructed_edge from_node to_node route G :
    constructed G -> constructed (Graph.add_edge from_node to_node route G).

(** The route stored for the ordered pair, without the side effect. *)
Definition edge_route (G : Graph.t) (u v : string) : option TransportRoute.t :=
  match dict_get u (Graph.edges G) with
  | Some d => dict_get v d
  | None => None
  end.

(** The scratch fields as [Node.__init__] leaves them. *)
Definition fresh_node (n : Node.t) : Prop :=
  Node.g n = Inf /\ Node.f n = Inf /\ Node.parent n = None.

Definition fresh_scratch (G : Graph.t) : Prop :=
  forall n, In n (Graph.nodes G) -> fresh_node n.

(* ================================================================== *)
(** * collect_route_details *)

(** The [for route in routes] loop, on the pair (total_time, total_cost). *)
Definition collect_loop (routes : list TransportRoute.t) (acc : Z * Z) : Z * Z :=
  fold_left
    (fun '(total_time, total_cost) route =>
       (total_time + TransportRoute.calculate_total_time route,
        total_cost + TransportRoute.calculate_total_cost route))
    routes acc.

(** The sum of a list of numbers, as a specification writes it. *)
Definition Zsum (l : list Z) : Z := fold_right Z.add 0 l.

(** Python's [sum] of a list. *)
Definition py_sum (l : list Z) : Z := fold_left Z.add l 0.

Definition collect_route_details (routes : list TransportRoute.t)
    : Z * Z * Z * Z :=
  let total_transfers := Z.of_nat (List.length routes) - 1 in
  let total_transfer_time := py_sum (map TransportRoute.transfer_time routes) in
  let '(total_time, total_cost) := collect_loop routes (0, 0) in
  (total_time, total_cost, total_transfers, total_transfer_time).

(* ================================================================== *)
(** * Python sets of nodes *)

(** [open_set] and [closed_set] hold [Node] objects, here their keys.  A set
    is a duplicate-free list; the order in which Python iterates over it is
    not the order of the list but [set_iter] of it (see [Search]). *)

Definition set_mem (x : string) (s : list string) : bool :=
  existsb (String.eqb x) s.

Definition set_add (x : string) (s : list string) : list string :=
  if set_mem x s then s else s ++ [x].

Definition set_remove (x : string) (s : list string) : list string :=
  filter (fun y => negb (String.eqb y x)) s.

(** [min(l, key=key)] over a sequence: the first element whose key is
    smallest; [None] for the empty sequence. *)
Fixpoint min_from (key : string -> num) (best : string) (l : list string)
    : string :=
  match l with
  | [] => best
  | x :: l' => min_from key (if num_ltb (key x) (key best) then x else best) l'
  end.

Definition py_min (key : string -> num) (l : list string) : option string :=
  match l with
  | [] => None
  | x :: l' => Some (min_from key x l')
  end.

(* ================================================================== *)
(** * astar_search *)

(** How a call ends. *)
Inductive outcome : Type :=
| Found (path : list string)   (* a list of nodes, by key *)
| NotFound                     (* [return None] *)
| KeyError (key : string)      (* [graph.nodes[..]] or [edges[..][..]] raised *)
| OutOfFuel.                   (* the loops have not finished yet *)

(** The state of the [while open_set] loop. *)
Record search_state : Type := mk_state {
  st_graph : Graph.t;
  open_set : list string;
  closed_set : list string
}.

Inductive step_result : Type :=
| Return (o : outcome) (G : Graph.t)
| Continue (s : search_state).

(** The [f] of the node held under [x]. *)
Definition node_f (G : Graph.t) (x : string) : num :=
  match nodes_get x (Graph.nodes G) with
  | Some n => Node.f n
  | None => Inf
  end.

(** [reconstruct_path]: the [while node] loop appends [node] and moves to
    its parent; one unit of fuel per iteration. *)
Fixpoint reconstruct_loop (fuel : nat) (G : Graph.t) (node : option string)
    (path : list string) : option (list string) :=
  match node with
  | None => Some path
  | Some x =>
      match fuel with
      | O => None
      | S fuel' =>
          match nodes_get x (Graph.nodes G) with
          | Some n => reconstruct_loop fuel' G (Node.parent n) (path ++ [x])
          | None => None
          end
      end
  end.

Definition reconstruct_path (fuel : nat) (G : Graph.t) (node : string) : outcome :=
  match reconstruct_loop fuel G (Some node) [] with
  | Some path => Found (rev path)   (* path[::-1] *)
  | None => OutOfFuel
  end.

Section Search.
(** [haversine] is floating-point trigonometry from [math]; the search
    only adds its values to costs and compares them, so it is a parameter
    here. *)
Variable haversine : Location -> Location -> Z.

(** The iteration order of a Python set of objects depends on their
    addresses; [min] returns the first minimal element in that order.
    [set_iter s] is the order in which the set [s] is iterated. *)
Variable set_iter : list string -> list string.

Definition heuristic (node1 node2 : Node.t) : Z :=
  haversine (Node.location node1) (Node.location node2).

(** The four assignments under [if tentative_g < neighbor_node.g]:
    [parent], [g], [h] and [f = g + h] of the neighbour. *)
Definition improve (goal_node : Node.t) (current : string) (tentative_g : num)
    (neighbor_node : Node.t) (G : Graph.t) : Graph.t :=
  let h := heuristic neighbor_node goal_node in
  Graph.mk
    (nodes_put
       (Node.mk (Node.name neighbor_node) (Node.location neighbor_node)
          tentative_g h (num_add tentative_g h) (Some current))
       (Graph.nodes G))
    (Graph.edges G).

(** The body of [for neighbor in graph.get_neighbors(current_node)], run
    over the remaining [neighbors].  The first component is [Some k] when
    a lookup raised [KeyError(k)]. *)
Fixpoint expand (goal_node : Node.t) (current : string)
    (neighbors : list string) (G : Graph.t) (open : list string)
    : option string * Graph.t * list string :=
  match neighbors with
  | [] => (None, G, open)
  | neighbor :: rest =>
      match nodes_get neighbor (Graph.nodes G),
            nodes_get current (Graph.nodes G) with
      | None, _ => (Some neighbor, G, open)
      | _, None => (Some current, G, open)
      | Some neighbor_node, Some current_node =>
          match Graph.get_route current_node neighbor_node G with
          | (None, G1) => (Some neighbor, G1, open)
          | (Some route, G1) =>
              let total_cost := TransportRoute.calculate_total_cost route in
              let total_time := TransportRoute.calculate_total_time route in
              let tentative_g := num_add (Node.g current_node) total_cost in
              let G2 :=
                if num_ltb tentative_g (Node.g neighbor_node) then
                  improve goal_node current tentative_g neighbor_node G1
                else G1 in
              expand goal_node current rest G2 (set_add neighbor open)
          end
      end
  end.

(** One pass through the body of [while open_set]. *)
Definition iteration (fuel : nat) (goal_node : Node.t) (s : search_state)
    : step_result :=
  let G := st_graph s in
  match py_min (node_f G) (set_iter (open_set s)) with
  | None => Return NotFound G
  | Some current =>
      if String.eqb current (Node.name goal_node) then
        Return (reconstruct_path fuel G current) G
      else
        let open1 := set_remove current (open_set s) in
        let closed1 := set_add current (closed_set s) in
        match nodes_get current (Graph.nodes G) with
        | None => Return (KeyError current) G
        | Some current_node =>
            let '(neighbors, G1) := Graph.get_neighbors current_node G in
            match expand goal_node current neighbors G1 open1 with
            | (Some k, G2, _) => Return (KeyError k) G2
            | (None, G2, open2) => Continue (mk_state G2 open2 closed1)
            end
        end
  end.

Fixpoint search_loop (fuel : nat) (goal_node : Node.t) (s : search_state)
    : outcome * Graph.t :=
  match fuel with
  | O => (OutOfFuel, st_graph s)
  | S fuel' =>
      match iteration fuel' goal_node s with
      | Return o G => (o, G)
      | Continue s' => search_loop fuel' goal_node s'
      end
  end.

(** The state in which the [while] loop is entered: the start node has
    [g = 0], [h] and [f = g + h] set and is the one member of [open_set]. *)
Definition initial_state (start_node goal_node : Node.t) (G : Graph.t)
    : search_state :=
  let h := heuristic start_node goal_node in
  mk_state
    (Graph.mk
       (nodes_put
          (Node.mk (Node.name start_node) (Node.location start_node)
             (Fin 0) h (num_add (Fin 0) h) (Node.parent start_node))
          (Graph.nodes G))
       (Graph.edges G))
    [Node.name start_node] [].

(** [astar_search(graph.nodes[start], graph.nodes[goal], graph)]: the two
    nodes are given by key, as [plan_trip] obtains them.  [fuel] bounds
    the iterations of the [while] loops; the result comes with the graph
    as the call leaves it. *)
Definition astar_search (fuel : nat) (start goal : string) (graph : Graph.t)
    : outcome * Graph.t :=
  match nodes_get start (Graph.nodes graph) with
  | None => (KeyError start, graph)
  | Some start_node =>
      match nodes_get goal (Graph.nodes graph) with
      | None => (KeyError goal, graph)
      | Some goal_node =>
          search_loop fuel goal_node (initial_state start_node goal_node graph)
      end
  end.

(** The state after [n] full iterations of the [while] loop, when the loop
    is still running then ([iteration] uses its fuel only when it
    returns). *)
Fixpoint state_after (n : nat) (goal_node : Node.t) (s : search_state)
    : option search_state :=
  match n with
  | O => Some s
  | S n' =>
      match iteration O goal_node s with
      | Return _ _ => None
      | Continue s' => state_after n' goal_node s'
      end
  end.
End Search.

(* ================================================================== *)
(** * find_nearest_stations, plan_trip *)

(** [sorted(l, key=key)]: Python's sort is stable, so it returns what a
    stable insertion sort returns. *)
Section Sorted.
Context {A : Type}.
Variable key : A -> Z.

Fixpoint insert_by (x : A) (l : list A) : list A :=
  match l with
  | [] => [x]
  | y :: l' => if key x <=? key y then x :: l else y :: insert_by x l'
  end.

Definition sorted (l : list A) : list A := fold_right insert_by [] l.
End Sorted.

(** One entry of [detailed_routes]. *)
Record TripCandidate : Type := mk_candidate {
  total_time : Z;
  total_cost : Z;
  total_transfers : Z;
  total_transfer_time : Z;
  route : list TransportRoute.t
}.

(** How [plan_trip] ends. *)
Inductive trip_outcome : Type :=
| Trips (detailed_routes : list TripCandidate)
| TripKeyError (key : string)
| TripOutOfFuel.

(** [[graph.get_route(path[i], path[i + 1]) for i in range(len(path) - 1)]];
    [inl k] is a [KeyError]. *)
Fixpoint path_routes (path : list string) (G : Graph.t)
    : (string + list TransportRoute.t) * Graph.t :=
  match path with
  | a :: (b :: _) as rest =>
      match nodes_get a (Graph.nodes G), nodes_get b (Graph.nodes G) with
      | Some na, Some nb =>
          match Graph.get_route na nb G with
          | (Some r, G1) =>
              match path_routes rest G1 with
              | (inr rs, G2) => (inr (r :: rs), G2)
              | e => e
              end
          | (None, G1) => (inl b, G1)
          end
      | None, _ => (inl a, G)
      | _, None => (inl b, G)
      end
  | _ => (inr [], G)
  end.

Definition detail (route : list TransportRoute.t) : TripCandidate :=
  let '(time, cost, transfers, transfer_time) := collect_route_details route in
  mk_candidate time cost transfers transfer_time route.

Section Planner.
Variable haversine : Location -> Location -> Z.
Variable set_iter : list string -> list string.

Definition find_nearest_stations (home_location hotel_location : Location)
    (stations : list Node.t) : list Node.t * list Node.t :=
  let nearest_from_home :=
    firstn 3 (sorted (fun station => haversine home_location (Node.location station))
                stations) in
  let nearest_to_hotel :=
    firstn 3 (sorted (fun station => haversine hotel_location (Node.location station))
                stations) in
  (nearest_from_home, nearest_to_hotel).

(** The two nested [for] loops of [plan_trip], over the pairs
    (start_station, end_station) in the order the loops visit them. *)
Fixpoint plan_pairs (fuel : nat) (pairs : list (Node.t * Node.t))
    (graph : Graph.t) (all_routes : list (list TransportRoute.t))
    : (trip_outcome + list (list TransportRoute.t)) * Graph.t :=
  match pairs with
  | [] => (inr all_routes, graph)
  | (start_station, end_station) :: rest =>
      match astar_search haversine set_iter fuel
              (Node.name start_station) (Node.name end_station) graph with
      | (Found route_to_station, G1) =>
          match route_to_station with
          | [] => plan_pairs fuel rest G1 all_routes   (* an empty list is falsy *)
          | _ :: _ =>
              match path_routes route_to_station G1 with
              | (inr transport_routes, G2) =>
                  plan_pairs fuel rest G2 (all_routes ++ [transport_routes])
              | (inl k, G2) => (inl (TripKeyError k), G2)
              end
          end
      | (NotFound, G1) => plan_pairs fuel rest G1 all_routes
      | (KeyError k, G1) => (inl (TripKeyError k), G1)
      | (OutOfFuel, G1) => (inl TripOutOfFuel, G1)
      end
  end.

Definition plan_trip (fuel : nat) (home_location hotel_location : Location)
    (stations : list Node.t) (graph : Graph.t) : trip_outcome * Graph.t :=
  let '(nearest_from_home, nearest_to_hotel) :=
    find_nearest_stations home_location hotel_location stations in
  match plan_pairs fuel (list_prod nearest_from_home nearest_to_hotel) graph [] with
  | (inr all_routes, G) => (Trips (map detail all_routes), G)
  | (inl e, G) => (e, G)
  end.
End Planner.

(* ================================================================== *)
(** * Directed paths and their cost *)

(** [p] follows edges of [G] from each node to the next. *)
Fixpoint is_path (G : Graph.t) (p : list string) : bool :=
  match p with
  | [] => true
  | u :: rest =>
      match rest with
      | [] => true
      | v :: _ =>
          match edge_route G u v with
          | Some _ => is_path G rest
          | None => false
          end
      end
  end.

(** The sum of [base_cost] over the edges of [p]. *)
Fixpoint path_cost (G : Graph.t) (p : list string) : Z :=
  match p with
  | [] => 0
  | u :: rest =>
      match rest with
      | [] => 0
      | v :: _ =>
          match edge_route G u v with
          | Some r => TransportRoute.base_cost r
          | None => 0
          end + path_cost G rest
      end
  end.

(** [p] is a directed path of [G] from [s] to [t]. *)
Definition path_from_to (G : Graph.t) (s t : string) (p : list string) : Prop :=
  hd_error p = Some s /\ last p s = t /\ is_path G p = true.

Definition nonneg_costs (G : Graph.t) : Prop :=
  forall u v r, edge_route G u v = Some r -> 0 <= TransportRoute.base_cost r.

(** The [g] of the node held under [x]. *)
Definition node_g (G : Graph.t) (x : string) : num :=
  match nodes_get x (Graph.nodes G) with
  | Some n => Node.g n
  | None => Inf
  end.

Definition node_parent (G : Graph.t) (x : string) : option string :=
  match nodes_get x (Graph.nodes G) with
  | Some n => Node.parent n
  | None => None
  end.

(* ================================================================== *)
(** * The data of the program's [__main__] block *)

Module Main.
Definition A : string := "Station A".
Definition B : string := "Station B".
Definition C : string := "Station C".

Definition loc_A : Location := (40712800, -74006000).
Definition loc_B : Location := (34052200, -118243700).
Definition loc_C : Location := (51507400, -127800).

Definition train_AB : TransportRoute.t :=
  TransportRoute.mk "Train A-B" "train" "economy" 100 6 1 0 1 0.
Definition train_BC : TransportRoute.t :=
  TransportRoute.mk "Train B-C" "train" "economy" 150 5 0 1 1 0.
Definition flight_AC : TransportRoute.t :=
  TransportRoute.mk "Flight A-C" "plane" "business" 300 10 2 0 0 1.

Definition graph : Graph.t :=
  Graph.add_edge A C flight_AC
    (Graph.add_edge B C train_BC
       (Graph.add_edge A B train_AB
          (Graph.add_node C loc_C
             (Graph.add_node B loc_B
                (Graph.add_node A loc_A Graph.init))))).

Definition home_location : Location := (40730610, -73935242).
Definition hotel_location : Location := (51515500, -92200).

(** The value of the program's [haversine] on the coordinates above,
    rounded to the kilometre (3935.75, 5570.22, 8755.60 km between the
    stations; 6.28, 3941.57, 5564.33 km from home; 5572.28, 8756.84,
    2.62 km from the hotel); [0] between a point and itself. *)
Definition km_table : list (Location * Location * Z) :=
  [ (loc_A, loc_B, 3936); (loc_A, loc_C, 5570); (loc_B, loc_C, 8756);
    (home_location, loc_A, 6); (home_location, loc_B, 3942);
    (home_location, loc_C, 5564);
    (hotel_location, loc_A, 5572); (hotel_location, loc_B, 8757);
    (hotel_location, loc_C, 3) ].

Definition loc_eqb (p q : Location) : bool :=
  (fst p =? fst q) && (snd p =? snd q).

Fixpoint km_lookup (p q : Location) (t : list (Location * Location * Z)) : Z :=
  match t with
  | [] => 0
  | (a, b, d) :: t' =>
      if (loc_eqb a p && loc_eqb b q) || (loc_eqb a q && loc_eqb b p) then d
      else km_lookup p q t'
  end.

Definition haversine (coord1 coord2 : Location) : Z :=
  km_lookup coord1 coord2 km_table.

(** The heuristic the specification calls Dijkstra mode. *)
Definition zero_heuristic (_ _ : Location) : Z := 0.

(** Iteration of a set in insertion order. *)
Definition insertion_order (s : list string) : list string := s.
End Main.

(** A two-node cycle from which a third node cannot be reached. *)
Module Cycle.
Definition A : string := "A".
Definition B : string := "B".
Definition C : string := "C".

Definition hop : TransportRoute.t :=
  TransportRoute.mk "hop" "bus" "economy" 1 1 0 0 0 0.

Definition graph : Graph.t :=
  Graph.add_edge B A hop
    (Graph.add_edge A B hop
       (Graph.add_node C (0, 0)
          (Graph.add_node B (0, 0)
             (Graph.add_node A (0, 0) Graph.init)))).
End Cycle.

(* ================================================================== *)
(** * States of the runs studied below *)

(** The search on [Cycle.graph] from [A] for [C]. *)
Section CycleStates.
Variable haversine : Location -> Location -> Z.

Definition cycle_goal : Node.t := Node.init Cycle.C (0, 0).

(** The loop state on entry. *)
Definition cycle_s0 : search_state :=
  initial_state haversine (Node.init Cycle.A (0, 0)) cycle_goal Cycle.graph.

(** The state [iteration] continues with. *)
Definition next_state (s : search_state) : search_state :=
  match iteration haversine Main.insertion_order O cycle_goal s with
  | Continue s' => s'
  | Return _ _ => s
  end.

(** After [A] and [B] have been expanded once, and after [A] has been
    expanded a second time. *)
Definition cycle_sA : search_state := next_state (next_state cycle_s0).
Definition cycle_sB : search_state := next_state cycle_sA.
End CycleStates.

(** The search on [Main.graph] from [Station A] for [Station C] with a
    zero heuristic. *)
Definition main_goal : Node.t := Node.init Main.C Main.loc_C.

(** The loop state on entry, searching from [Station A] for [Station C]. *)
Definition main_s0 : search_state :=
  initial_state Main.zero_heuristic (Node.init Main.A Main.loc_A) main_goal Main.graph.

Definition main_step (s : search_state) : search_state :=
  match iteration Main.zero_heuristic Main.insertion_order O main_goal s with
  | Continue s' => s'
  | Return _ _ => s
  end.

(** After [Station A], and after [Station B], has been expanded. *)
Definition main_s1 : search_state := main_step main_s0.
Definition main_s2 : search_state := main_step main_s1.

(** The graph as the search from [Station A] to [Station C] leaves it. *)
Definition main_graph_after_first_search : Graph.t :=
  snd (astar_search Main.haversine Main.insertion_order 10 Main.A Main.C Main.graph).

(** A graph with one station. *)
Definition one_station_graph : Graph.t :=
  Graph.add_node Main.A Main.loc_A Graph.init.

(* ================================================================== *)
(** * Order on [num] and invariants of the search *)

Definition num_le (a b : num) : Prop :=
  match a, b with
  | Fin x, Fin y => x <= y
  | _, Inf => True
  | Inf, Fin _ => False
  end.

Section Invariants.
Variable G0 : Graph.t.
Variables start goal : string.

(** The edges are those of the graph the search was called on. *)
Definition same_edges (G : Graph.t) : Prop :=
  forall u v, edge_route G u v = edge_route G0 u v.

(** The scratch fields describe a tree rooted at [start]: [f] equals [g];
    a finite [g] is non-negative; a node other than [start] with a finite
    [g] has a parent with a finite [g], an edge from that parent, and a [g]
    no smaller than the parent's plus the cost of the edge. *)
Definition tree_inv (G : Graph.t) : Prop :=
  (node_g G start = Fin 0 /\ node_parent G start = None)
  /\ forall u n, nodes_get u (Graph.nodes G) = Some n ->
       Node.f n = Node.g n
       /\ forall x, Node.g n = Fin x ->
            0 <= x
            /\ (u <> start ->
                exists p y r,
                  Node.parent n = Some p /\ node_g G p = Fin y
                  /\ edge_route G0 p u = Some r
                  /\ y + TransportRoute.base_cost r <= x).

(** Every member of [open_set] has a finite [g]. *)
Definition open_finite (G : Graph.t) (open : list string) : Prop :=
  forall v, In v open -> exists x, node_g G v = Fin x.

(** Every path from [start] to [goal] passes through a member of
    [open_set] whose [g] is at most the cost of the path up to it. *)
Definition frontier (G : Graph.t) (open : list string) : Prop :=
  forall q, path_from_to G0 start goal q ->
    exists q1 v q2 x,
      q = q1 ++ v :: q2 /\ In v open /\ node_g G v = Fin x
      /\ x <= path_cost G0 (q1 ++ [v]).

(** [g] never grows. *)
Definition g_decreases (G G' : Graph.t) : Prop :=
  forall u x, node_g G u = Fin x -> exists x', node_g G' u = Fin x' /\ x' <= x.

Definition search_inv (s : search_state) : Prop :=
  same_edges (st_graph s) /\ tree_inv (st_graph s)
  /\ open_finite (st_graph s) (open_set s)
  /\ frontier (st_graph s) (open_set s).

(** Every member of [open_set] can be reached from [start]. *)
Definition open_reachable (s : search_state) : Prop :=
  (forall u v, edge_route (st_graph s) u v = edge_route G0 u v)
  /\ forall v, In v (open_set s) -> exists q, path_from_to G0 start v q.
End Invariants.

(* ================================================================== *)
(** * Vocabulary for the further properties *)

(** What identifies the nodes of a graph: their names and locations, in the
    order of [graph.nodes]. *)
Definition node_ids (G : Graph.t) : list (string * Location) :=
  map (fun n => (Node.name n, Node.location n)) (Graph.nodes G).

(** What the loop leaves alone, and the one direction in which [g] moves. *)
Definition kept (G G' : Graph.t) : Prop :=
  node_ids G' = node_ids G
  /\ (forall u v, edge_route G' u v = edge_route G u v)
  /\ forall u, num_le (node_g G' u) (node_g G u).

(** Every path from [start] to [goal] in [G0] meets [open_set], and the
    routes are those of [G0]. *)
Definition path_meets_open (G0 : Graph.t) (start goal : string)
    (s : search_state) : Prop :=
  (forall u v, edge_route (st_graph s) u v = edge_route G0 u v)
  /\ forall q, path_from_to G0 start goal q ->
       exists v, In v q /\ In v (open_set s).

(** [p] lists a node without parent (when [prev] is [None]) or a child of
    [prev], then a child of that node, and so on; every node listed is
    registered. *)
Fixpoint follows_parents (G : Graph.t) (prev : option string) (p : list string)
    : Prop :=
  match p with
  | [] => True
  | x :: rest =>
      nodes_get x (Graph.nodes G) <> None
      /\ node_parent G x = prev
      /\ follows_parents G (Some x) rest
  end.

(** A graph on which a second search does not come back: [X -> A -> B] and
    a cheap edge [B -> A]. *)
Module Loop.
Definition X : string := "X".
Definition A : string := "A".
Definition B : string := "B".

Definition route (cost : Z) : TransportRoute.t :=
  TransportRoute.mk "r" "bus" "economy" cost 1 0 0 0 0.

Definition graph : Graph.t :=
  Graph.add_edge B A (route 1)
    (Graph.add_edge A B (route 10)
       (Graph.add_edge X A (route 10)
          (Graph.add_node B (0, 0)
             (Graph.add_node A (0, 0)
                (Graph.add_node X (0, 0) Graph.init))))).

(** The graph after [astar_search(X, B, graph)], and after the loop of
    [astar_search(B, A, graph)] that follows has found its goal. *)
Definition after_first : Graph.t :=
  snd (astar_search Main.zero_heuristic Main.insertion_order 10 X B graph).
Definition after_second : Graph.t :=
  snd (astar_search Main.zero_heuristic Main.insertion_order 10 B A after_first).
End Loop.

(** Two stations and an edge from the first to a name that was never
    registered. *)
Module Dangling.
Definition A : string := "A".
Definition B : string := "B".
Definition ghost : string := "Ghost".

Definition graph : Graph.t :=
  Graph.add_edge A ghost Cycle.hop
    (Graph.add_node B (0, 0) (Graph.add_node A (0, 0) Graph.init)).
End Dangling.

(** Every parent pointer of [G] runs along an edge of [G0], from a
    registered node. *)
Definition parents_ok (G0 G : Graph.t) : Prop :=
  forall u n p,
    nodes_get u (Graph.nodes G) = Some n -> Node.parent n = Some p ->
    edge_route G0 p u <> None /\ nodes_get p (Graph.nodes G) <> None.

(** The measure that shrinks with every iteration of the search on an
    acyclic graph: each member [v] of [open_set] weighs [(d + 1) ^ rank v],
    where [d] bounds the number of edges leaving a node and [rank] falls
    along every edge. *)
Definition open_weight (d : nat) (rank : string -> nat) (open : list string) : nat :=
  list_sum (map (fun v => Nat.pow (S d) (rank v)) open).

(** No node has more than [d] outgoing edges. *)
Definition out_degree_le (d : nat) (G : Graph.t) : Prop :=
  forall k dct, dict_get k (Graph.edges G) = Some dct -> (List.length dct <= d)%nat.

(** [rank] falls along every edge of [G] and never exceeds [R]: the graph
    has no cycle. *)
Definition ranked (rank : string -> nat) (R : nat) (G : Graph.t) : Prop :=
  (forall u v, edge_route G u v <> None -> (rank v < rank u)%nat)
  /\ forall u, (rank u <= R)%nat.

(** A rank for the program's graph. *)
Definition main_rank (v : string) : nat :=
  if String.eqb v Main.A then 2%nat else if String.eqb v Main.B then 1%nat else 0%nat.

(** What the termination argument needs of a loop state. *)
Definition loop_ok (G0 : Graph.t) (d : nat) (goal_node : Node.t)
    (s : search_state) : Prop :=
  (forall u v, edge_route (st_graph s) u v = edge_route G0 u v)
  /\ parents_ok G0 (st_graph s)
  /\ out_degree_le d (st_graph s)
  /\ nodes_get (Node.name goal_node) (Graph.nodes (st_graph s)) <> None.

(** The scratch fields describe a tree rooted at [start], whatever [f] and
    [h] hold: [start] has [g = 0] and no parent; a finite [g] is
    non-negative; a node other than [start] with a finite [g] has a parent
    with a finite [g], an edge of [G0] from that parent, and a [g] no
    smaller than the parent's plus the cost of the edge. *)
Definition tree_any (G0 : Graph.t) (start : string) (G : Graph.t) : Prop :=
  (node_g G start = Fin 0 /\ node_parent G start = None)
  /\ forall u n, nodes_get u (Graph.nodes G) = Some n ->
       forall x, Node.g n = Fin x ->
         0 <= x
         /\ (u <> start ->
             exists p y r,
               Node.parent n = Some p /\ node_g G p = Fin y
               /\ edge_route G0 p u = Some r
               /\ y + TransportRoute.base_cost r <= x).

(** [res] holds the [k] elements of [l] with the smallest keys (all of
    [l] when it has fewer), in ascending order of key. *)
Definition nearest_by {A : Type} (key : A -> Z) (k : nat) (l res : list A) : Prop :=
  List.length res = Nat.min k (List.length l)
  /\ StronglySorted (fun a b => key a <= key b) res
  /\ exists rest,
       Permutation (res ++ rest) l
       /\ forall s t, In s res -> In t rest -> key s <= key t.

(** [res] is the list of the first [k] elements (all of them when [l] has
    fewer) of [l] put in ascending order of key with elements of equal key
    left in the order in which [l] holds them: some [rest] makes
    [res ++ rest] ascending, and for every key value [x] the elements of key
    [x] are the same, in the same order, in [res ++ rest] and in [l]. *)
Definition nearest_stable {A : Type} (key : A -> Z) (k : nat) (l res : list A)
    : Prop :=
  List.length res = Nat.min k (List.length l)
  /\ exists rest,
       StronglySorted (fun a b => key a <= key b) (res ++ rest)
       /\ forall x, filter (fun a => key a =? x) (res ++ rest)
                    = filter (fun a => key a =? x) l.

(** The totals of a candidate are those of its own edge list. *)
Definition totals_match (c : TripCandidate) : Prop :=
  total_time c = Zsum (map TransportRoute.calculate_total_time (route c))
  /\ total_cost c = Zsum (map TransportRoute.base_cost (route c))
  /\ total_transfers c = Z.of_nat (List.length (route c)) - 1
  /\ total_transfer_time c = Zsum (map TransportRoute.transfer_time (route c)).

(** Every edge listed is a route the graph holds. *)
Definition routes_of (G : Graph.t) (rs : list TransportRoute.t) : Prop :=
  forall r, In r rs -> exists u v, edge_route G u v = Some r.

(** Every edge of [G] leads to a registered node. *)
Definition closed_edges (G : Graph.t) : Prop :=
  forall u v, edge_route G u v <> None -> nodes_get v (Graph.nodes G) <> None.

(** A loop state whose graph has the nodes and routes of [G0] and whose
    [open_set] holds registered nodes only. *)
Definition open_registered (G0 : Graph.t) (s : search_state) : Prop :=
  (forall u v, edge_route (st_graph s) u v = edge_route G0 u v)
  /\ node_ids (st_graph s) = node_ids G0
  /\ forall v, In v (open_set s) -> nodes_get v (Graph.nodes G0) <> None.

(* ================================================================== *)
(** * Lookup lemmas *)

Section DictFacts.
Context {V : Type}.
Implicit Types (d : dict V) (k : string) (v : V).

Lemma dict_get_set_same d k v : dict_get k (dict_set k v d) = Some v.
Proof.
  induction d as [|[k' v'] d IH]; simpl.
  - now rewrite String.eqb_refl.
  - destruct (String.eqb k' k) eqn:E; simpl.
    + now rewrite String.eqb_refl.
    + now rewrite E.
Qed.

Lemma dict_get_set_other d k k' v :
  k' <> k -> dict_get k' (dict_set k v d) = dict_get k' d.
Proof.
  intros Hne. induction d as [|[k0 v0] d IH]; simpl.
  - destruct (String.eqb k k') eqn:E; [|reflexivity].
    apply String.eqb_eq in E. congruence.
  - destruct (String.eqb k0 k) eqn:E; simpl.
    + apply String.eqb_eq in E. subst k0.
      destruct (String.eqb k k') eqn:E'; [|reflexivity].
      apply String.eqb_eq in E'. congruence.
    + now rewrite IH.
Qed.

Lemma dict_set_absent d k v :
  dict_get k d = None -> dict_set k v d = d ++ [(k, v)].
Proof.
  induction d as [|[k' v'] d IH]; simpl; [reflexivity|].
  destruct (String.eqb k' k); [discriminate|].
  intros H. now rewrite IH.
Qed.

Lemma dict_get_in_keys d k v : dict_get k d = Some v -> In k (dict_keys d).
Proof.
  induction d as [|[k' v'] d IH]; simpl; [discriminate|].
  destruct (String.eqb k' k) eqn:E.
  - apply String.eqb_eq in E. now left.
  - intros H. right. now apply IH.
Qed.

Lemma dict_keys_get d k : In k (dict_keys d) -> exists v, dict_get k d = Some v.
Proof.
  induction d as [|[k' v'] d IH]; simpl; [tauto|].
  intros [->|Hin].
  - rewrite String.eqb_refl. eauto.
  - destruct (String.eqb k' k); eauto.
Qed.
End DictFacts.

Lemma nodes_get_name k ns n : nodes_get k ns = Some n -> Node.name n = k.
Proof.
  induction ns as [|m ns IH]; simpl; [discriminate|].
  destruct (String.eqb (Node.name m) k) eqn:E.
  - intros [= <-]. now apply String.eqb_eq.
  - exact IH.
Qed.

Lemma nodes_get_in k ns n : nodes_get k ns = Some n -> In n ns.
Proof.
  induction ns as [|m ns IH]; simpl; [discriminate|].
  destruct (String.eqb (Node.name m) k).
  - intros [= <-]. now left.
  - intros H. right. now apply IH.
Qed.

Lemma nodes_get_put_same n ns : nodes_get (Node.name n) (nodes_put n ns) = Some n.
Proof.
  induction ns as [|m ns IH]; simpl.
  - now rewrite String.eqb_refl.
  - destruct (String.eqb (Node.name m) (Node.name n)) eqn:E; simpl.
    + now rewrite String.eqb_refl.
    + now rewrite E.
Qed.

Lemma nodes_get_put_other n ns k :
  k <> Node.name n -> nodes_get k (nodes_put n ns) = nodes_get k ns.
Proof.
  intros Hne. induction ns as [|m ns IH]; simpl.
  - destruct (String.eqb (Node.name n) k) eqn:E; [|reflexivity].
    apply String.eqb_eq in E. congruence.
  - destruct (String.eqb (Node.name m) (Node.name n)) eqn:E; simpl.
    + apply String.eqb_eq in E.
      destruct (String.eqb (Node.name n) k) eqn:E1.
      * apply String.eqb_eq in E1. congruence.
      * rewrite E. now rewrite E1.
    + now rewrite IH.
Qed.

Lemma nodes_put_in n m ns : In m (nodes_put n ns) -> m = n \/ In m ns.
Proof.
  induction ns as [|x ns IH]; simpl.
  - intros [<-|[]]. now left.
  - destruct (String.eqb (Node.name x) (Node.name n)); simpl.
    + intros [<-|H]; auto.
    + intros [<-|H]; auto. destruct (IH H); auto.
Qed.

(** Every node of a graph built by [add_node] and [add_edge] alone has its
    scratch fields as [Node.__init__] set them. *)
Lemma constructed_fresh G : constructed G -> fresh_scratch G.
Proof.
  induction 1 as [|name location G _ IH|a b r G _ IH]; intros n Hin.
  - destruct Hin.
  - apply nodes_put_in in Hin. destruct Hin as [->|Hin]; [|now apply IH].
    repeat split.
  - now apply IH.
Qed.

(** In such a graph no adjacency entry is empty. *)
Lemma constructed_inner_nonempty G k d :
  constructed G -> dict_get k (Graph.edges G) = Some d -> d <> [].
Proof.
  induction 1 as [|name location G _ IH|a b r G _ IH] in d |- *; simpl.
  - discriminate.
  - exact (IH d).
  - destruct (String.eqb k a) eqn:E.
    + apply String.eqb_eq in E. subst k.
      rewrite dict_get_set_same. intros [= <-].
      destruct (match dict_get a (Graph.edges G) with Some d0 => d0 | None => [] end)
        as [|[k' v'] d']; simpl; [discriminate|].
      destruct (String.eqb k' b); discriminate.
    + apply String.eqb_neq in E. rewrite dict_get_set_other by exact E.
      exact (IH d).
Qed.

(* ================================================================== *)
(** * Trip aggregation *)

Lemma py_sum_from (l : list Z) (a : Z) : fold_left Z.add l a = a + Zsum l.
Proof.
  induction l as [|x l IH] in a |- *; simpl; [lia|]. rewrite IH. lia.
Qed.

Lemma collect_loop_sums routes t c :
  collect_loop routes (t, c) =
  (t + Zsum (map TransportRoute.calculate_total_time routes),
   c + Zsum (map TransportRoute.base_cost routes)).
Proof.
  unfold collect_loop.
  induction routes as [|r routes IH] in t, c |- *; simpl.
  - f_equal; lia.
  - rewrite IH. unfold TransportRoute.calculate_total_cost. f_equal; lia.
Qed.

(** C8.  For every finite sequence of route edges, [collect_route_details]
    returns total_time = the sum over the edges of base_time + stop_time +
    average_delay + expected_waiting + transfer_time, total_cost = the sum
    of base_cost, total_transfers = the length of the sequence minus 1, and
    total_transfer_time = the sum of transfer_time; a single edge gives 0
    transfers and the empty sequence gives -1. *)
Theorem collect_route_details_sums :
  (forall routes : list TransportRoute.t,
     collect_route_details routes =
     (Zsum (map (fun r => TransportRoute.base_time r + TransportRoute.stop_time r
                          + TransportRoute.average_delay r
                          + TransportRoute.expected_waiting r
                          + TransportRoute.transfer_time r) routes),
      Zsum (map TransportRoute.base_cost routes),
      Z.of_nat (List.length routes) - 1,
      Zsum (map TransportRoute.transfer_time routes)))
  /\ (forall r, snd (fst (collect_route_details [r])) = 0)
  /\ snd (fst (collect_route_details [])) = -1.
Proof.
  split; [|split; [intros r; reflexivity | reflexivity]].
  intros routes. unfold collect_route_details.
  rewrite collect_loop_sums. unfold py_sum. rewrite py_sum_from.
  reflexivity.
Qed.

(* ================================================================== *)
(** * Graph construction and lookup *)

Lemma edge_route_add_edge G a b r u v :
  edge_route (Graph.add_edge a b r G) u v =
  if String.eqb u a && String.eqb v b then Some r else edge_route G u v.
Proof.
  unfold edge_route, Graph.add_edge. simpl.
  destruct (String.eqb u a) eqn:Eu; simpl.
  - apply String.eqb_eq in Eu. subst u. rewrite dict_get_set_same.
    destruct (String.eqb v b) eqn:Ev.
    + apply String.eqb_eq in Ev. subst v. apply dict_get_set_same.
    + apply String.eqb_neq in Ev. rewrite dict_get_set_other by exact Ev.
      now destruct (dict_get a (Graph.edges G)).
  - apply String.eqb_neq in Eu. now rewrite dict_get_set_other by exact Eu.
Qed.

(** An edge between two names that were never registered is recorded. *)
Lemma add_edge_unregistered_recorded :
  nodes_get "X" (Graph.nodes (Graph.add_edge "X" "Y" Cycle.hop Graph.init)) = None
  /\ nodes_get "Y" (Graph.nodes (Graph.add_edge "X" "Y" Cycle.hop Graph.init)) = None
  /\ edge_route (Graph.add_edge "X" "Y" Cycle.hop Graph.init) "X" "Y"
     = Some Cycle.hop
  /\ fst (Graph.get_neighbors (Node.init "X" (0, 0))
            (Graph.add_edge "X" "Y" Cycle.hop Graph.init)) = ["Y"%string].
Proof. repeat split. Qed.

(** C5, amended.  [add_edge] raises nothing: for every graph and every pair
    of names, registered through [add_node] or not, it returns the graph in
    which the route is stored for the ordered pair (replacing an earlier
    one), the node mapping is unchanged, and the route of every other
    ordered pair is unchanged. *)
Theorem add_edge_records_any_pair :
  forall (G : Graph.t) (from_node to_node : string) (route : TransportRoute.t),
    Graph.nodes (Graph.add_edge from_node to_node route G) = Graph.nodes G
    /\ edge_route (Graph.add_edge from_node to_node route G) from_node to_node
       = Some route
    /\ fst (Graph.get_route (Node.init from_node (0, 0)) (Node.init to_node (0, 0))
              (Graph.add_edge from_node to_node route G)) = Some route
    /\ (forall u v, (u, v) <> (from_node, to_node) ->
          edge_route (Graph.add_edge from_node to_node route G) u v
          = edge_route G u v).
Proof.
  intros G a b r. split; [reflexivity|]. split; [|split].
  - rewrite edge_route_add_edge. now rewrite !String.eqb_refl.
  - unfold Graph.get_route, Graph.add_edge. simpl.
    rewrite dict_get_set_same. simpl. apply dict_get_set_same.
  - intros u v Hne. rewrite edge_route_add_edge.
    destruct (String.eqb u a) eqn:Eu; [|reflexivity].
    destruct (String.eqb v b) eqn:Ev; [|reflexivity].
    apply String.eqb_eq in Eu, Ev. congruence.
Qed.

(** C10.  For a node with no outgoing edge, [get_neighbors] returns the
    empty collection and raises nothing; afterwards the node's name is a key
    of [graph.edges] with an empty adjacency, the node mapping and the entry
    of every other key are unchanged, and in a graph built by [add_node] and
    [add_edge] alone the new key is appended to [graph.edges] by the call. *)
Theorem get_neighbors_inserts_empty_entry :
  forall (G : Graph.t) (node : Node.t),
    (forall v, edge_route G (Node.name node) v = None) ->
    fst (Graph.get_neighbors node G) = []
    /\ Graph.nodes (snd (Graph.get_neighbors node G)) = Graph.nodes G
    /\ dict_get (Node.name node) (Graph.edges (snd (Graph.get_neighbors node G)))
       = Some []
    /\ (forall k, k <> Node.name node ->
          dict_get k (Graph.edges (snd (Graph.get_neighbors node G)))
          = dict_get k (Graph.edges G))
    /\ (constructed G ->
          dict_get (Node.name node) (Graph.edges G) = None
          /\ Graph.edges (snd (Graph.get_neighbors node G))
             = Graph.edges G ++ [(Node.name node, [])]).
Proof.
  intros G node Hnone. unfold Graph.get_neighbors.
  destruct (dict_get (Node.name node) (Graph.edges G)) as [d|] eqn:E; simpl.
  - assert (Hd : d = []).
    { destruct d as [|[k r] d]; [reflexivity|].
      specialize (Hnone k). unfold edge_route in Hnone. rewrite E in Hnone.
      simpl in Hnone. rewrite String.eqb_refl in Hnone. discriminate. }
    subst d. repeat split; auto;
      match goal with
      | HG : constructed _ |- _ =>
          exfalso; exact (constructed_inner_nonempty _ _ _ HG E eq_refl)
      end.
  - repeat split.
    + apply dict_get_set_same.
    + intros k Hk. now apply dict_get_set_other.
    + now apply dict_set_absent.
Qed.

(** The node [Station C] of the program's own graph has no outgoing edge. *)
Lemma get_neighbors_inserts_empty_entry_witness :
  (forall v, edge_route Main.graph Main.C v = None)
  /\ fst (Graph.get_neighbors (Node.init Main.C Main.loc_C) Main.graph) = []
  /\ Graph.nodes (snd (Graph.get_neighbors (Node.init Main.C Main.loc_C) Main.graph))
     = Graph.nodes Main.graph
  /\ dict_get Main.C
       (Graph.edges (snd (Graph.get_neighbors (Node.init Main.C Main.loc_C) Main.graph)))
     = Some []
  /\ (forall k, k <> Main.C ->
        dict_get k
          (Graph.edges (snd (Graph.get_neighbors (Node.init Main.C Main.loc_C) Main.graph)))
        = dict_get k (Graph.edges Main.graph))
  /\ (constructed Main.graph ->
        dict_get Main.C (Graph.edges Main.graph) = None
        /\ Graph.edges (snd (Graph.get_neighbors (Node.init Main.C Main.loc_C) Main.graph))
           = Graph.edges Main.graph ++ [(Main.C, [])]).
Proof.
  split; [intros v; reflexivity|].
  apply (get_neighbors_inserts_empty_entry Main.graph (Node.init Main.C Main.loc_C)).
  intros v. reflexivity.
Defined.

(* ================================================================== *)
(** * Searching from a node to itself *)

Lemma main_graph_constructed : constructed Main.graph.
Proof. unfold Main.graph. repeat constructor. Qed.

Lemma cycle_graph_constructed : constructed Cycle.graph.
Proof. unfold Cycle.graph. repeat constructor. Qed.

Lemma set_iter_singleton (set_iter : list string -> list string) x :
  (forall s, Permutation (set_iter s) s) -> set_iter [x] = [x].
Proof.
  intros Hperm. apply Permutation_length_1_inv. apply Permutation_sym, Hperm.
Qed.

(** X21.  On a graph built by [add_node] and [add_edge] alone, on which no
    search has run yet: for every node [n] of the graph, whatever
    [haversine] returns and in whatever order sets are iterated,
    [astar_search(n, n, graph)] returns the single-node path [[n]] and
    leaves [n] with [g = 0]: the goal test comes before any neighbour of
    [n] is looked at (so this holds with or without a self-loop at [n]).
    Two units of fuel are enough. *)
Theorem astar_search_start_is_goal :
  forall (haversine : Location -> Location -> Z)
         (set_iter : list string -> list string)
         (fuel : nat) (G : Graph.t) (n : string),
    (forall s, Permutation (set_iter s) s) ->
    constructed G ->
    nodes_get n (Graph.nodes G) <> None ->
    fst (astar_search haversine set_iter (S (S fuel)) n n G) = Found [n]
    /\ node_g (snd (astar_search haversine set_iter (S (S fuel)) n n G)) n = Fin 0.
Proof.
  intros haversine set_iter fuel G n Hperm HG Hn.
  unfold astar_search.
  destruct (nodes_get n (Graph.nodes G)) as [node|] eqn:E; [clear Hn|congruence].
  pose proof (nodes_get_name _ _ _ E) as Hname. subst n.
  destruct (constructed_fresh G HG node (nodes_get_in _ _ _ E)) as (_ & _ & Hpar).
  cbn [search_loop]. unfold iteration, initial_state.
  cbn [st_graph open_set closed_set].
  rewrite (set_iter_singleton set_iter _ Hperm). cbn [py_min min_from].
  rewrite String.eqb_refl.
  unfold reconstruct_path, node_g. cbn [reconstruct_loop Graph.nodes fst snd].
  set (node' := Node.mk _ _ _ _ _ _).
  change (Node.name node) with (Node.name node').
  rewrite nodes_get_put_same.
  subst node'. cbn [Node.parent Node.g Node.name]. rewrite Hpar.
  destruct fuel; cbn [reconstruct_loop app rev fst snd]; split; reflexivity.
Qed.

Lemma astar_search_start_is_goal_witness :
  (forall s, Permutation (Main.insertion_order s) s)
  /\ nodes_get Main.B (Graph.nodes Main.graph) <> None
  /\ fst (astar_search Main.haversine Main.insertion_order 2 Main.B Main.B Main.graph)
     = Found [Main.B]
  /\ node_g (snd (astar_search Main.haversine Main.insertion_order 2
                    Main.B Main.B Main.graph)) Main.B = Fin 0.
Proof.
  split; [intros s; apply Permutation_refl|].
  split; [discriminate|].
  apply (astar_search_start_is_goal Main.haversine Main.insertion_order 0
           Main.graph Main.B).
  - intros s. apply Permutation_refl.
  - exact main_graph_constructed.
  - discriminate.
Defined.

(** C7.  The search from a node to itself does not always return the
    single-node path.  [astar_search] resets [g], [h] and [f] of the start
    node and leaves its [parent] as it is.  On the program's own graph the
    search from [Station A] to [Station C] leaves [Station B] with parent
    [Station A]; [Station B] has no self-loop; the search from [Station B]
    to [Station B] on that graph then returns [A, B], whatever [haversine]
    returns, with [g = 0] at [Station B], while on the graph as first built
    it returns [B].  Any fuel from 3 on gives these results. *)
Theorem astar_search_start_is_goal_stale_parent :
  forall (haversine : Location -> Location -> Z) (k : nat),
    snd (astar_search Main.haversine Main.insertion_order (6 + k)
           Main.A Main.C Main.graph) = main_graph_after_first_search
    /\ nodes_get Main.B (Graph.nodes main_graph_after_first_search) <> None
    /\ edge_route main_graph_after_first_search Main.B Main.B = None
    /\ node_parent main_graph_after_first_search Main.B = Some Main.A
    /\ fst (astar_search haversine Main.insertion_order (3 + k)
              Main.B Main.B main_graph_after_first_search)
       = Found [Main.A; Main.B]
    /\ node_g (snd (astar_search haversine Main.insertion_order (3 + k)
                      Main.B Main.B main_graph_after_first_search)) Main.B
       = Fin 0
    /\ fst (astar_search haversine Main.insertion_order (3 + k)
              Main.B Main.B Main.graph) = Found [Main.B].
Proof.
  intros haversine k.
  split; [vm_compute; reflexivity|].
  split; [vm_compute; discriminate|].
  split; [vm_compute; reflexivity|].
  split; [vm_compute; reflexivity|].
  split; [destruct k; vm_compute; reflexivity|].
  split; [destruct k; vm_compute; reflexivity|].
  destruct k; vm_compute; reflexivity.
Qed.

(* ================================================================== *)
(** * The search on a cycle with an unreachable goal *)

(** [closed_set] is written by the loop and never read: a neighbour that
    has been expanded already is put back into [open_set].  On
    [Cycle.graph], searching from [A] for [C], the loop expands [A], [B],
    [A], [B], ... for ever.  [open_set] never holds more than one node
    there, so the order in which a set is iterated plays no part. *)

Section CycleRun.
Variable haversine : Location -> Location -> Z.

Lemma cycle_astar_unfold fuel :
  astar_search haversine Main.insertion_order fuel Cycle.A Cycle.C Cycle.graph
  = search_loop haversine Main.insertion_order fuel cycle_goal (cycle_s0 haversine).
Proof. reflexivity. Qed.

Lemma cycle_steps k :
  iteration haversine Main.insertion_order k cycle_goal (cycle_s0 haversine)
    = Continue (next_state haversine (cycle_s0 haversine))
  /\ iteration haversine Main.insertion_order k cycle_goal (next_state haversine (cycle_s0 haversine))
    = Continue (cycle_sA haversine)
  /\ iteration haversine Main.insertion_order k cycle_goal (cycle_sA haversine)
    = Continue (cycle_sB haversine)
  /\ iteration haversine Main.insertion_order k cycle_goal (cycle_sB haversine)
    = Continue (cycle_sA haversine).
Proof. vm_compute. repeat split. Qed.

Lemma cycle_loop_spins n :
  fst (search_loop haversine Main.insertion_order n cycle_goal (cycle_sA haversine)) = OutOfFuel
  /\ fst (search_loop haversine Main.insertion_order n cycle_goal (cycle_sB haversine)) = OutOfFuel.
Proof.
  induction n as [|n [IHa IHb]]; [split; reflexivity|].
  destruct (cycle_steps n) as (_ & _ & Ha & Hb).
  cbn [search_loop]. rewrite Ha, Hb. auto.
Qed.

Lemma cycle_search_never_returns fuel :
  fst (astar_search haversine Main.insertion_order fuel Cycle.A Cycle.C Cycle.graph)
  = OutOfFuel.
Proof.
  rewrite cycle_astar_unfold.
  destruct fuel as [|[|n]]; [reflexivity| |].
  - destruct (cycle_steps 0) as (H0 & _).
    cbn [search_loop]. rewrite H0. reflexivity.
  - destruct (cycle_steps (S n)) as (H0 & _).
    destruct (cycle_steps n) as (_ & H1 & _).
    cbn [search_loop]. rewrite H0. cbn [search_loop]. rewrite H1.
    apply cycle_loop_spins.
Qed.
End CycleRun.

Lemma cycle_edges u v r :
  edge_route Cycle.graph u v = Some r ->
  (u = Cycle.A /\ v = Cycle.B) \/ (u = Cycle.B /\ v = Cycle.A).
Proof.
  unfold Cycle.graph. rewrite !edge_route_add_edge.
  destruct (String.eqb u Cycle.B) eqn:E1; destruct (String.eqb v Cycle.A) eqn:E2;
    destruct (String.eqb u Cycle.A) eqn:E3; destruct (String.eqb v Cycle.B) eqn:E4;
    cbn [andb]; try discriminate;
    repeat match goal with H : String.eqb _ _ = true |- _ =>
             apply String.eqb_eq in H end; auto.
Qed.

Lemma cycle_paths_stay p :
  is_path Cycle.graph p = true ->
  (hd_error p = Some Cycle.A \/ hd_error p = Some Cycle.B) ->
  forall d, last p d = Cycle.A \/ last p d = Cycle.B.
Proof.
  induction p as [|u p IH]; intros Hp Hhd d.
  - destruct Hhd; discriminate.
  - destruct p as [|v p].
    + simpl in *. destruct Hhd as [[= ->]|[= ->]]; auto.
    + cbn [is_path] in Hp.
      destruct (edge_route Cycle.graph u v) as [r|] eqn:E; [|discriminate].
      change (last (u :: v :: p) d) with (last (v :: p) d).
      apply IH; [exact Hp|].
      destruct (cycle_edges _ _ _ E) as [[_ ->]|[_ ->]]; simpl; auto.
Qed.

(** C2.  On the three-node graph [Cycle.graph] (edges [A -> B] and
    [B -> A], node [C] without edges), whatever [haversine] returns,
    [astar_search(A, C, graph)] is still running after any number of
    iterations: no amount of fuel makes it return. *)
Theorem astar_search_cycle_does_not_terminate :
  forall (haversine : Location -> Location -> Z) (fuel : nat),
    constructed Cycle.graph
    /\ fst (astar_search haversine Main.insertion_order fuel
              Cycle.A Cycle.C Cycle.graph) = OutOfFuel.
Proof.
  intros haversine fuel. split.
  - exact cycle_graph_constructed.
  - apply cycle_search_never_returns.
Qed.

(** C3.  In the same search, whose loop starts in [cycle_s0], after two
    iterations [A] is a member of both [open_set] and [closed_set], and the
    third iteration takes [A], which is in [closed_set], as [current_node]
    again and goes on. *)
Theorem astar_search_expands_closed_node_again :
  forall (haversine : Location -> Location -> Z),
    (forall fuel,
       astar_search haversine Main.insertion_order fuel Cycle.A Cycle.C Cycle.graph
       = search_loop haversine Main.insertion_order fuel cycle_goal
           (cycle_s0 haversine))
    /\ state_after haversine Main.insertion_order 2 cycle_goal (cycle_s0 haversine)
      = Some (cycle_sA haversine)
    /\ open_set (cycle_sA haversine) = [Cycle.A]
    /\ closed_set (cycle_sA haversine) = [Cycle.A; Cycle.B]
    /\ py_min (node_f (st_graph (cycle_sA haversine)))
         (Main.insertion_order (open_set (cycle_sA haversine))) = Some Cycle.A
    /\ set_mem Cycle.A (closed_set (cycle_sA haversine)) = true
    /\ (forall k, iteration haversine Main.insertion_order k cycle_goal
                    (cycle_sA haversine) = Continue (cycle_sB haversine)).
Proof.
  intros haversine. repeat split.
Qed.

(** C6.  In [Cycle.graph] no directed path leads from [A] to [C], and
    [astar_search(A, C, graph)] does not return the no-path value: it does
    not return at all. *)
Theorem astar_search_unreachable_goal_no_answer :
  forall (haversine : Location -> Location -> Z) (fuel : nat),
    (forall p, path_from_to Cycle.graph Cycle.A Cycle.C p -> False)
    /\ fst (astar_search haversine Main.insertion_order fuel
              Cycle.A Cycle.C Cycle.graph) <> NotFound
    /\ fst (astar_search haversine Main.insertion_order fuel
              Cycle.A Cycle.C Cycle.graph) = OutOfFuel.
Proof.
  intros haversine fuel. split; [|split].
  - intros p (Hhd & Hlast & Hp).
    destruct (cycle_paths_stay p Hp (or_introl Hhd) Cycle.A) as [H|H];
      rewrite Hlast in H; discriminate.
  - rewrite cycle_search_never_returns. discriminate.
  - apply cycle_search_never_returns.
Qed.

(* ================================================================== *)
(** * Runs on the program's own data *)

Lemma main_graph_nonneg_costs : nonneg_costs Main.graph.
Proof.
  intros u v r. unfold Main.graph. rewrite !edge_route_add_edge.
  destruct (String.eqb u Main.A && String.eqb v Main.C); [intros [= <-]; simpl; lia|].
  destruct (String.eqb u Main.B && String.eqb v Main.C); [intros [= <-]; simpl; lia|].
  destruct (String.eqb u Main.A && String.eqb v Main.B); [intros [= <-]; simpl; lia|].
  discriminate.
Qed.

(** On the program's graph the search from [Station A] for [Station C]
    returns the direct flight under every heuristic that puts [Station C]
    ahead of [Station B] after the first expansion, that is, with
    300 + h(C, C) < 100 + h(B, C). *)
Lemma main_search_direct_flight_any_heuristic (haversine : Location -> Location -> Z) :
  300 + haversine Main.loc_C Main.loc_C < 100 + haversine Main.loc_B Main.loc_C ->
  fst (astar_search haversine Main.insertion_order 10 Main.A Main.C Main.graph)
  = Found [Main.A; Main.C].
Proof.
  intros H. unfold Main.loc_B, Main.loc_C in H.
  cbv -[Z.add Z.ltb].
  match goal with
  | |- context [?a <? ?b] =>
      replace (a <? b) with true by (symmetry; apply Z.ltb_lt; lia)
  end.
  reflexivity.
Qed.

(** With the program's own heuristic the search from [Station A] to
    [Station C] on the program's own graph returns the direct flight, of
    cost 300, although the path through [Station B] costs 250: the
    great-circle distance from [Station B] to the goal, 8756 km, is added
    to the cost 100 of reaching [Station B], and 300 + 0 is smaller.  The
    same happens with any heuristic that is 0 from [Station C] to itself
    and more than 200 from [Station B] to [Station C]. *)
Lemma astar_search_main_returns_direct_flight :
  constructed Main.graph
  /\ nonneg_costs Main.graph
  /\ fst (astar_search Main.haversine Main.insertion_order 10
            Main.A Main.C Main.graph) = Found [Main.A; Main.C]
  /\ path_cost Main.graph [Main.A; Main.C] = 300
  /\ path_from_to Main.graph Main.A Main.C [Main.A; Main.B; Main.C]
  /\ path_cost Main.graph [Main.A; Main.B; Main.C] = 250
  /\ (forall haversine : Location -> Location -> Z,
        haversine Main.loc_C Main.loc_C = 0 ->
        200 < haversine Main.loc_B Main.loc_C ->
        fst (astar_search haversine Main.insertion_order 10
               Main.A Main.C Main.graph) = Found [Main.A; Main.C]).
Proof.
  split; [exact main_graph_constructed|].
  split; [exact main_graph_nonneg_costs|].
  split; [vm_compute; reflexivity|].
  split; [reflexivity|].
  split; [repeat split|].
  split; [reflexivity|].
  intros haversine H0 H1.
  apply main_search_direct_flight_any_heuristic. lia.
Qed.

(** C4.  On the program's own graph and with its own heuristic: the search
    from [Station A] to [Station C] leaves [Station B] with [g = 100] and
    parent [Station A], and [Station C] with [g = 300] and parent
    [Station A]; a second search on the same graph, from [Station B] to
    [Station C], then returns [A, B, C], a path that does not start at
    [Station B], while the same search on the graph as first built returns
    [B, C].  Any fuel from 6 on gives these results. *)
Theorem astar_search_second_run_differs :
  forall k : nat,
    fst (astar_search Main.haversine Main.insertion_order (6 + k)
           Main.A Main.C Main.graph) = Found [Main.A; Main.C]
    /\ snd (astar_search Main.haversine Main.insertion_order (6 + k)
              Main.A Main.C Main.graph) = main_graph_after_first_search
    /\ node_g main_graph_after_first_search Main.B = Fin 100
    /\ node_parent main_graph_after_first_search Main.B = Some Main.A
    /\ node_g main_graph_after_first_search Main.C = Fin 300
    /\ node_parent main_graph_after_first_search Main.C = Some Main.A
    /\ fst (astar_search Main.haversine Main.insertion_order (6 + k)
              Main.B Main.C main_graph_after_first_search)
       = Found [Main.A; Main.B; Main.C]
    /\ fst (astar_search Main.haversine Main.insertion_order (6 + k)
              Main.B Main.C Main.graph) = Found [Main.B; Main.C].
Proof. intros k. vm_compute. repeat split. Qed.

(** C9.  [plan_trip] passes an empty edge sequence to
    [collect_route_details].  With a single station, whatever [haversine]
    returns, its one candidate has no edge and [total_transfers = -1]; on
    the data of the program's [__main__] block the second of the six
    candidates is that one (the pair [Station A], [Station A]). *)
Theorem plan_trip_yields_zero_edge_trip :
  (forall (haversine : Location -> Location -> Z)
          (home_location hotel_location : Location) (k : nat),
     fst (plan_trip haversine Main.insertion_order (3 + k)
            home_location hotel_location
            (Graph.nodes one_station_graph) one_station_graph)
     = Trips [mk_candidate 0 0 (-1) 0 []])
  /\ (exists detailed_routes,
        fst (plan_trip Main.haversine Main.insertion_order 10
               Main.home_location Main.hotel_location
               (Graph.nodes Main.graph) Main.graph) = Trips detailed_routes
        /\ map total_transfers detailed_routes = [0; -1; 0; 1; 0; 1]
        /\ map total_cost detailed_routes = [300; 0; 100; 250; 100; 250]
        /\ nth_error detailed_routes 1 = Some (mk_candidate 0 0 (-1) 0 [])).
Proof.
  split.
  - intros haversine home_location hotel_location k. vm_compute. reflexivity.
  - eexists. split; [vm_compute; reflexivity|]. repeat split.
Qed.

(* ================================================================== *)
(** * Order on [num], [min], sets *)

Lemma num_ltb_false a b : num_ltb b a = false <-> num_le a b.
Proof.
  destruct a as [x|], b as [y|]; simpl; try tauto.
  - rewrite Z.ltb_ge. tauto.
  - split; [discriminate|tauto].
Qed.

Lemma num_ltb_true a b : num_ltb a b = true -> num_le a b.
Proof.
  destruct a as [x|], b as [y|]; simpl; try tauto; try discriminate.
  rewrite Z.ltb_lt. lia.
Qed.

Lemma num_le_refl a : num_le a a.
Proof. destruct a; simpl; [lia|exact I]. Qed.

Lemma num_le_trans a b c : num_le a b -> num_le b c -> num_le a c.
Proof. destruct a, b, c; simpl; try tauto; lia. Qed.

Lemma min_from_spec key best l :
  (min_from key best l = best \/ In (min_from key best l) l)
  /\ num_le (key (min_from key best l)) (key best)
  /\ (forall y, In y l -> num_le (key (min_from key best l)) (key y)).
Proof.
  induction l as [|x l IH] in best |- *; cbn [min_from].
  - split; [now left|]. split; [apply num_le_refl|intros y []].
  - set (best' := if num_ltb (key x) (key best) then x else best).
    destruct (IH best') as (Hin & Hle & Hall).
    assert (Hb : num_le (key best') (key best) /\ num_le (key best') (key x)).
    { subst best'. destruct (num_ltb (key x) (key best)) eqn:E.
      - split; [now apply num_ltb_true|apply num_le_refl].
      - split; [apply num_le_refl|now apply num_ltb_false]. }
    destruct Hb as [Hb1 Hb2]. split; [|split].
    + destruct Hin as [Hin|Hin]; [|right; now right].
      rewrite Hin. subst best'.
      destruct (num_ltb (key x) (key best)); [right; now left|now left].
    + eapply num_le_trans; eassumption.
    + intros y [<-|Hy]; [eapply num_le_trans; eassumption|now apply Hall].
Qed.

(** [min] returns a member with the smallest key. *)
Lemma py_min_spec key l m :
  py_min key l = Some m ->
  In m l /\ forall y, In y l -> num_le (key m) (key y).
Proof.
  destruct l as [|x l]; [discriminate|]. intros [= <-].
  destruct (min_from_spec key x l) as (Hin & Hle & Hall). split.
  - destruct Hin as [->|Hin]; [now left|now right].
  - intros y [<-|Hy]; [exact Hle|now apply Hall].
Qed.

Lemma set_mem_In x s : set_mem x s = true <-> In x s.
Proof.
  unfold set_mem. rewrite existsb_exists. split.
  - intros (y & Hy & E). apply String.eqb_eq in E. now subst.
  - intros H. exists x. split; [exact H|apply String.eqb_refl].
Qed.

Lemma set_add_In x s v : In v (set_add x s) <-> v = x \/ In v s.
Proof.
  unfold set_add. destruct (set_mem x s) eqn:E.
  - apply set_mem_In in E. split; [now right|]. intros [->|H]; assumption.
  - rewrite in_app_iff. simpl. intuition.
Qed.

Lemma set_remove_In x s v : In v (set_remove x s) <-> In v s /\ v <> x.
Proof.
  unfold set_remove. rewrite filter_In.
  destruct (String.eqb v x) eqn:E; simpl.
  - apply String.eqb_eq in E. intuition congruence.
  - apply String.eqb_neq in E. intuition.
Qed.

(* ================================================================== *)
(** * Paths *)

Lemma path_cost_app G q1 v q2 :
  path_cost G (q1 ++ v :: q2) = path_cost G (q1 ++ [v]) + path_cost G (v :: q2).
Proof.
  induction q1 as [|u q1 IH]; [simpl; lia|].
  destruct q1 as [|u' q1].
  - simpl. destruct q2; lia.
  - change ((u :: u' :: q1) ++ v :: q2) with (u :: (u' :: q1) ++ v :: q2).
    change ((u :: u' :: q1) ++ [v]) with (u :: (u' :: q1) ++ [v]).
    change (path_cost G (u :: (u' :: q1) ++ v :: q2))
      with (match edge_route G u u' with
            | Some r => TransportRoute.base_cost r
            | None => 0
            end + path_cost G ((u' :: q1) ++ v :: q2)).
    change (path_cost G (u :: (u' :: q1) ++ [v]))
      with (match edge_route G u u' with
            | Some r => TransportRoute.base_cost r
            | None => 0
            end + path_cost G ((u' :: q1) ++ [v])).
    rewrite IH. lia.
Qed.

Lemma is_path_app G q1 v q2 :
  is_path G (q1 ++ v :: q2) = true ->
  is_path G (q1 ++ [v]) = true /\ is_path G (v :: q2) = true.
Proof.
  induction q1 as [|u q1 IH]; [simpl; auto|].
  destruct q1 as [|u' q1].
  - simpl. destruct (edge_route G u v); [auto|discriminate].
  - change ((u :: u' :: q1) ++ v :: q2) with (u :: (u' :: q1) ++ v :: q2).
    change ((u :: u' :: q1) ++ [v]) with (u :: (u' :: q1) ++ [v]).
    change (is_path G (u :: (u' :: q1) ++ v :: q2))
      with (match edge_route G u u' with
            | Some _ => is_path G ((u' :: q1) ++ v :: q2)
            | None => false
            end).
    change (is_path G (u :: (u' :: q1) ++ [v]))
      with (match edge_route G u u' with
            | Some _ => is_path G ((u' :: q1) ++ [v])
            | None => false
            end).
    destruct (edge_route G u u'); [exact IH|discriminate].
Qed.

Lemma is_path_snoc G q v w :
  is_path G (q ++ [v]) = true -> edge_route G v w <> None ->
  is_path G ((q ++ [v]) ++ [w]) = true.
Proof.
  intros Hq Hvw. induction q as [|u q IH].
  - simpl. destruct (edge_route G v w); [reflexivity|congruence].
  - destruct q as [|u' q].
    + simpl in *. destruct (edge_route G u v); [|discriminate].
      destruct (edge_route G v w); [reflexivity|congruence].
    + change (((u :: u' :: q) ++ [v]) ++ [w]) with (u :: ((u' :: q) ++ [v]) ++ [w]).
      change ((u :: u' :: q) ++ [v]) with (u :: (u' :: q) ++ [v]) in Hq.
      change (is_path G (u :: (u' :: q) ++ [v]))
        with (match edge_route G u u' with
              | Some _ => is_path G ((u' :: q) ++ [v])
              | None => false
              end) in Hq.
      change (is_path G (u :: ((u' :: q) ++ [v]) ++ [w]))
        with (match edge_route G u u' with
              | Some _ => is_path G (((u' :: q) ++ [v]) ++ [w])
              | None => false
              end).
      destruct (edge_route G u u'); [now apply IH|discriminate].
Qed.

Lemma path_cost_nonneg G q : nonneg_costs G -> 0 <= path_cost G q.
Proof.
  intros Hc. induction q as [|u q IH]; [simpl; lia|].
  destruct q as [|v q]; [simpl; lia|].
  change (path_cost G (u :: v :: q))
    with (match edge_route G u v with
          | Some r => TransportRoute.base_cost r
          | None => 0
          end + path_cost G (v :: q)).
  destruct (edge_route G u v) as [r|] eqn:E; [apply Hc in E|]; lia.
Qed.

Lemma path_cost_snoc G q v w r :
  edge_route G v w = Some r ->
  path_cost G ((q ++ [v]) ++ [w]) = path_cost G (q ++ [v]) + TransportRoute.base_cost r.
Proof.
  intros E. rewrite <- app_assoc. cbn [app]. rewrite path_cost_app.
  simpl. rewrite E. lia.
Qed.

Lemma hd_error_snoc {A} (q : list A) v w :
  hd_error ((q ++ [v]) ++ [w]) = hd_error (q ++ [v]).
Proof. destruct q; reflexivity. Qed.

(* ================================================================== *)
(** * The search with a zero heuristic *)

Lemma nodes_get_put n ns k :
  nodes_get k (nodes_put n ns)
  = if String.eqb k (Node.name n) then Some n else nodes_get k ns.
Proof.
  destruct (String.eqb k (Node.name n)) eqn:E.
  - apply String.eqb_eq in E. subst k. apply nodes_get_put_same.
  - apply String.eqb_neq in E. now apply nodes_get_put_other.
Qed.

Lemma get_route_spec a b G r G1 :
  Graph.get_route a b G = (Some r, G1) ->
  G1 = G /\ edge_route G (Node.name a) (Node.name b) = Some r.
Proof.
  unfold Graph.get_route, edge_route.
  destruct (dict_get (Node.name a) (Graph.edges G)); intros [= E <-]; auto.
Qed.

Lemma get_neighbors_spec node G nbs G1 :
  Graph.get_neighbors node G = (nbs, G1) ->
  Graph.nodes G1 = Graph.nodes G
  /\ (forall u v, edge_route G1 u v = edge_route G u v)
  /\ (forall w r, edge_route G (Node.name node) w = Some r -> In w nbs).
Proof.
  unfold Graph.get_neighbors, edge_route.
  destruct (dict_get (Node.name node) (Graph.edges G)) as [d|] eqn:E;
    intros [= <- <-]; cbn [Graph.nodes Graph.edges].
  - repeat split; auto. intros w r. apply dict_get_in_keys.
  - repeat split; auto; [|discriminate].
    intros u v. destruct (String.eqb u (Node.name node)) eqn:Eu.
    + apply String.eqb_eq in Eu. subst u. rewrite dict_get_set_same, E. reflexivity.
    + apply String.eqb_neq in Eu. now rewrite dict_get_set_other.
Qed.

Section ZeroHeuristic.
Variable haversine : Location -> Location -> Z.
Variable set_iter : list string -> list string.
Variable G0 : Graph.t.
Variables start goal : string.
Hypothesis Hperm : forall s, Permutation (set_iter s) s.
Hypothesis Hzero : forall a b, haversine a b = 0.
Hypothesis Hcost : nonneg_costs G0.

Lemma g_decreases_refl G : g_decreases G G.
Proof. intros u x H. exists x. split; [exact H|lia]. Qed.

Lemma g_decreases_trans G1 G2 G3 :
  g_decreases G1 G2 -> g_decreases G2 G3 -> g_decreases G1 G3.
Proof.
  intros H12 H23 u x H. destruct (H12 u x H) as (x' & H' & Hle).
  destruct (H23 u x' H') as (x'' & H'' & Hle'). exists x''. split; [exact H''|lia].
Qed.

Lemma node_g_improve goal_node cur t nbn G u :
  node_g (improve haversine goal_node cur t nbn G) u
  = if String.eqb u (Node.name nbn) then t else node_g G u.
Proof.
  unfold node_g, improve. cbn [Graph.nodes]. rewrite nodes_get_put.
  cbn [Node.name]. now destruct (String.eqb u (Node.name nbn)).
Qed.

Lemma node_g_get G u x :
  node_g G u = Fin x ->
  exists n, nodes_get u (Graph.nodes G) = Some n /\ Node.g n = Fin x.
Proof.
  unfold node_g. destruct (nodes_get u (Graph.nodes G)) as [n|]; [|discriminate].
  intros H. now exists n.
Qed.

(** One improvement of a neighbour keeps the tree. *)
Lemma improve_spec goal_node G cur nb nbn xc r :
  same_edges G0 G -> tree_inv G0 start G ->
  nodes_get nb (Graph.nodes G) = Some nbn ->
  node_g G cur = Fin xc ->
  edge_route G0 cur nb = Some r ->
  num_ltb (Fin (xc + TransportRoute.base_cost r)) (Node.g nbn) = true ->
  same_edges G0 (improve haversine goal_node cur (Fin (xc + TransportRoute.base_cost r)) nbn G)
  /\ tree_inv G0 start (improve haversine goal_node cur (Fin (xc + TransportRoute.base_cost r)) nbn G)
  /\ node_g (improve haversine goal_node cur (Fin (xc + TransportRoute.base_cost r)) nbn G) cur
     = Fin xc
  /\ g_decreases G (improve haversine goal_node cur (Fin (xc + TransportRoute.base_cost r)) nbn G)
  /\ node_g (improve haversine goal_node cur (Fin (xc + TransportRoute.base_cost r)) nbn G) nb
     = Fin (xc + TransportRoute.base_cost r).
Proof.
  intros Hedges [[Hs Hsp] Htree] Enb Hcur Hr Hlt.
  pose proof (nodes_get_name _ _ _ Enb) as Hname.
  pose proof (Hcost _ _ _ Hr) as Hc.
  set (c := TransportRoute.base_cost r) in *.
  destruct (node_g_get _ _ _ Hcur) as (cn & Ecur & Hgc).
  destruct (Htree _ _ Ecur) as (_ & Hcn). destruct (Hcn _ Hgc) as (Hxc & _).
  assert (Hold : forall y, node_g G nb = Fin y -> xc + c < y).
  { intros y Hy. unfold node_g in Hy. rewrite Enb in Hy. rewrite Hy in Hlt.
    simpl in Hlt. now apply Z.ltb_lt in Hlt. }
  assert (Hnc : nb <> cur).
  { intros ->. specialize (Hold _ Hcur). lia. }
  assert (Hns : nb <> start).
  { intros ->. specialize (Hold _ Hs). lia. }
  set (G2 := improve haversine goal_node cur (Fin (xc + c)) nbn G).
  assert (Hg2 : forall u, node_g G2 u = if String.eqb u nb then Fin (xc + c) else node_g G u).
  { intros u. subst G2. rewrite node_g_improve. now rewrite Hname. }
  assert (Hmono : g_decreases G G2).
  { intros u x Hu. rewrite Hg2. destruct (String.eqb u nb) eqn:E.
    - apply String.eqb_eq in E. subst u. exists (xc + c). split; [reflexivity|].
      specialize (Hold _ Hu). lia.
    - exists x. split; [exact Hu|lia]. }
  split; [exact Hedges|]. split; [|split; [|split; [exact Hmono|]]].
  - split.
    + split.
      * rewrite Hg2. apply not_eq_sym in Hns. apply String.eqb_neq in Hns.
        now rewrite Hns.
      * unfold node_parent, G2, improve. cbn [Graph.nodes]. rewrite nodes_get_put.
        cbn [Node.name]. rewrite Hname.
        apply not_eq_sym in Hns. apply String.eqb_neq in Hns. rewrite Hns.
        exact Hsp.
    + intros u n Hu. unfold G2, improve in Hu. cbn [Graph.nodes] in Hu.
      rewrite nodes_get_put in Hu. cbn [Node.name] in Hu. rewrite Hname in Hu.
      destruct (String.eqb u nb) eqn:E.
      * apply String.eqb_eq in E. subst u. injection Hu as <-.
        cbn [Node.f Node.g Node.parent]. unfold heuristic. rewrite Hzero.
        split; [simpl; f_equal; lia|].
        intros x [= <-]. split; [lia|]. intros _.
        exists cur, xc, r. repeat split; auto; try lia.
        rewrite Hg2. apply not_eq_sym in Hnc. apply String.eqb_neq in Hnc.
        now rewrite Hnc.
      * destruct (Htree _ _ Hu) as (Hf & Hx). split; [exact Hf|].
        intros x Hgx. destruct (Hx _ Hgx) as (Hx0 & Hpar). split; [exact Hx0|].
        intros Hus. destruct (Hpar Hus) as (p & y & r' & Hp & Hgp & Hr' & Hle).
        destruct (Hmono _ _ Hgp) as (y' & Hgp' & Hle').
        exists p, y', r'. repeat split; auto. lia.
  - rewrite Hg2. apply not_eq_sym in Hnc. apply String.eqb_neq in Hnc.
    now rewrite Hnc.
  - rewrite Hg2. now rewrite String.eqb_refl.
Qed.

(** The [for] loop over the neighbours of [cur] keeps the tree, never
    raises [g], keeps the members of [open_set], and leaves every neighbour
    in [open_set] with a [g] of at most [cur.g] plus the cost of the edge. *)
Lemma expand_spec goal_node cur nbs :
  forall G open G' open' xc,
    expand haversine goal_node cur nbs G open = (None, G', open') ->
    same_edges G0 G -> tree_inv G0 start G -> node_g G cur = Fin xc ->
    same_edges G0 G' /\ tree_inv G0 start G' /\ node_g G' cur = Fin xc /\ g_decreases G G'
    /\ (forall v, In v open -> In v open')
    /\ (forall v, In v open' -> In v open \/ In v nbs)
    /\ (forall nb, In nb nbs ->
          exists y r, edge_route G0 cur nb = Some r /\ node_g G' nb = Fin y
                      /\ y <= xc + TransportRoute.base_cost r /\ In nb open').
Proof.
  induction nbs as [|nb rest IH]; intros G open G' open' xc Hex Hedges Htree Hcur.
  - cbn in Hex. injection Hex as <- <-.
    split; [exact Hedges|]. split; [exact Htree|]. split; [exact Hcur|].
    split; [apply g_decreases_refl|]. split; [auto|]. split; [auto|].
    intros nb [].
  - cbn [expand] in Hex.
    destruct (nodes_get nb (Graph.nodes G)) as [nbn|] eqn:Enb; [|discriminate].
    destruct (node_g_get _ _ _ Hcur) as (cn & Ecur & Hgc). rewrite Ecur in Hex.
    destruct (Graph.get_route cn nbn G) as [[r|] G1] eqn:Er; [|discriminate].
    apply get_route_spec in Er. destruct Er as [-> Hr].
    rewrite (nodes_get_name _ _ _ Ecur), (nodes_get_name _ _ _ Enb), Hedges in Hr.
    cbv zeta in Hex. unfold TransportRoute.calculate_total_cost in Hex.
    rewrite Hgc in Hex. cbn [num_add] in Hex.
    set (c := TransportRoute.base_cost r) in *.
    set (G2 := if num_ltb (Fin (xc + c)) (Node.g nbn)
               then improve haversine goal_node cur (Fin (xc + c)) nbn G
               else G) in Hex.
    assert (Hstep : same_edges G0 G2 /\ tree_inv G0 start G2 /\ node_g G2 cur = Fin xc
                    /\ g_decreases G G2
                    /\ exists y, node_g G2 nb = Fin y /\ y <= xc + c).
    { subst G2. destruct (num_ltb (Fin (xc + c)) (Node.g nbn)) eqn:Elt.
      - destruct (improve_spec goal_node G cur nb nbn xc r Hedges Htree Enb Hcur Hr Elt)
          as (H1 & H2 & H3 & H4 & H5).
        split; [exact H1|]. split; [exact H2|]. split; [exact H3|].
        split; [exact H4|]. exists (xc + c). split; [exact H5|lia].
      - split; [exact Hedges|]. split; [exact Htree|]. split; [exact Hcur|].
        split; [apply g_decreases_refl|].
        unfold node_g. rewrite Enb. destruct (Node.g nbn) as [y|]; [|discriminate].
        simpl in Elt. apply Z.ltb_ge in Elt. exists y. split; [reflexivity|lia]. }
    destruct Hstep as (Hedges2 & Htree2 & Hcur2 & Hmono2 & y & Hy & Hyle).
    destruct (IH _ _ _ _ _ Hex Hedges2 Htree2 Hcur2)
      as (He & Ht & Hc & Hm & Hsub & Hsup & Hnbs).
    split; [exact He|]. split; [exact Ht|]. split; [exact Hc|].
    split; [eapply g_decreases_trans; eassumption|].
    split; [|split].
    + intros v Hv. apply Hsub. apply set_add_In. now right.
    + intros v Hv. destruct (Hsup v Hv) as [H|H].
      * apply set_add_In in H. destruct H as [->|H]; [right; now left|now left].
      * right. now right.
    + intros nb' [<-|Hin]; [|now apply Hnbs].
      destruct (Hm _ _ Hy) as (y' & Hy' & Hle').
      exists y', r. repeat split; auto; [lia|].
      apply Hsub. apply set_add_In. now left.
Qed.

Lemma tree_inv_same_nodes G G1 :
  Graph.nodes G1 = Graph.nodes G -> tree_inv G0 start G -> tree_inv G0 start G1.
Proof.
  unfold tree_inv, node_g, node_parent. intros ->. auto.
Qed.

(** An iteration that goes on keeps the invariant. *)
Lemma iteration_inv fuel goal_node s s' :
  Node.name goal_node = goal -> search_inv G0 start goal s ->
  iteration haversine set_iter fuel goal_node s = Continue s' ->
  search_inv G0 start goal s'.
Proof.
  intros Hgoal (Hedges & Htree & Hfin & Hfront). unfold iteration.
  destruct (py_min (node_f (st_graph s)) (set_iter (open_set s))) as [cur|] eqn:Emin;
    [|discriminate].
  apply py_min_spec in Emin. destruct Emin as [Hin _].
  apply (Permutation_in _ (Hperm _)) in Hin.
  rewrite Hgoal. destruct (String.eqb cur goal) eqn:Eg; [discriminate|].
  apply String.eqb_neq in Eg.
  destruct (nodes_get cur (Graph.nodes (st_graph s))) as [cn|] eqn:Ecur; [|discriminate].
  destruct (Graph.get_neighbors cn (st_graph s)) as [nbs G1] eqn:En.
  destruct (expand haversine goal_node cur nbs G1 (set_remove cur (open_set s)))
    as [[[k|] G2] open2] eqn:Ex; [discriminate|].
  intros [= <-]. cbn [st_graph open_set closed_set] in *.
  destruct (get_neighbors_spec _ _ _ _ En) as (Hn1 & He1 & Hnb1).
  rewrite (nodes_get_name _ _ _ Ecur) in Hnb1.
  destruct (Hfin _ Hin) as (xc & Hxc).
  assert (Hg1 : forall u, node_g G1 u = node_g (st_graph s) u).
  { intros u. unfold node_g. now rewrite Hn1. }
  assert (Hedges1 : same_edges G0 G1).
  { intros u v. now rewrite He1. }
  assert (Hcur1 : node_g G1 cur = Fin xc) by now rewrite Hg1.
  destruct (expand_spec _ _ _ _ _ _ _ _ Ex Hedges1
              (tree_inv_same_nodes _ _ Hn1 Htree) Hcur1)
    as (He & Ht & Hc & Hm & Hsub & Hsup & Hnbs).
  split; [exact He|]. split; [exact Ht|]. split.
  - intros v Hv. destruct (Hsup v Hv) as [H|H].
    + apply set_remove_In in H. destruct H as [H _].
      destruct (Hfin _ H) as (x & Hx). rewrite <- Hg1 in Hx.
      destruct (Hm _ _ Hx) as (x' & Hx' & _). now exists x'.
    + destruct (Hnbs _ H) as (y & r & _ & Hy & _). now exists y.
  - intros q Hq. destruct (Hfront q Hq) as (q1 & v & q2 & x & -> & Hv & Hgv & Hle).
    destruct (string_dec v cur) as [->|Hne].
    + destruct Hq as (Hhd & Hlast & Hpath).
      destruct q2 as [|w q3].
      { rewrite last_last in Hlast. congruence. }
      destruct (is_path_app _ _ _ _ Hpath) as [_ Hp2].
      cbn [is_path] in Hp2.
      destruct (edge_route G0 cur w) as [r|] eqn:Er; [|discriminate].
      assert (Hw : In w nbs).
      { apply (Hnb1 w r). now rewrite Hedges. }
      destruct (Hnbs _ Hw) as (y & r' & Er' & Hy & Hyle & Hopen).
      rewrite Er in Er'. injection Er' as <-.
      exists (q1 ++ [cur]), w, q3, y. split; [now rewrite <- app_assoc|].
      split; [exact Hopen|]. split; [exact Hy|].
      rewrite (path_cost_snoc _ _ _ _ _ Er).
      rewrite Hxc in Hgv. injection Hgv as <-. lia.
    + rewrite <- Hg1 in Hgv. destruct (Hm _ _ Hgv) as (x' & Hx' & Hle').
      exists q1, v, q2, x'. split; [reflexivity|].
      split; [apply Hsub, set_remove_In; now split|].
      split; [exact Hx'|lia].
Qed.

(** Following the parents from a node with a finite [g] ends at [start];
    read backwards, the nodes met form a path from [start] that costs at
    most that [g]. *)
Lemma reconstruct_loop_spec G :
  tree_inv G0 start G ->
  forall fuel u x acc l,
    node_g G u = Fin x ->
    reconstruct_loop fuel G (Some u) acc = Some l ->
    exists c, l = acc ++ c /\ path_from_to G0 start u (rev c)
              /\ path_cost G0 (rev c) <= x.
Proof.
  intros [[Hs Hsp] Htree]. induction fuel as [|fuel IH]; intros u x acc l Hu Hl.
  - discriminate.
  - cbn [reconstruct_loop] in Hl.
    destruct (node_g_get _ _ _ Hu) as (n & En & Hg). rewrite En in Hl.
    destruct (Htree _ _ En) as (_ & Hx). destruct (Hx _ Hg) as (Hx0 & Hpar).
    destruct (string_dec u start) as [->|Hne].
    + unfold node_parent in Hsp. rewrite En in Hsp. rewrite Hsp in Hl.
      assert (Hl' : l = acc ++ [start]) by (destruct fuel; injection Hl as <-; reflexivity).
      exists [start]. split; [exact Hl'|]. split; [|simpl; lia].
      repeat split.
    + destruct (Hpar Hne) as (p & y & r & Hp & Hgp & Hr & Hle).
      rewrite Hp in Hl.
      destruct (IH _ _ _ _ Hgp Hl) as (c & -> & (Hhd & Hlast & Hpath) & Hcost').
      exists (u :: c). split; [now rewrite <- app_assoc|].
      cbn [rev].
      destruct (rev c) as [|z P] eqn:Erev using rev_ind; [discriminate|].
      clear IHP. rewrite last_last in Hlast. subst z.
      split; [|rewrite (path_cost_snoc _ _ _ _ _ Hr); lia].
      split; [now rewrite hd_error_snoc|]. split; [apply last_last|].
      apply is_path_snoc; [exact Hpath|congruence].
Qed.

(** An iteration that returns a path returns a cheapest one. *)
Lemma iteration_found fuel goal_node s p G' :
  Node.name goal_node = goal -> search_inv G0 start goal s ->
  iteration haversine set_iter fuel goal_node s = Return (Found p) G' ->
  path_from_to G0 start goal p
  /\ forall q, path_from_to G0 start goal q -> path_cost G0 p <= path_cost G0 q.
Proof.
  intros Hgoal (Hedges & Htree & Hfin & Hfront). unfold iteration.
  destruct (py_min (node_f (st_graph s)) (set_iter (open_set s))) as [cur|] eqn:Emin;
    [|discriminate].
  apply py_min_spec in Emin. destruct Emin as [Hin Hmin].
  apply (Permutation_in _ (Hperm _)) in Hin.
  rewrite Hgoal. destruct (String.eqb cur goal) eqn:Eg.
  - apply String.eqb_eq in Eg. subst cur. intros [= Hrec _].
    unfold reconstruct_path in Hrec.
    destruct (reconstruct_loop fuel (st_graph s) (Some goal) []) as [l|] eqn:El;
      [|discriminate].
    injection Hrec as <-.
    destruct (Hfin _ Hin) as (x & Hx).
    destruct (reconstruct_loop_spec _ Htree _ _ _ _ _ Hx El) as (c & -> & Hpath & Hle).
    cbn [app]. split; [exact Hpath|].
    intros q Hq. destruct (Hfront q Hq) as (q1 & v & q2 & xv & -> & Hv & Hgv & Hlev).
    assert (Hf : forall u z, node_g (st_graph s) u = Fin z -> node_f (st_graph s) u = Fin z).
    { intros u z Hz. destruct (node_g_get _ _ _ Hz) as (n & En & Hgn).
      unfold node_f. rewrite En. destruct Htree as [_ Ht].
      destruct (Ht _ _ En) as (Hfg & _). congruence. }
    assert (Hxv : x <= xv).
    { apply (Permutation_in _ (Permutation_sym (Hperm _))) in Hv.
      specialize (Hmin _ Hv). rewrite (Hf _ _ Hx), (Hf _ _ Hgv) in Hmin.
      exact Hmin. }
    rewrite path_cost_app.
    pose proof (path_cost_nonneg G0 (v :: q2) Hcost). lia.
  - destruct (nodes_get cur (Graph.nodes (st_graph s))); [|discriminate].
    destruct (Graph.get_neighbors _ (st_graph s)) as [nbs G1].
    destruct (expand haversine goal_node cur nbs G1 _) as [[[k|] G2] open2];
      discriminate.
Qed.

Lemma search_loop_found goal_node :
  Node.name goal_node = goal ->
  forall fuel s p G',
    search_inv G0 start goal s ->
    search_loop haversine set_iter fuel goal_node s = (Found p, G') ->
    path_from_to G0 start goal p
    /\ forall q, path_from_to G0 start goal q -> path_cost G0 p <= path_cost G0 q.
Proof.
  intros Hgoal. induction fuel as [|fuel IH]; intros s p G' Hinv Hrun.
  - discriminate.
  - cbn [search_loop] in Hrun.
    destruct (iteration haversine set_iter fuel goal_node s) as [o G|s'] eqn:Eit.
    + injection Hrun as -> ->. eapply iteration_found; eassumption.
    + eapply IH; [|exact Hrun]. eapply iteration_inv; eassumption.
Qed.

(** The invariant holds when the loop is entered on a graph whose scratch
    fields are fresh. *)
Lemma initial_inv start_node goal_node :
  fresh_scratch G0 ->
  nodes_get start (Graph.nodes G0) = Some start_node ->
  search_inv G0 start goal (initial_state haversine start_node goal_node G0).
Proof.
  intros Hfresh Es.
  pose proof (nodes_get_name _ _ _ Es) as Hname.
  destruct (Hfresh _ (nodes_get_in _ _ _ Es)) as (_ & _ & Hpar).
  unfold initial_state, search_inv. cbn [st_graph open_set].
  unfold heuristic. rewrite Hzero, Hname, Hpar. cbn [num_add Z.add].
  set (sn := Node.mk start _ _ _ _ _).
  assert (Hget : forall u, nodes_get u (nodes_put sn (Graph.nodes G0))
                           = if String.eqb u start then Some sn
                             else nodes_get u (Graph.nodes G0)).
  { intros u. now rewrite nodes_get_put. }
  assert (Hgs : node_g (Graph.mk (nodes_put sn (Graph.nodes G0)) (Graph.edges G0)) start
                = Fin 0).
  { unfold node_g. cbn [Graph.nodes]. now rewrite Hget, String.eqb_refl. }
  split; [intros u v; reflexivity|]. split; [|split].
  - split.
    + split; [exact Hgs|].
      unfold node_parent. cbn [Graph.nodes]. now rewrite Hget, String.eqb_refl.
    + intros u n Hu. cbn [Graph.nodes] in Hu. rewrite Hget in Hu.
      destruct (String.eqb u start) eqn:E.
      * apply String.eqb_eq in E. subst u. injection Hu as <-.
        split; [reflexivity|]. intros x [= <-]. split; [lia|congruence].
      * destruct (Hfresh _ (nodes_get_in _ _ _ Hu)) as (Hg & Hf & _).
        split; [congruence|]. intros x Hx. congruence.
  - intros v [<-|[]]. now exists 0.
  - intros q (Hhd & _ & _). destruct q as [|v q2]; [discriminate|].
    injection Hhd as ->. exists [], start, q2, 0.
    split; [reflexivity|]. split; [now left|]. split; [exact Hgs|].
    cbn [app path_cost]. lia.
Qed.

(** With a zero heuristic, on a graph with fresh scratch fields and
    non-negative costs, a path that [astar_search] returns leads from
    [start] to [goal] and no path from [start] to [goal] is cheaper. *)
Lemma astar_search_found_optimal fuel p G' :
  fresh_scratch G0 ->
  astar_search haversine set_iter fuel start goal G0 = (Found p, G') ->
  path_from_to G0 start goal p
  /\ forall q, path_from_to G0 start goal q -> path_cost G0 p <= path_cost G0 q.
Proof.
  intros Hfresh. unfold astar_search.
  destruct (nodes_get start (Graph.nodes G0)) as [sn|] eqn:Es; [|discriminate].
  destruct (nodes_get goal (Graph.nodes G0)) as [gn|] eqn:Eg; [|discriminate].
  apply search_loop_found.
  - exact (nodes_get_name _ _ _ Eg).
  - now apply initial_inv.
Qed.
End ZeroHeuristic.

(* ================================================================== *)
(** * The program's graph searched with a zero heuristic *)

Section MainZeroRun.
Variable set_iter : list string -> list string.
Hypothesis Hperm : forall s, Permutation (set_iter s) s.

Lemma main_iteration_1 k :
  iteration Main.zero_heuristic set_iter k main_goal main_s0 = Continue main_s1.
Proof.
  unfold iteration. change (open_set main_s0) with [Main.A].
  rewrite (set_iter_singleton set_iter _ Hperm). vm_compute. reflexivity.
Qed.

(** [open_set] is then {B, C} with [f] 100 and 300: in either order of
    iteration [min] returns B. *)
Lemma main_iteration_2 k :
  iteration Main.zero_heuristic set_iter k main_goal main_s1 = Continue main_s2.
Proof.
  unfold iteration. change (open_set main_s1) with [Main.B; Main.C].
  destruct (Permutation_length_2_inv (Permutation_sym (Hperm [Main.B; Main.C])))
    as [E|E]; rewrite E; vm_compute; reflexivity.
Qed.

Lemma main_iteration_3 k :
  iteration Main.zero_heuristic set_iter (3 + k) main_goal main_s2
  = Return (Found [Main.A; Main.B; Main.C]) (st_graph main_s2).
Proof.
  unfold iteration. change (open_set main_s2) with [Main.C].
  rewrite (set_iter_singleton set_iter _ Hperm).
  destruct k; vm_compute; reflexivity.
Qed.

Lemma main_zero_run k :
  fst (astar_search Main.zero_heuristic set_iter (6 + k) Main.A Main.C Main.graph)
  = Found [Main.A; Main.B; Main.C].
Proof.
  change (astar_search Main.zero_heuristic set_iter (6 + k) Main.A Main.C Main.graph)
    with (search_loop Main.zero_heuristic set_iter (S (S (S (3 + k)))) main_goal main_s0).
  cbn [search_loop].
  rewrite main_iteration_1, main_iteration_2, main_iteration_3. reflexivity.
Qed.
End MainZeroRun.

(** C1, amended.  With a zero heuristic ([haversine] returning 0, the
    specification's Dijkstra mode), in whatever order sets are iterated:
    for every graph built by [add_node] and [add_edge] with non-negative
    edge costs, when [astar_search(start, goal, graph)] returns a node
    sequence, that sequence is a directed path from [start] to [goal] whose
    total [base_cost] is the minimum over all directed paths from [start]
    to [goal]; and on the program's three-node graph the search from
    [Station A] to [Station C] returns [A, B, C], of cost 250, given any
    fuel from 6 on. *)
Theorem astar_search_zero_heuristic_optimal :
  forall set_iter : list string -> list string,
    (forall s, Permutation (set_iter s) s) ->
    (forall (haversine : Location -> Location -> Z) (G : Graph.t)
            (start goal : string) (fuel : nat) (path : list string) (G' : Graph.t),
        (forall a b, haversine a b = 0) ->
        constructed G -> nonneg_costs G ->
        astar_search haversine set_iter fuel start goal G = (Found path, G') ->
        path_from_to G start goal path
        /\ forall q, path_from_to G start goal q -> path_cost G path <= path_cost G q)
    /\ (forall k, fst (astar_search Main.zero_heuristic set_iter (6 + k)
                         Main.A Main.C Main.graph)
                  = Found [Main.A; Main.B; Main.C])
    /\ path_cost Main.graph [Main.A; Main.B; Main.C] = 250.
Proof.
  intros set_iter Hperm. split; [|split].
  - intros haversine G start goal fuel path G' Hzero HG Hcost Hrun.
    exact (astar_search_found_optimal haversine set_iter G start goal
             Hperm Hzero Hcost fuel path G' (constructed_fresh G HG) Hrun).
  - intros k. now apply main_zero_run.
  - reflexivity.
Qed.

(** The theorem at the program's graph, iterating sets in insertion order:
    the search returns [A, B, C], and every path from [Station A] to
    [Station C] costs at least 250. *)
Lemma astar_search_zero_heuristic_optimal_witness :
  (forall s, Permutation (Main.insertion_order s) s)
  /\ (forall a b, Main.zero_heuristic a b = 0)
  /\ constructed Main.graph
  /\ nonneg_costs Main.graph
  /\ fst (astar_search Main.zero_heuristic Main.insertion_order 6
            Main.A Main.C Main.graph) = Found [Main.A; Main.B; Main.C]
  /\ path_from_to Main.graph Main.A Main.C [Main.A; Main.B; Main.C]
  /\ (forall q, path_from_to Main.graph Main.A Main.C q ->
        path_cost Main.graph [Main.A; Main.B; Main.C] <= path_cost Main.graph q).
Proof.
  split; [intros s; apply Permutation_refl|].
  split; [reflexivity|].
  split; [exact main_graph_constructed|].
  split; [exact main_graph_nonneg_costs|].
  split; [vm_compute; reflexivity|].
  apply (proj1 (astar_search_zero_heuristic_optimal Main.insertion_order
                  (fun s => Permutation_refl s))
           Main.zero_heuristic Main.graph Main.A Main.C 6%nat
           [Main.A; Main.B; Main.C]
           (snd (astar_search Main.zero_heuristic Main.insertion_order 6
                   Main.A Main.C Main.graph))).
  - reflexivity.
  - exact main_graph_constructed.
  - exact main_graph_nonneg_costs.
  - vm_compute. reflexivity.
Defined.

(* ================================================================== *)
(** * Only reachable nodes enter [open_set] *)

Lemma get_neighbors_edges node G nbs G1 w :
  Graph.get_neighbors node G = (nbs, G1) -> In w nbs ->
  exists r, edge_route G (Node.name node) w = Some r.
Proof.
  unfold Graph.get_neighbors, edge_route.
  destruct (dict_get (Node.name node) (Graph.edges G)) as [d|];
    intros [= <- <-]; [apply dict_keys_get|intros []].
Qed.

Lemma path_from_to_snoc G s u w q :
  path_from_to G s u q -> edge_route G u w <> None ->
  path_from_to G s w (q ++ [w]).
Proof.
  intros (Hhd & Hlast & Hpath) Hedge.
  destruct q as [|z P] using rev_ind; [discriminate|]. clear IHP.
  rewrite last_last in Hlast. subst z.
  split; [now rewrite hd_error_snoc|]. split; [apply last_last|].
  now apply is_path_snoc.
Qed.

Section Reachability.
Variable haversine : Location -> Location -> Z.
Variable set_iter : list string -> list string.
Variable G0 : Graph.t.
Variable start : string.
Hypothesis Hperm : forall s, Permutation (set_iter s) s.

Lemma expand_open goal_node cur nbs :
  forall G open G' open',
    expand haversine goal_node cur nbs G open = (None, G', open') ->
    (forall u v, edge_route G' u v = edge_route G u v)
    /\ (forall v, In v open' -> In v open \/ In v nbs).
Proof.
  induction nbs as [|nb rest IH]; intros G open G' open' Hex.
  - cbn in Hex. injection Hex as <- <-. auto.
  - cbn [expand] in Hex.
    destruct (nodes_get nb (Graph.nodes G)) as [nbn|]; [|discriminate].
    destruct (nodes_get cur (Graph.nodes G)) as [cn|]; [|discriminate].
    destruct (Graph.get_route cn nbn G) as [[r|] G1] eqn:Er; [|discriminate].
    apply get_route_spec in Er. destruct Er as [-> _].
    cbv zeta in Hex. apply IH in Hex. destruct Hex as [He Hsup]. split.
    + intros u v. rewrite He.
      now destruct (num_ltb _ (Node.g nbn)).
    + intros v Hv. destruct (Hsup v Hv) as [H|H]; [|right; now right].
      apply set_add_In in H. destruct H as [->|H]; [right; now left|now left].
Qed.

Lemma iteration_reachable fuel goal_node s :
  open_reachable G0 start s ->
  match iteration haversine set_iter fuel goal_node s with
  | Continue s' => open_reachable G0 start s'
  | Return (Found _) _ => exists q, path_from_to G0 start (Node.name goal_node) q
  | Return _ _ => True
  end.
Proof.
  intros [Hedges Hreach]. unfold iteration.
  destruct (py_min (node_f (st_graph s)) (set_iter (open_set s))) as [cur|] eqn:Emin;
    [|exact I].
  apply py_min_spec in Emin. destruct Emin as [Hin _].
  apply (Permutation_in _ (Hperm _)) in Hin.
  destruct (String.eqb cur (Node.name goal_node)) eqn:Eg.
  - apply String.eqb_eq in Eg. subst cur.
    destruct (reconstruct_path fuel (st_graph s) (Node.name goal_node)); auto.
  - destruct (nodes_get cur (Graph.nodes (st_graph s))) as [cn|] eqn:Ecur; [|exact I].
    destruct (Graph.get_neighbors cn (st_graph s)) as [nbs G1] eqn:En.
    destruct (expand haversine goal_node cur nbs G1 (set_remove cur (open_set s)))
      as [[[k|] G2] open2] eqn:Ex; [exact I|].
    destruct (get_neighbors_spec _ _ _ _ En) as (_ & He1 & _).
    destruct (expand_open _ _ _ _ _ _ _ Ex) as [He2 Hsup].
    split; cbn [st_graph open_set].
    + intros u v. now rewrite He2, He1.
    + intros v Hv. destruct (Hsup v Hv) as [H|H].
      * apply set_remove_In in H. now apply Hreach.
      * destruct (get_neighbors_edges _ _ _ _ _ En H) as (r & Hr).
        rewrite (nodes_get_name _ _ _ Ecur), Hedges in Hr.
        destruct (Hreach _ Hin) as (q & Hq).
        exists (q ++ [v]). eapply path_from_to_snoc; [exact Hq|congruence].
Qed.

Lemma search_loop_reachable goal_node fuel :
  forall s p G',
    open_reachable G0 start s ->
    search_loop haversine set_iter fuel goal_node s = (Found p, G') ->
    exists q, path_from_to G0 start (Node.name goal_node) q.
Proof.
  induction fuel as [|fuel IH]; intros s p G' Hs Hrun; [discriminate|].
  cbn [search_loop] in Hrun.
  pose proof (iteration_reachable fuel goal_node s Hs) as Hit.
  destruct (iteration haversine set_iter fuel goal_node s) as [o G|s'].
  - injection Hrun as -> ->. exact Hit.
  - eapply IH; eassumption.
Qed.
End Reachability.

(** X8.  Whatever the heuristic, the order of iteration and the scratch
    fields left by earlier searches: when [astar_search] returns a node sequence,
    a directed path from [start] to [goal] exists.  So where no such path
    exists the search returns [None], raises, or does not return. *)
Lemma astar_search_found_reachable haversine set_iter fuel start goal G p G' :
  (forall s, Permutation (set_iter s) s) ->
  astar_search haversine set_iter fuel start goal G = (Found p, G') ->
  exists q, path_from_to G start goal q.
Proof.
  intros Hperm. unfold astar_search.
  destruct (nodes_get start (Graph.nodes G)) as [sn|] eqn:Es; [|discriminate].
  destruct (nodes_get goal (Graph.nodes G)) as [gn|] eqn:Eg; [|discriminate].
  intros Hrun.
  rewrite <- (nodes_get_name _ _ _ Eg).
  eapply (search_loop_reachable haversine set_iter G start Hperm); [|exact Hrun].
  split; [intros u v; reflexivity|].
  cbn [initial_state open_set]. intros v [<-|[]].
  rewrite (nodes_get_name _ _ _ Es). exists [start]. repeat split.
Qed.

(* ================================================================== *)
(** * Further properties: building and reading the graph *)

Lemma nodes_put_absent n ns :
  nodes_get (Node.name n) ns = None -> nodes_put n ns = ns ++ [n].
Proof.
  induction ns as [|m ns IH]; simpl; [reflexivity|].
  destruct (String.eqb (Node.name m) (Node.name n)); [discriminate|].
  intros H. now rewrite IH.
Qed.

Lemma nodes_put_names n ns :
  nodes_get (Node.name n) ns <> None ->
  map Node.name (nodes_put n ns) = map Node.name ns.
Proof.
  induction ns as [|m ns IH]; simpl; [congruence|].
  destruct (String.eqb (Node.name m) (Node.name n)) eqn:E; simpl.
  - intros _. apply String.eqb_eq in E. now rewrite E.
  - intros H. now rewrite IH.
Qed.

Lemma nodes_get_none_names k ns :
  nodes_get k ns = None <-> ~ In k (map Node.name ns).
Proof.
  induction ns as [|m ns IH]; simpl; [tauto|].
  destruct (String.eqb (Node.name m) k) eqn:E.
  - apply String.eqb_eq in E. split; [discriminate|]. intros H. exfalso. auto.
  - apply String.eqb_neq in E. rewrite IH. tauto.
Qed.

(** X1.  [add_node] followed by a lookup: the name maps to a new node with
    the scratch fields as [Node.__init__] sets them ([g] infinite, [h = 0],
    [f] infinite, no parent), every other name maps to what it mapped to,
    and the edges are untouched.  A name that was registered is overwritten
    in place (the list of names does not change, so no name is held twice);
    a new name is appended. *)
Theorem add_node_then_lookup :
  forall (G : Graph.t) (name : string) (location : Location),
    nodes_get name (Graph.nodes (Graph.add_node name location G))
    = Some (Node.mk name location Inf 0 Inf None)
    /\ (forall k, k <> name ->
          nodes_get k (Graph.nodes (Graph.add_node name location G))
          = nodes_get k (Graph.nodes G))
    /\ Graph.edges (Graph.add_node name location G) = Graph.edges G
    /\ (nodes_get name (Graph.nodes G) <> None ->
          map Node.name (Graph.nodes (Graph.add_node name location G))
          = map Node.name (Graph.nodes G))
    /\ (nodes_get name (Graph.nodes G) = None ->
          Graph.nodes (Graph.add_node name location G)
          = Graph.nodes G ++ [Node.init name location]).
Proof.
  intros G name location. unfold Graph.add_node. cbn [Graph.nodes Graph.edges].
  split; [apply (nodes_get_put_same (Node.init name location))|].
  split; [intros k Hk; now apply nodes_get_put_other|].
  split; [reflexivity|]. split.
  - intros H. now apply nodes_put_names.
  - intros H. now apply nodes_put_absent.
Qed.

Section DictKeys.
Context {V : Type}.
Implicit Types (d : dict V) (k : string) (v : V).

Lemma dict_get_none_keys d k : dict_get k d = None <-> ~ In k (dict_keys d).
Proof.
  induction d as [|[k' v'] d IH]; simpl; [tauto|].
  destruct (String.eqb k' k) eqn:E.
  - apply String.eqb_eq in E. split; [discriminate|]. intros H. exfalso. auto.
  - apply String.eqb_neq in E. rewrite IH. tauto.
Qed.

Lemma dict_set_keys d k v :
  dict_keys (dict_set k v d)
  = match dict_get k d with
    | Some _ => dict_keys d
    | None => dict_keys d ++ [k]
    end.
Proof.
  induction d as [|[k' v'] d IH]; simpl; [reflexivity|].
  destruct (String.eqb k' k) eqn:E; simpl.
  - apply String.eqb_eq in E. now subst.
  - rewrite IH. now destruct (dict_get k d).
Qed.

Lemma dict_set_keys_nodup d k v :
  NoDup (dict_keys d) -> NoDup (dict_keys (dict_set k v d)).
Proof.
  intros H. rewrite dict_set_keys.
  destruct (dict_get k d) eqn:E; [exact H|].
  apply dict_get_none_keys in E.
  apply NoDup_app; [exact H|repeat constructor; auto |].
  intros x Hx [<-|[]]. contradiction.
Qed.

Lemma dict_set_values (P : V -> Prop) d k v :
  P v -> (forall k' v', dict_get k' d = Some v' -> P v') ->
  forall k' v', dict_get k' (dict_set k v d) = Some v' -> P v'.
Proof.
  intros Hv Hd k' v'. destruct (String.eqb k' k) eqn:E.
  - apply String.eqb_eq in E. subst k'. rewrite dict_get_set_same.
    now intros [= <-].
  - apply String.eqb_neq in E. rewrite dict_get_set_other by exact E. apply Hd.
Qed.
End DictKeys.

(** In a graph built by [add_node] and [add_edge], no name is registered
    twice, no source has two adjacency entries and no adjacency holds a
    destination twice. *)
Lemma constructed_keys_unique G :
  constructed G ->
  NoDup (map Node.name (Graph.nodes G))
  /\ NoDup (dict_keys (Graph.edges G))
  /\ forall k d, dict_get k (Graph.edges G) = Some d -> NoDup (dict_keys d).
Proof.
  induction 1 as [|name location G _ (IHn & IHe & IHd)
                  |a b r G _ (IHn & IHe & IHd)].
  - repeat split; try constructor. discriminate.
  - split; [|split; assumption]. unfold Graph.add_node. cbn [Graph.nodes].
    destruct (nodes_get name (Graph.nodes G)) as [m|] eqn:E.
    + rewrite nodes_put_names; [exact IHn|]. cbn [Node.init Node.name]. congruence.
    + rewrite nodes_put_absent by exact E. rewrite map_app.
      apply nodes_get_none_names in E.
      apply NoDup_app; [exact IHn|repeat constructor; auto|].
      intros x Hx [<-|[]]. contradiction.
  - split; [exact IHn|]. unfold Graph.add_edge. cbn [Graph.edges]. split.
    + now apply dict_set_keys_nodup.
    + apply (dict_set_values (fun d => NoDup (dict_keys d))); [|exact IHd].
      apply dict_set_keys_nodup.
      destruct (dict_get a (Graph.edges G)) as [d|] eqn:E; [|constructor].
      exact (IHd _ _ E).
Qed.

(** X2.  In a graph built by [add_node] and [add_edge], [get_neighbors]
    returns each destination once, and returns exactly the names [w] for
    which the graph holds a route from the node to [w]; no node name is
    registered twice. *)
Theorem get_neighbors_lists_each_edge_once :
  forall (G : Graph.t) (node : Node.t),
    constructed G ->
    NoDup (map Node.name (Graph.nodes G))
    /\ NoDup (fst (Graph.get_neighbors node G))
    /\ forall w, In w (fst (Graph.get_neighbors node G))
                 <-> edge_route G (Node.name node) w <> None.
Proof.
  intros G node HG. destruct (constructed_keys_unique G HG) as (Hn & _ & Hd).
  split; [exact Hn|]. unfold Graph.get_neighbors, edge_route.
  destruct (dict_get (Node.name node) (Graph.edges G)) as [d|] eqn:E;
    cbn [fst].
  - split; [exact (Hd _ _ E)|]. intros w. split.
    + intros Hw. apply dict_keys_get in Hw. destruct Hw as (r & ->). discriminate.
    + intros Hw. destruct (dict_get w d) as [r|] eqn:Er; [|congruence].
      now apply dict_get_in_keys in Er.
  - split; [constructor|]. intros w. split; [intros []|congruence].
Qed.

Lemma get_neighbors_lists_each_edge_once_witness :
  constructed Main.graph
  /\ NoDup (map Node.name (Graph.nodes Main.graph))
  /\ NoDup (fst (Graph.get_neighbors (Node.init Main.A Main.loc_A) Main.graph))
  /\ forall w, In w (fst (Graph.get_neighbors (Node.init Main.A Main.loc_A) Main.graph))
               <-> edge_route Main.graph Main.A w <> None.
Proof.
  split; [exact main_graph_constructed|].
  apply (get_neighbors_lists_each_edge_once Main.graph (Node.init Main.A Main.loc_A)).
  exact main_graph_constructed.
Defined.

(** X3.  [get_route] returns the route stored for the ordered pair, and
    [None] (its [KeyError]) exactly when none is stored.  It never changes
    the nodes or any stored route; when the source node has an adjacency
    entry the graph is left as it was, and when it has none the lookup
    fails and appends an empty entry for the source, as the [defaultdict]
    does. *)
Theorem get_route_result_and_effect :
  forall (G : Graph.t) (from_node to_node : Node.t),
    fst (Graph.get_route from_node to_node G)
    = edge_route G (Node.name from_node) (Node.name to_node)
    /\ Graph.nodes (snd (Graph.get_route from_node to_node G)) = Graph.nodes G
    /\ (forall u v, edge_route (snd (Graph.get_route from_node to_node G)) u v
                    = edge_route G u v)
    /\ (dict_get (Node.name from_node) (Graph.edges G) <> None ->
          snd (Graph.get_route from_node to_node G) = G)
    /\ (dict_get (Node.name from_node) (Graph.edges G) = None ->
          fst (Graph.get_route from_node to_node G) = None
          /\ Graph.edges (snd (Graph.get_route from_node to_node G))
             = Graph.edges G ++ [(Node.name from_node, [])]).
Proof.
  intros G a b. unfold Graph.get_route, edge_route.
  destruct (dict_get (Node.name a) (Graph.edges G)) as [d|] eqn:E;
    cbn [fst snd Graph.nodes Graph.edges].
  - repeat split; auto; congruence.
  - split; [reflexivity|]. split; [reflexivity|]. split; [|split].
    + intros u v. destruct (String.eqb u (Node.name a)) eqn:Eu.
      * apply String.eqb_eq in Eu. subst u. now rewrite dict_get_set_same, E.
      * apply String.eqb_neq in Eu. now rewrite dict_get_set_other.
    + congruence.
    + intros _. split; [reflexivity|]. now apply dict_set_absent.
Qed.

(** X4.  Looking up the neighbours of a node a second time returns the
    same names and no longer changes the graph, and a [get_route] from that
    node afterwards does not change it either: the one entry the first
    lookup may insert is all these lookups ever add. *)
Theorem get_neighbors_twice :
  forall (G : Graph.t) (node to_node : Node.t),
    Graph.get_neighbors node (snd (Graph.get_neighbors node G))
    = Graph.get_neighbors node G
    /\ snd (Graph.get_route node to_node (snd (Graph.get_neighbors node G)))
       = snd (Graph.get_neighbors node G)
    /\ fst (Graph.get_route node to_node (snd (Graph.get_neighbors node G)))
       = edge_route G (Node.name node) (Node.name to_node).
Proof.
  intros G node b. unfold Graph.get_neighbors, Graph.get_route, edge_route.
  destruct (dict_get (Node.name node) (Graph.edges G)) as [d|] eqn:E;
    cbn [fst snd Graph.nodes Graph.edges].
  - rewrite E. auto.
  - rewrite dict_get_set_same. auto.
Qed.

(* ================================================================== *)
(** * Further properties: aggregation *)

(** X5.  Aggregating the concatenation of two edge sequences adds up their
    times, costs and transfer times, and counts one transfer more than the
    two parts together (the change between them). *)
Theorem collect_route_details_app :
  forall routes1 routes2 : list TransportRoute.t,
    collect_route_details (routes1 ++ routes2)
    = (fst (fst (fst (collect_route_details routes1)))
       + fst (fst (fst (collect_route_details routes2))),
       snd (fst (fst (collect_route_details routes1)))
       + snd (fst (fst (collect_route_details routes2))),
       snd (fst (collect_route_details routes1))
       + snd (fst (collect_route_details routes2)) + 1,
       snd (collect_route_details routes1)
       + snd (collect_route_details routes2)).
Proof.
  intros r1 r2. unfold collect_route_details, py_sum.
  rewrite !collect_loop_sums, !py_sum_from. cbn [fst snd].
  rewrite !map_app, length_app, Nat2Z.inj_add.
  assert (Hsum : forall l1 l2, Zsum (l1 ++ l2) = Zsum l1 + Zsum l2).
  { intros l1 l2. induction l1 as [|x l1 IH]; simpl; [reflexivity|]. rewrite IH. lia. }
  rewrite !Hsum. apply f_equal2; [apply f_equal2; [apply f_equal2|]|]; lia.
Qed.

(* ================================================================== *)
(** * Further properties: what a search changes *)

Lemma node_ids_put n m ns :
  nodes_get (Node.name n) ns = Some m -> Node.location n = Node.location m ->
  map (fun x => (Node.name x, Node.location x)) (nodes_put n ns)
  = map (fun x => (Node.name x, Node.location x)) ns.
Proof.
  induction ns as [|x ns IH]; simpl; [discriminate|].
  destruct (String.eqb (Node.name x) (Node.name n)) eqn:E; simpl.
  - intros [= ->] Hloc. apply String.eqb_eq in E. now rewrite E, Hloc.
  - intros H Hloc. now rewrite IH.
Qed.

Lemma get_route_keeps a b G r G1 :
  Graph.get_route a b G = (r, G1) ->
  Graph.nodes G1 = Graph.nodes G
  /\ forall u v, edge_route G1 u v = edge_route G u v.
Proof.
  unfold Graph.get_route, edge_route.
  destruct (dict_get (Node.name a) (Graph.edges G)) as [d|] eqn:E;
    intros [= <- <-]; cbn [Graph.nodes Graph.edges]; split; auto.
  intros u v. destruct (String.eqb u (Node.name a)) eqn:Eu.
  - apply String.eqb_eq in Eu. subst u. now rewrite dict_get_set_same, E.
  - apply String.eqb_neq in Eu. now rewrite dict_get_set_other.
Qed.

Lemma kept_refl G : kept G G.
Proof. repeat split. intros u. apply num_le_refl. Qed.

Lemma kept_trans G1 G2 G3 : kept G1 G2 -> kept G2 G3 -> kept G1 G3.
Proof.
  intros (H1 & H2 & H3) (H1' & H2' & H3'). split; [congruence|]. split.
  - intros u v. now rewrite H2', H2.
  - intros u. eapply num_le_trans; [apply H3'|apply H3].
Qed.

Lemma kept_same_nodes G G1 :
  Graph.nodes G1 = Graph.nodes G ->
  (forall u v, edge_route G1 u v = edge_route G u v) -> kept G G1.
Proof.
  intros Hn He. unfold kept, node_ids, node_g. rewrite Hn.
  repeat split; auto. intros u. apply num_le_refl.
Qed.

Section Kept.
Variable haversine : Location -> Location -> Z.
Variable set_iter : list string -> list string.

Lemma improve_kept goal_node cur t nb nbn G :
  nodes_get nb (Graph.nodes G) = Some nbn ->
  num_ltb t (Node.g nbn) = true ->
  kept G (improve haversine goal_node cur t nbn G).
Proof.
  intros Enb Hlt. pose proof (nodes_get_name _ _ _ Enb) as Hname.
  split; [|split].
  - unfold node_ids, improve. cbn [Graph.nodes].
    apply (node_ids_put _ nbn); [cbn [Node.name]; now rewrite Hname|reflexivity].
  - reflexivity.
  - intros u. rewrite node_g_improve. destruct (String.eqb u (Node.name nbn)) eqn:E.
    + apply String.eqb_eq in E. subst u. unfold node_g. rewrite Hname, Enb.
      now apply num_ltb_true.
    + apply num_le_refl.
Qed.

Lemma expand_kept goal_node cur nbs :
  forall G open o G' open',
    expand haversine goal_node cur nbs G open = (o, G', open') -> kept G G'.
Proof.
  induction nbs as [|nb rest IH]; intros G open o G' open' Hex.
  - cbn in Hex. injection Hex as _ <- _. apply kept_refl.
  - cbn [expand] in Hex.
    destruct (nodes_get nb (Graph.nodes G)) as [nbn|] eqn:Enb;
      [|injection Hex as _ <- _; apply kept_refl].
    destruct (nodes_get cur (Graph.nodes G)) as [cn|] eqn:Ecur;
      [|injection Hex as _ <- _; apply kept_refl].
    destruct (Graph.get_route cn nbn G) as [[r|] G1] eqn:Er.
    + apply get_route_spec in Er. destruct Er as [-> _].
      cbv zeta in Hex. apply IH in Hex.
      eapply kept_trans; [|exact Hex].
      destruct (num_ltb _ (Node.g nbn)) eqn:Elt; [|apply kept_refl].
      eapply improve_kept; eassumption.
    + injection Hex as _ <- _.
      destruct (get_route_keeps _ _ _ _ _ Er) as [Hn He].
      now apply kept_same_nodes.
Qed.

Lemma iteration_kept fuel goal_node s :
  match iteration haversine set_iter fuel goal_node s with
  | Return _ G' => kept (st_graph s) G'
  | Continue s' => kept (st_graph s) (st_graph s')
  end.
Proof.
  unfold iteration.
  destruct (py_min (node_f (st_graph s)) (set_iter (open_set s))) as [cur|];
    [|apply kept_refl].
  destruct (String.eqb cur (Node.name goal_node)); [apply kept_refl|].
  destruct (nodes_get cur (Graph.nodes (st_graph s))) as [cn|]; [|apply kept_refl].
  destruct (Graph.get_neighbors cn (st_graph s)) as [nbs G1] eqn:En.
  destruct (get_neighbors_spec _ _ _ _ En) as (Hn & He & _).
  destruct (expand haversine goal_node cur nbs G1 _) as [[[k|] G2] open2] eqn:Ex;
    apply expand_kept in Ex; cbn [st_graph];
    (eapply kept_trans; [apply kept_same_nodes; eassumption|exact Ex]).
Qed.

Lemma search_loop_kept goal_node fuel :
  forall s, kept (st_graph s) (snd (search_loop haversine set_iter fuel goal_node s)).
Proof.
  induction fuel as [|fuel IH]; intros s; [apply kept_refl|].
  cbn [search_loop].
  pose proof (iteration_kept fuel goal_node s) as Hit.
  destruct (iteration haversine set_iter fuel goal_node s) as [o G|s']; [exact Hit|].
  eapply kept_trans; [exact Hit|apply IH].
Qed.
End Kept.

(** X6.  Whatever it returns, raises or however long it runs,
    [astar_search] leaves the names and locations of the graph's nodes, in
    their order, and the route of every ordered pair as they were: it
    changes nothing but the scratch fields [g], [h], [f], [parent] (and
    may add empty adjacency entries). *)
Theorem astar_search_changes_scratch_only :
  forall (haversine : Location -> Location -> Z)
         (set_iter : list string -> list string)
         (fuel : nat) (start goal : string) (G : Graph.t),
    node_ids (snd (astar_search haversine set_iter fuel start goal G)) = node_ids G
    /\ forall u v,
         edge_route (snd (astar_search haversine set_iter fuel start goal G)) u v
         = edge_route G u v.
Proof.
  intros haversine set_iter fuel start goal G. unfold astar_search.
  destruct (nodes_get start (Graph.nodes G)) as [sn|] eqn:Es; [|now split].
  destruct (nodes_get goal (Graph.nodes G)) as [gn|] eqn:Eg; [|now split].
  destruct (search_loop_kept haversine set_iter gn fuel (initial_state haversine sn gn G))
    as (Hids & Hedges & _).
  split.
  - rewrite Hids. unfold initial_state, node_ids. cbn [st_graph Graph.nodes].
    apply (node_ids_put _ sn); [|reflexivity].
    cbn [Node.name]. now rewrite (nodes_get_name _ _ _ Es).
  - intros u v. now rewrite Hedges.
Qed.

(** X7.  A search never raises a [g]: when it ends, or at any point at
    which it is cut off, every node other than the start has a [g] no
    larger than before the call, and the start, once both end nodes are
    found in the graph, has [g] at most 0. *)
Theorem astar_search_never_raises_g :
  forall (haversine : Location -> Location -> Z)
         (set_iter : list string -> list string)
         (fuel : nat) (start goal : string) (G : Graph.t),
    (forall u, u <> start ->
       num_le (node_g (snd (astar_search haversine set_iter fuel start goal G)) u)
              (node_g G u))
    /\ (nodes_get start (Graph.nodes G) <> None ->
        nodes_get goal (Graph.nodes G) <> None ->
        num_le (node_g (snd (astar_search haversine set_iter fuel start goal G)) start)
               (Fin 0)).
Proof.
  intros haversine set_iter fuel start goal G. unfold astar_search.
  destruct (nodes_get start (Graph.nodes G)) as [sn|] eqn:Es;
    [|split; [intros; apply num_le_refl|congruence]].
  destruct (nodes_get goal (Graph.nodes G)) as [gn|] eqn:Eg;
    [|split; [intros; apply num_le_refl|congruence]].
  destruct (search_loop_kept haversine set_iter gn fuel (initial_state haversine sn gn G))
    as (_ & _ & Hg).
  pose proof (nodes_get_name _ _ _ Es) as Hname.
  assert (Hinit : forall u,
             node_g (st_graph (initial_state haversine sn gn G)) u
             = if String.eqb u start then Fin 0 else node_g G u).
  { intros u. unfold initial_state, node_g. cbn [st_graph Graph.nodes].
    rewrite nodes_get_put. cbn [Node.name]. rewrite Hname.
    now destruct (String.eqb u start). }
  split.
  - intros u Hu. specialize (Hg u). rewrite Hinit in Hg.
    apply String.eqb_neq in Hu. now rewrite Hu in Hg.
  - intros _ _. specialize (Hg start). rewrite Hinit, String.eqb_refl in Hg.
    exact Hg.
Qed.

(* ================================================================== *)
(** * Further properties: what the answers of a search mean *)

(** The search from [Station A] for [Station C] on the program's graph
    returns a path, and a path exists. *)
Lemma astar_search_found_reachable_witness :
  (forall s, Permutation (Main.insertion_order s) s)
  /\ astar_search Main.haversine Main.insertion_order 10 Main.A Main.C Main.graph
     = (Found [Main.A; Main.C], main_graph_after_first_search)
  /\ exists q, path_from_to Main.graph Main.A Main.C q.
Proof.
  split; [intros s; apply Permutation_refl|].
  split; [vm_compute; reflexivity|].
  apply (astar_search_found_reachable Main.haversine Main.insertion_order 10
           Main.A Main.C Main.graph [Main.A; Main.C] main_graph_after_first_search).
  - intros s. apply Permutation_refl.
  - vm_compute. reflexivity.
Defined.

Section Unreachable.
Variable haversine : Location -> Location -> Z.
Variable set_iter : list string -> list string.
Variable G0 : Graph.t.
Variables start goal : string.
Hypothesis Hperm : forall s, Permutation (set_iter s) s.

Lemma expand_open_all goal_node cur nbs :
  forall G open G' open',
    expand haversine goal_node cur nbs G open = (None, G', open') ->
    (forall v, In v open -> In v open') /\ (forall v, In v nbs -> In v open').
Proof.
  induction nbs as [|nb rest IH]; intros G open G' open' Hex.
  - cbn in Hex. injection Hex as _ <-. split; [auto|intros v []].
  - cbn [expand] in Hex.
    destruct (nodes_get nb (Graph.nodes G)) as [nbn|]; [|discriminate].
    destruct (nodes_get cur (Graph.nodes G)) as [cn|]; [|discriminate].
    destruct (Graph.get_route cn nbn G) as [[r|] G1]; [|discriminate].
    cbv zeta in Hex. apply IH in Hex. destruct Hex as [Hsub Hnbs]. split.
    + intros v Hv. apply Hsub, set_add_In. now right.
    + intros v [<-|Hv]; [apply Hsub, set_add_In; now left|now apply Hnbs].
Qed.

Lemma iteration_meets fuel goal_node s :
  Node.name goal_node = goal ->
  path_meets_open G0 start goal s ->
  match iteration haversine set_iter fuel goal_node s with
  | Continue s' => path_meets_open G0 start goal s'
  | Return NotFound _ => forall q, ~ path_from_to G0 start goal q
  | Return _ _ => True
  end.
Proof.
  intros Hgoal [Hedges Hmeet]. unfold iteration.
  destruct (py_min (node_f (st_graph s)) (set_iter (open_set s))) as [cur|] eqn:Emin.
  - apply py_min_spec in Emin. destruct Emin as [Hin _].
    apply (Permutation_in _ (Hperm _)) in Hin.
    rewrite Hgoal. destruct (String.eqb cur goal) eqn:Eg.
    { unfold reconstruct_path.
      now destruct (reconstruct_loop fuel (st_graph s) (Some cur) []). }
    apply String.eqb_neq in Eg.
    destruct (nodes_get cur (Graph.nodes (st_graph s))) as [cn|] eqn:Ecur; [|exact I].
    destruct (Graph.get_neighbors cn (st_graph s)) as [nbs G1] eqn:En.
    destruct (expand haversine goal_node cur nbs G1 (set_remove cur (open_set s)))
      as [[[k|] G2] open2] eqn:Ex; [exact I|].
    destruct (get_neighbors_spec _ _ _ _ En) as (_ & He1 & Hnb1).
    rewrite (nodes_get_name _ _ _ Ecur) in Hnb1.
    destruct (expand_open _ _ _ _ _ _ _ _ Ex) as [He2 _].
    destruct (expand_open_all _ _ _ _ _ _ _ Ex) as [Hsub Hnbs].
    split; cbn [st_graph open_set].
    + intros u v. now rewrite He2, He1.
    + intros q Hq. destruct (Hmeet q Hq) as (v & Hvq & Hvo).
      destruct (string_dec v cur) as [->|Hne].
      * apply in_split in Hvq. destruct Hvq as (q1 & q2 & ->).
        destruct Hq as (_ & Hlast & Hpath).
        destruct q2 as [|w q3]; [rewrite last_last in Hlast; congruence|].
        destruct (is_path_app _ _ _ _ Hpath) as [_ Hp2]. cbn [is_path] in Hp2.
        destruct (edge_route G0 cur w) as [r|] eqn:Er; [|discriminate].
        exists w. split; [apply in_or_app; right; right; now left|].
        apply Hnbs. apply (Hnb1 w r). now rewrite Hedges.
      * exists v. split; [exact Hvq|]. apply Hsub, set_remove_In. now split.
  - intros q Hq. destruct (Hmeet q Hq) as (v & _ & Hv).
    destruct (set_iter (open_set s)) as [|x l] eqn:E; [|discriminate].
    pose proof (Hperm (open_set s)) as Hp. rewrite E in Hp.
    apply Permutation_nil in Hp. rewrite Hp in Hv. destruct Hv.
Qed.

Lemma search_loop_meets goal_node fuel :
  Node.name goal_node = goal ->
  forall s G',
    path_meets_open G0 start goal s ->
    search_loop haversine set_iter fuel goal_node s = (NotFound, G') ->
    forall q, ~ path_from_to G0 start goal q.
Proof.
  intros Hgoal. induction fuel as [|fuel IH]; intros s G' Hs Hrun; [discriminate|].
  cbn [search_loop] in Hrun.
  pose proof (iteration_meets fuel goal_node s Hgoal Hs) as Hit.
  destruct (iteration haversine set_iter fuel goal_node s) as [o G|s'].
  - injection Hrun as -> ->. exact Hit.
  - eapply IH; eassumption.
Qed.
End Unreachable.

(** X9.  When [astar_search] returns [None], no directed path leads from
    the start to the goal: with any heuristic, any edge costs, any order of
    set iteration and any scratch fields left by earlier searches. *)
Theorem astar_search_none_means_unreachable :
  forall (haversine : Location -> Location -> Z)
         (set_iter : list string -> list string)
         (fuel : nat) (start goal : string) (G G' : Graph.t),
    (forall s, Permutation (set_iter s) s) ->
    astar_search haversine set_iter fuel start goal G = (NotFound, G') ->
    forall q, ~ path_from_to G start goal q.
Proof.
  intros haversine set_iter fuel start goal G G' Hperm. unfold astar_search.
  destruct (nodes_get start (Graph.nodes G)) as [sn|] eqn:Es; [|discriminate].
  destruct (nodes_get goal (Graph.nodes G)) as [gn|] eqn:Eg; [|discriminate].
  apply (search_loop_meets haversine set_iter G start goal Hperm gn fuel
           (nodes_get_name _ _ _ Eg)).
  split; [intros u v; reflexivity|].
  cbn [initial_state open_set]. rewrite (nodes_get_name _ _ _ Es).
  intros q (Hhd & _). destruct q as [|v q]; [discriminate|].
  injection Hhd as ->. exists start. split; now left.
Qed.

(** [Station C] has no outgoing edge: the search from it for [Station A]
    returns [None]. *)
Lemma astar_search_none_means_unreachable_witness :
  (forall s, Permutation (Main.insertion_order s) s)
  /\ fst (astar_search Main.haversine Main.insertion_order 3 Main.C Main.A Main.graph)
     = NotFound
  /\ forall q, ~ path_from_to Main.graph Main.C Main.A q.
Proof.
  split; [intros s; apply Permutation_refl|].
  split; [vm_compute; reflexivity|].
  apply (astar_search_none_means_unreachable Main.haversine Main.insertion_order 3
           Main.C Main.A Main.graph
           (snd (astar_search Main.haversine Main.insertion_order 3
                   Main.C Main.A Main.graph))).
  - intros s. apply Permutation_refl.
  - vm_compute. reflexivity.
Defined.

(* ================================================================== *)
(** * Further properties: an edge to a name that is no node *)

Lemma node_ids_registered G G' k :
  node_ids G' = node_ids G ->
  (nodes_get k (Graph.nodes G') = None <-> nodes_get k (Graph.nodes G) = None).
Proof.
  intros Hids. rewrite !nodes_get_none_names.
  assert (Hn : forall H, map Node.name (Graph.nodes H) = map fst (node_ids H)).
  { intros H. unfold node_ids. rewrite map_map. reflexivity. }
  now rewrite !Hn, Hids.
Qed.

Lemma expand_unregistered haversine goal_node cur nbs :
  forall G open,
    (exists w, In w nbs /\ nodes_get w (Graph.nodes G) = None) ->
    nodes_get cur (Graph.nodes G) <> None ->
    (forall w, In w nbs -> edge_route G cur w <> None) ->
    exists k G' open',
      expand haversine goal_node cur nbs G open = (Some k, G', open')
      /\ In k nbs /\ nodes_get k (Graph.nodes G) = None.
Proof.
  induction nbs as [|nb rest IH]; intros G open (w & Hw & Hnone) Hcur Hedges.
  - destruct Hw.
  - cbn [expand].
    destruct (nodes_get nb (Graph.nodes G)) as [nbn|] eqn:Enb.
    2:{ exists nb, G, open. repeat split; auto. now left. }
    destruct (nodes_get cur (Graph.nodes G)) as [cn|] eqn:Ecur; [|congruence].
    destruct (Graph.get_route cn nbn G) as [[r|] G1] eqn:Er.
    + apply get_route_spec in Er. destruct Er as [-> _]. cbv zeta.
      set (G2 := if num_ltb _ (Node.g nbn) then _ else G).
      assert (HG2 : kept G G2).
      { subst G2. destruct (num_ltb _ (Node.g nbn)) eqn:Elt; [|apply kept_refl].
        eapply improve_kept; eassumption. }
      destruct HG2 as (Hids & He & _).
      destruct (IH G2 (set_add nb open)) as (k & G' & open' & Hex & Hk & Hkn).
      * exists w. split.
        -- destruct Hw as [<-|Hw]; [congruence|exact Hw].
        -- now apply (node_ids_registered G G2 w Hids).
      * rewrite (node_ids_registered G G2 cur Hids). congruence.
      * intros v Hv. rewrite He. apply Hedges. now right.
      * exists k, G', open'. split; [exact Hex|]. split; [now right|].
        now apply (node_ids_registered G G2 k Hids).
    + exfalso. apply (Hedges nb (or_introl eq_refl)).
      pose proof (f_equal fst Er) as Hf. cbn [fst] in Hf.
      unfold Graph.get_route in Hf. unfold edge_route.
      rewrite (nodes_get_name _ _ _ Ecur), (nodes_get_name _ _ _ Enb) in Hf.
      now destruct (dict_get cur (Graph.edges G)).
Qed.

(** X10.  [add_edge] accepts an edge to a name that was never registered;
    a search that expands the source of such an edge raises [KeyError]:
    when the start has a route to an unregistered name and is not the goal,
    [astar_search] raises [KeyError] for an unregistered neighbour of the
    start, in its first iteration, whatever the heuristic. *)
Theorem astar_search_dangling_edge_raises :
  forall (haversine : Location -> Location -> Z)
         (set_iter : list string -> list string)
         (fuel : nat) (start goal nb : string) (G : Graph.t),
    (forall s, Permutation (set_iter s) s) ->
    nodes_get start (Graph.nodes G) <> None ->
    nodes_get goal (Graph.nodes G) <> None ->
    start <> goal ->
    edge_route G start nb <> None ->
    nodes_get nb (Graph.nodes G) = None ->
    exists k,
      fst (astar_search haversine set_iter (S fuel) start goal G) = KeyError k
      /\ nodes_get k (Graph.nodes G) = None
      /\ edge_route G start k <> None.
Proof.
  intros haversine set_iter fuel start goal nb G Hperm Hs Hg Hne Hedge Hnb.
  unfold astar_search.
  destruct (nodes_get start (Graph.nodes G)) as [sn|] eqn:Es; [|congruence].
  destruct (nodes_get goal (Graph.nodes G)) as [gn|] eqn:Eg; [|congruence].
  pose proof (nodes_get_name _ _ _ Es) as Hsn.
  pose proof (nodes_get_name _ _ _ Eg) as Hgn.
  cbn [search_loop]. unfold iteration.
  set (s0 := initial_state haversine sn gn G).
  assert (Hopen : open_set s0 = [start]) by (cbn; now rewrite Hsn).
  rewrite Hopen, (set_iter_singleton set_iter _ Hperm). cbn [py_min min_from].
  rewrite Hgn. apply String.eqb_neq in Hne. rewrite Hne.
  assert (Hids : node_ids (st_graph s0) = node_ids G).
  { unfold s0, initial_state, node_ids. cbn [st_graph Graph.nodes].
    apply (node_ids_put _ sn); [cbn [Node.name]; now rewrite Hsn|reflexivity]. }
  assert (He0 : forall u v, edge_route (st_graph s0) u v = edge_route G u v)
    by reflexivity.
  destruct (nodes_get start (Graph.nodes (st_graph s0))) as [cn|] eqn:Ecur.
  2:{ apply (node_ids_registered G (st_graph s0) start Hids) in Ecur. congruence. }
  destruct (Graph.get_neighbors cn (st_graph s0)) as [nbs G1] eqn:En.
  destruct (get_neighbors_spec _ _ _ _ En) as (Hn1 & He1 & Hnb1).
  rewrite (nodes_get_name _ _ _ Ecur) in Hnb1.
  destruct (edge_route G start nb) as [r|] eqn:Er; [|congruence].
  destruct (expand_unregistered haversine gn start nbs G1
              (set_remove start (open_set s0)))
    as (k & G' & open' & Hex & Hk & Hkn).
  - exists nb. split; [apply (Hnb1 nb r); now rewrite He0|].
    rewrite Hn1. now apply (node_ids_registered G (st_graph s0) nb Hids).
  - rewrite Hn1, Ecur. discriminate.
  - intros w Hw. rewrite He1, He0.
    destruct (get_neighbors_edges _ _ _ _ _ En Hw) as (r' & Hr').
    rewrite (nodes_get_name _ _ _ Ecur), He0 in Hr'. congruence.
  - rewrite Hopen in Hex. rewrite Hex. exists k. split; [reflexivity|]. split.
    + rewrite Hn1 in Hkn. now apply (node_ids_registered G (st_graph s0) k Hids).
    + destruct (get_neighbors_edges _ _ _ _ _ En Hk) as (r' & Hr').
      rewrite (nodes_get_name _ _ _ Ecur), He0 in Hr'. congruence.
Qed.

Lemma astar_search_dangling_edge_raises_witness :
  (forall s, Permutation (Main.insertion_order s) s)
  /\ constructed Dangling.graph
  /\ nodes_get Dangling.ghost (Graph.nodes Dangling.graph) = None
  /\ edge_route Dangling.graph Dangling.A Dangling.ghost <> None
  /\ exists k,
       fst (astar_search Main.haversine Main.insertion_order 1
              Dangling.A Dangling.B Dangling.graph) = KeyError k
       /\ nodes_get k (Graph.nodes Dangling.graph) = None
       /\ edge_route Dangling.graph Dangling.A k <> None.
Proof.
  split; [intros s; apply Permutation_refl|].
  split; [unfold Dangling.graph; repeat constructor|].
  split; [reflexivity|]. split; [discriminate|].
  apply (astar_search_dangling_edge_raises Main.haversine Main.insertion_order 0
           Dangling.A Dangling.B Dangling.ghost Dangling.graph).
  - intros s. apply Permutation_refl.
  - discriminate.
  - discriminate.
  - discriminate.
  - discriminate.
  - reflexivity.
Defined.

(* ================================================================== *)
(** * Further properties: reconstruct_path *)

Lemma reconstruct_loop_none_node fuel G acc :
  reconstruct_loop fuel G None acc = Some acc.
Proof. now destruct fuel. Qed.

Lemma reconstruct_loop_shape G :
  forall fuel cur acc l,
    reconstruct_loop fuel G cur acc = Some l ->
    follows_parents G cur (rev acc) ->
    follows_parents G None (rev l)
    /\ (List.length l <= List.length acc + fuel)%nat
    /\ (exists c, l = acc ++ c /\ forall x, cur = Some x -> hd_error c = Some x)
    /\ forall fuel', (fuel <= fuel')%nat -> reconstruct_loop fuel' G cur acc = Some l.
Proof.
  induction fuel as [|fuel IH]; intros cur acc l Hl Hacc.
  - destruct cur as [x|]; [discriminate|]. injection Hl as <-.
    split; [exact Hacc|]. split; [lia|]. split.
    + exists []. split; [now rewrite app_nil_r|discriminate].
    + intros fuel' _. apply reconstruct_loop_none_node.
  - destruct cur as [x|].
    + cbn [reconstruct_loop] in Hl.
      destruct (nodes_get x (Graph.nodes G)) as [n|] eqn:En; [|discriminate].
      destruct (IH _ _ _ Hl) as (Hf & Hlen & (c & -> & Hc) & Hmono).
      { rewrite rev_app_distr. cbn [rev app follows_parents].
        split; [congruence|]. split; [|exact Hacc].
        unfold node_parent. now rewrite En. }
      split; [exact Hf|].
      split; [rewrite !length_app in *; cbn [List.length] in *; lia|].
      split.
      * exists (x :: c). split; [now rewrite <- app_assoc|]. now intros y [= ->].
      * intros fuel' Hle. destruct fuel' as [|fuel']; [lia|].
        cbn [reconstruct_loop]. rewrite En. apply Hmono. lia.
    + rewrite reconstruct_loop_none_node in Hl. injection Hl as <-.
      split; [exact Hacc|]. split; [lia|]. split.
      * exists []. split; [now rewrite app_nil_r|discriminate].
      * intros fuel' _. apply reconstruct_loop_none_node.
Qed.

(** X11.  A path returned by [reconstruct_path(node)] ends with [node],
    starts with a node that has no parent, and each of its nodes is the
    parent of the next; it has at most as many nodes as the loop was given
    iterations, and more iterations return the same path. *)
Theorem reconstruct_path_follows_parents :
  forall (fuel : nat) (G : Graph.t) (node : string) (p : list string),
    reconstruct_path fuel G node = Found p ->
    follows_parents G None p
    /\ last p node = node /\ p <> []
    /\ (List.length p <= fuel)%nat
    /\ forall fuel', (fuel <= fuel')%nat -> reconstruct_path fuel' G node = Found p.
Proof.
  intros fuel G node p. unfold reconstruct_path.
  destruct (reconstruct_loop fuel G (Some node) []) as [l|] eqn:El; [|discriminate].
  intros [= <-].
  destruct (reconstruct_loop_shape G _ _ _ _ El I) as (Hf & Hlen & (c & Hc & Hhd) & Hmono).
  cbn [app] in Hc. subst c. specialize (Hhd node eq_refl).
  destruct l as [|x l]; [discriminate|]. injection Hhd as ->.
  split; [exact Hf|]. split; [cbn [rev]; apply last_last|].
  split; [cbn [rev]; now destruct (rev l)|].
  split; [rewrite length_rev; simpl in *; lia|].
  intros fuel' Hle. now rewrite (Hmono fuel' Hle).
Qed.

Lemma reconstruct_path_follows_parents_witness :
  reconstruct_path 3 main_graph_after_first_search Main.C = Found [Main.A; Main.C]
  /\ follows_parents main_graph_after_first_search None [Main.A; Main.C]
  /\ last [Main.A; Main.C] Main.C = Main.C /\ [Main.A; Main.C] <> []
  /\ (List.length [Main.A; Main.C] <= 3)%nat
  /\ forall fuel', (3 <= fuel')%nat ->
       reconstruct_path fuel' main_graph_after_first_search Main.C
       = Found [Main.A; Main.C].
Proof.
  split; [vm_compute; reflexivity|].
  apply (reconstruct_path_follows_parents 3 main_graph_after_first_search Main.C).
  vm_compute. reflexivity.
Defined.

(** X12.  [reconstruct_path] comes back only if following the parents
    reaches a node without parent: if [node] belongs to a set of registered
    nodes each of which has its parent in the set, the loop is still
    running after any number of iterations. *)
Theorem reconstruct_path_parent_cycle :
  forall (G : Graph.t) (inside : string -> Prop) (node : string),
    (forall x, inside x ->
       nodes_get x (Graph.nodes G) <> None
       /\ exists y, node_parent G x = Some y /\ inside y) ->
    inside node ->
    forall fuel, reconstruct_path fuel G node = OutOfFuel.
Proof.
  intros G inside node Hclosed Hnode fuel. unfold reconstruct_path.
  assert (H : forall fuel x acc, inside x ->
                reconstruct_loop fuel G (Some x) acc = None).
  { clear node Hnode fuel. induction fuel as [|fuel IH]; intros x acc Hx; [reflexivity|].
    cbn [reconstruct_loop]. destruct (Hclosed x Hx) as (Hreg & y & Hy & Hin).
    unfold node_parent in Hy.
    destruct (nodes_get x (Graph.nodes G)) as [n|]; [|reflexivity].
    rewrite Hy. now apply IH. }
  now rewrite H.
Qed.

(** On [Loop.graph] the search from [X] for [B] leaves [B] with parent
    [A]; the search from [B] for [A] that follows gives [A] the parent [B]
    and reaches its goal, and its [reconstruct_path] then runs for ever. *)
Lemma reconstruct_path_parent_cycle_witness :
  (forall x, (x = Loop.A \/ x = Loop.B) ->
     nodes_get x (Graph.nodes Loop.after_second) <> None
     /\ exists y, node_parent Loop.after_second x = Some y
                  /\ (y = Loop.A \/ y = Loop.B))
  /\ fst (astar_search Main.zero_heuristic Main.insertion_order 10
            Loop.X Loop.B Loop.graph) = Found [Loop.X; Loop.A; Loop.B]
  /\ (forall fuel, reconstruct_path fuel Loop.after_second Loop.A = OutOfFuel).
Proof.
  assert (H : forall x, (x = Loop.A \/ x = Loop.B) ->
     nodes_get x (Graph.nodes Loop.after_second) <> None
     /\ exists y, node_parent Loop.after_second x = Some y
                  /\ (y = Loop.A \/ y = Loop.B)).
  { intros x [->| ->].
    - split; [discriminate|]. exists Loop.B. split; [reflexivity|now right].
    - split; [discriminate|]. exists Loop.A. split; [reflexivity|now left]. }
  split; [exact H|]. split; [vm_compute; reflexivity|].
  apply (reconstruct_path_parent_cycle Loop.after_second
           (fun x => x = Loop.A \/ x = Loop.B) Loop.A H).
  now left.
Defined.

(* ================================================================== *)
(** * Further properties: parent pointers run along edges *)

Lemma fresh_parents_ok G : fresh_scratch G -> parents_ok G G.
Proof.
  intros Hfresh u n p Hu Hp.
  destruct (Hfresh n (nodes_get_in _ _ _ Hu)) as (_ & _ & Hnone). congruence.
Qed.

Lemma parents_ok_same_nodes G0 G G1 :
  Graph.nodes G1 = Graph.nodes G -> parents_ok G0 G -> parents_ok G0 G1.
Proof. unfold parents_ok. intros ->. auto. Qed.

Lemma parents_ok_routes G0 G0' G :
  (forall u v, edge_route G0' u v = edge_route G0 u v) ->
  parents_ok G0 G -> parents_ok G0' G.
Proof.
  intros He H u n p Hu Hp. rewrite He. exact (H u n p Hu Hp).
Qed.

Lemma nodes_put_registered n ns k :
  nodes_get k ns <> None -> nodes_get k (nodes_put n ns) <> None.
Proof.
  intros Hk. rewrite nodes_get_put.
  destruct (String.eqb k (Node.name n)); [discriminate|exact Hk].
Qed.

Lemma astar_search_keeps_routes haversine set_iter fuel start goal G :
  forall u v,
    edge_route (snd (astar_search haversine set_iter fuel start goal G)) u v
    = edge_route G u v.
Proof.
  unfold astar_search.
  destruct (nodes_get start (Graph.nodes G)) as [sn|]; [|reflexivity].
  destruct (nodes_get goal (Graph.nodes G)) as [gn|]; [|reflexivity].
  destruct (search_loop_kept haversine set_iter gn fuel (initial_state haversine sn gn G))
    as (_ & Hedges & _).
  intros u v. now rewrite Hedges.
Qed.

Section Parents.
Variable haversine : Location -> Location -> Z.
Variable set_iter : list string -> list string.
Variable G0 : Graph.t.

Lemma improve_parents goal_node cur t nb nbn G :
  parents_ok G0 G ->
  nodes_get nb (Graph.nodes G) = Some nbn ->
  nodes_get cur (Graph.nodes G) <> None ->
  edge_route G0 cur nb <> None ->
  parents_ok G0 (improve haversine goal_node cur t nbn G).
Proof.
  intros Hok Enb Hcur Hedge u n p.
  pose proof (nodes_get_name _ _ _ Enb) as Hname.
  unfold improve. cbv zeta. cbn [Graph.nodes].
  rewrite nodes_get_put. cbn [Node.name].
  destruct (String.eqb u (Node.name nbn)) eqn:E.
  - apply String.eqb_eq in E. intros [= <-]. cbn [Node.parent].
    intros [= <-]. subst u. rewrite Hname.
    split; [exact Hedge|now apply nodes_put_registered].
  - intros Hu Hp. destruct (Hok u n p Hu Hp) as [H1 H2].
    split; [exact H1|now apply nodes_put_registered].
Qed.

Lemma expand_parents goal_node cur nbs :
  forall G open o G' open',
    expand haversine goal_node cur nbs G open = (o, G', open') ->
    (forall u v, edge_route G u v = edge_route G0 u v) ->
    parents_ok G0 G -> parents_ok G0 G'.
Proof.
  induction nbs as [|nb rest IH]; intros G open o G' open' Hex He Hok.
  - cbn in Hex. now injection Hex as _ <- _.
  - cbn [expand] in Hex.
    destruct (nodes_get nb (Graph.nodes G)) as [nbn|] eqn:Enb;
      [|now injection Hex as _ <- _].
    destruct (nodes_get cur (Graph.nodes G)) as [cn|] eqn:Ecur;
      [|now injection Hex as _ <- _].
    destruct (Graph.get_route cn nbn G) as [[r|] G1] eqn:Er.
    + apply get_route_spec in Er. destruct Er as [-> Hr].
      rewrite (nodes_get_name _ _ _ Ecur), (nodes_get_name _ _ _ Enb), He in Hr.
      cbv zeta in Hex. eapply IH; [exact Hex| |].
      * intros u v. rewrite <- He. now destruct (num_ltb _ (Node.g nbn)).
      * destruct (num_ltb _ (Node.g nbn)); [|exact Hok].
        eapply improve_parents; try eassumption; congruence.
    + injection Hex as _ <- _.
      destruct (get_route_keeps _ _ _ _ _ Er) as [Hn _].
      now apply (parents_ok_same_nodes G0 G).
Qed.

(** The path an iteration returns was read off the graph it returns. *)
Lemma iteration_parents fuel goal_node s :
  (forall u v, edge_route (st_graph s) u v = edge_route G0 u v) ->
  parents_ok G0 (st_graph s) ->
  match iteration haversine set_iter fuel goal_node s with
  | Return o G' =>
      parents_ok G0 G'
      /\ forall p, o = Found p ->
           reconstruct_path fuel G' (Node.name goal_node) = Found p
  | Continue s' =>
      parents_ok G0 (st_graph s')
      /\ forall u v, edge_route (st_graph s') u v = edge_route G0 u v
  end.
Proof.
  intros He Hok. unfold iteration.
  destruct (py_min (node_f (st_graph s)) (set_iter (open_set s))) as [cur|];
    [|split; [exact Hok|discriminate]].
  destruct (String.eqb cur (Node.name goal_node)) eqn:Eg.
  { apply String.eqb_eq in Eg. subst cur. split; [exact Hok|auto]. }
  destruct (nodes_get cur (Graph.nodes (st_graph s))) as [cn|];
    [|split; [exact Hok|discriminate]].
  destruct (Graph.get_neighbors cn (st_graph s)) as [nbs G1] eqn:En.
  destruct (get_neighbors_spec _ _ _ _ En) as (Hn1 & He1 & _).
  assert (He1' : forall u v, edge_route G1 u v = edge_route G0 u v)
    by (intros u v; now rewrite He1).
  pose proof (parents_ok_same_nodes G0 _ _ Hn1 Hok) as Hok1.
  destruct (expand haversine goal_node cur nbs G1 _) as [[[k|] G2] open2] eqn:Ex;
    pose proof (expand_parents _ _ _ _ _ _ _ _ Ex He1' Hok1) as Hok2.
  - split; [exact Hok2|discriminate].
  - split; [exact Hok2|]. cbn [st_graph].
    destruct (expand_kept _ _ _ _ _ _ _ _ _ Ex) as (_ & He2 & _).
    intros u v. now rewrite He2.
Qed.

Lemma search_loop_parents goal_node fuel :
  forall s,
    (forall u v, edge_route (st_graph s) u v = edge_route G0 u v) ->
    parents_ok G0 (st_graph s) ->
    parents_ok G0 (snd (search_loop haversine set_iter fuel goal_node s))
    /\ forall p, fst (search_loop haversine set_iter fuel goal_node s) = Found p ->
         exists fuel',
           reconstruct_path fuel'
             (snd (search_loop haversine set_iter fuel goal_node s))
             (Node.name goal_node) = Found p.
Proof.
  induction fuel as [|fuel IH]; intros s He Hok.
  - split; [exact Hok|discriminate].
  - cbn [search_loop].
    pose proof (iteration_parents fuel goal_node s He Hok) as Hit.
    destruct (iteration haversine set_iter fuel goal_node s) as [o G|s'].
    + destruct Hit as [H1 H2]. split; [exact H1|]. cbn [fst snd].
      intros p Hp. exists fuel. now apply H2.
    + destruct Hit as [H1 H2]. now apply IH.
Qed.
End Parents.

Lemma follows_parents_is_path G0 G :
  parents_ok G0 G ->
  forall p prev, follows_parents G prev p -> is_path G0 p = true.
Proof.
  intros Hok. induction p as [|x p IH]; intros prev Hp; [reflexivity|].
  destruct Hp as (_ & _ & Hrest). destruct p as [|y p]; [reflexivity|].
  cbn [is_path]. pose proof Hrest as (Hy & Hpar & _).
  unfold node_parent in Hpar.
  destruct (nodes_get y (Graph.nodes G)) as [n|] eqn:En; [|congruence].
  destruct (Hok y n x En Hpar) as [Hedge _].
  destruct (edge_route G0 x y); [|congruence].
  exact (IH _ Hrest).
Qed.

Lemma initial_parents_ok haversine G start sn gn :
  parents_ok G G -> nodes_get start (Graph.nodes G) = Some sn ->
  parents_ok G (st_graph (initial_state haversine sn gn G)).
Proof.
  intros Hok Es u n p. pose proof (nodes_get_name _ _ _ Es) as Hsn.
  unfold initial_state. cbv zeta. cbn [st_graph Graph.nodes].
  rewrite nodes_get_put. cbn [Node.name]. rewrite Hsn.
  destruct (String.eqb u start) eqn:E.
  - apply String.eqb_eq in E. subst u. intros [= <-]. cbn [Node.parent].
    intros Hp. destruct (Hok start sn p Es Hp) as [H1 H2].
    split; [exact H1|now apply nodes_put_registered].
  - intros Hu Hp. destruct (Hok u n p Hu Hp) as [H1 H2].
    split; [exact H1|now apply nodes_put_registered].
Qed.

(** X13.  On a graph whose parent pointers run along edges (a graph as
    built, which has none, or one left by any number of earlier searches,
    since a search keeps this property), every node sequence that
    [astar_search] returns ends at the goal and steps from node to node
    along edges of the graph only, whatever the heuristic and the costs.
    On a reused graph the sequence need not begin at the start. *)
Theorem astar_search_path_follows_edges :
  forall (haversine : Location -> Location -> Z)
         (set_iter : list string -> list string)
         (fuel : nat) (start goal : string) (G : Graph.t),
    parents_ok G G ->
    parents_ok (snd (astar_search haversine set_iter fuel start goal G))
               (snd (astar_search haversine set_iter fuel start goal G))
    /\ forall p,
         fst (astar_search haversine set_iter fuel start goal G) = Found p ->
         is_path G p = true /\ last p goal = goal /\ p <> [].
Proof.
  intros haversine set_iter fuel start goal G Hok.
  pose proof (astar_search_keeps_routes haversine set_iter fuel start goal G)
    as Hroutes.
  unfold astar_search in *.
  destruct (nodes_get start (Graph.nodes G)) as [sn|] eqn:Es;
    [|split; [exact Hok|discriminate]].
  destruct (nodes_get goal (Graph.nodes G)) as [gn|] eqn:Eg;
    [|split; [exact Hok|discriminate]].
  pose proof (nodes_get_name _ _ _ Es) as Hsn.
  pose proof (nodes_get_name _ _ _ Eg) as Hgn.
  set (s0 := initial_state haversine sn gn G) in *.
  pose proof (initial_parents_ok haversine G start sn gn Hok Es) as Hok0.
  fold s0 in Hok0.
  destruct (search_loop_parents haversine set_iter G gn fuel s0
              (fun u v => eq_refl) Hok0) as [Hok' Hfound].
  split.
  - eapply parents_ok_routes; [|exact Hok']. exact Hroutes.
  - intros p Hp. destruct (Hfound p Hp) as (fuel' & Hrec).
    unfold reconstruct_path in Hrec.
    destruct (reconstruct_loop fuel' _ (Some (Node.name gn)) []) as [l|] eqn:El;
      [|discriminate].
    injection Hrec as <-.
    destruct (reconstruct_loop_shape _ _ _ _ _ El I) as (Hf & _ & (c & Hc & Hhd) & _).
    cbn [app] in Hc. subst c. specialize (Hhd _ eq_refl).
    destruct l as [|x l]; [discriminate|]. injection Hhd as ->.
    split; [exact (follows_parents_is_path G _ Hok' _ _ Hf)|].
    rewrite Hgn. split; [cbn [rev]; apply last_last|].
    cbn [rev]. now destruct (rev l).
Qed.

Lemma astar_search_path_follows_edges_witness :
  parents_ok main_graph_after_first_search main_graph_after_first_search
  /\ fst (astar_search Main.haversine Main.insertion_order 10
            Main.B Main.C main_graph_after_first_search)
     = Found [Main.A; Main.B; Main.C]
  /\ is_path main_graph_after_first_search [Main.A; Main.B; Main.C] = true
  /\ last [Main.A; Main.B; Main.C] Main.C = Main.C
  /\ [Main.A; Main.B; Main.C] <> [].
Proof.
  assert (H : parents_ok main_graph_after_first_search main_graph_after_first_search).
  { apply (astar_search_path_follows_edges Main.haversine Main.insertion_order 10
             Main.A Main.C Main.graph).
    apply fresh_parents_ok, constructed_fresh, main_graph_constructed. }
  split; [exact H|]. split; [vm_compute; reflexivity|].
  apply (astar_search_path_follows_edges Main.haversine Main.insertion_order 10
           Main.B Main.C main_graph_after_first_search H).
  vm_compute. reflexivity.
Defined.

(* ================================================================== *)
(** * Further properties: the search ends on an acyclic graph *)

Section Termination.
Local Open Scope nat_scope.
Variable haversine : Location -> Location -> Z.
Variable set_iter : list string -> list string.
Variable G0 : Graph.t.
Variable d : nat.
Variable rank : string -> nat.
Variable R : nat.
Hypothesis Hperm : forall s, Permutation (set_iter s) s.
Hypothesis Hrank : ranked rank R G0.

Lemma weight_pos v : 1 <= Nat.pow (S d) (rank v).
Proof.
  pose proof (Nat.pow_nonzero (S d) (rank v)). lia.
Qed.

Lemma weight_nil : open_weight d rank [] = 0.
Proof. reflexivity. Qed.

Lemma weight_cons x o :
  open_weight d rank (x :: o) = Nat.pow (S d) (rank x) + open_weight d rank o.
Proof. reflexivity. Qed.

Lemma weight_app o1 o2 :
  open_weight d rank (o1 ++ o2) = open_weight d rank o1 + open_weight d rank o2.
Proof.
  induction o1 as [|x o1 IH]; [reflexivity|].
  cbn [app]. rewrite !weight_cons, IH. lia.
Qed.

Lemma open_weight_add x o :
  open_weight d rank (set_add x o) <= open_weight d rank o + Nat.pow (S d) (rank x).
Proof.
  unfold set_add. destruct (set_mem x o); [lia|].
  rewrite weight_app, weight_cons, weight_nil. lia.
Qed.

Lemma set_remove_cons x y o :
  set_remove x (y :: o)
  = if String.eqb y x then set_remove x o else y :: set_remove x o.
Proof. unfold set_remove. cbn [filter]. now destruct (String.eqb y x). Qed.

Lemma weight_remove_le x o :
  open_weight d rank (set_remove x o) <= open_weight d rank o.
Proof.
  induction o as [|y o IH]; [reflexivity|].
  rewrite set_remove_cons. destruct (String.eqb y x); rewrite ?weight_cons; lia.
Qed.

Lemma open_weight_remove x o :
  In x o ->
  open_weight d rank (set_remove x o) + Nat.pow (S d) (rank x) <= open_weight d rank o.
Proof.
  induction o as [|y o IH]; [intros []|].
  intros Hin. rewrite set_remove_cons, weight_cons.
  destruct (String.eqb y x) eqn:E.
  - apply String.eqb_eq in E. subst y. pose proof (weight_remove_le x o). lia.
  - destruct Hin as [->|Hin]; [rewrite String.eqb_refl in E; discriminate|].
    specialize (IH Hin). rewrite weight_cons. lia.
Qed.

Lemma expand_weight goal_node cur nbs :
  forall G open G' open',
    expand haversine goal_node cur nbs G open = (None, G', open') ->
    Graph.edges G' = Graph.edges G
    /\ open_weight d rank open' <= open_weight d rank open + open_weight d rank nbs.
Proof.
  induction nbs as [|nb rest IH]; intros G open G' open' Hex.
  - cbn in Hex. injection Hex as <- <-. split; [reflexivity|].
    rewrite weight_nil. lia.
  - cbn [expand] in Hex.
    destruct (nodes_get nb (Graph.nodes G)) as [nbn|]; [|discriminate].
    destruct (nodes_get cur (Graph.nodes G)) as [cn|]; [|discriminate].
    destruct (Graph.get_route cn nbn G) as [[r|] G1] eqn:Er; [|discriminate].
    apply get_route_spec in Er. destruct Er as [-> _].
    cbv zeta in Hex. apply IH in Hex. destruct Hex as [He Hw]. split.
    + rewrite He. now destruct (num_ltb _ (Node.g nbn)).
    + pose proof (open_weight_add nb open). rewrite weight_cons. lia.
Qed.

(** The neighbours of a node of rank [r] weigh less than the node. *)
Lemma neighbours_weight r nbs :
  (forall w, In w nbs -> rank w < r) -> List.length nbs <= d ->
  open_weight d rank nbs < Nat.pow (S d) r.
Proof.
  intros Hlt Hlen. destruct r as [|r].
  - destruct nbs as [|w nbs]; [cbn; lia|]. specialize (Hlt w (or_introl eq_refl)). lia.
  - assert (H : open_weight d rank nbs <= List.length nbs * Nat.pow (S d) r).
    { clear Hlen. induction nbs as [|w nbs IH]; [rewrite weight_nil; lia|].
      rewrite weight_cons. cbn [List.length].
      assert (Hw : Nat.pow (S d) (rank w) <= Nat.pow (S d) r).
      { apply Nat.pow_le_mono_r; [lia|]. specialize (Hlt w (or_introl eq_refl)). lia. }
      assert (IH' := IH (fun v Hv => Hlt v (or_intror Hv))). lia. }
    cbn [Nat.pow].
    pose proof (Nat.pow_nonzero (S d) r).
    assert (List.length nbs * Nat.pow (S d) r <= d * Nat.pow (S d) r)
      by (apply Nat.mul_le_mono_r; exact Hlen).
    lia.
Qed.

Lemma reconstruct_loop_ends G :
  parents_ok G0 G ->
  forall fuel x acc,
    nodes_get x (Graph.nodes G) <> None -> R - rank x < fuel ->
    reconstruct_loop fuel G (Some x) acc <> None.
Proof.
  intros Hok. destruct Hrank as [Hfall Hbound].
  induction fuel as [|fuel IH]; intros x acc Hx Hlt; [lia|].
  cbn [reconstruct_loop].
  destruct (nodes_get x (Graph.nodes G)) as [n|] eqn:En; [|congruence].
  destruct (Node.parent n) as [p|] eqn:Ep.
  - destruct (Hok x n p En Ep) as [Hedge Hreg].
    apply IH; [exact Hreg|]. specialize (Hfall p x Hedge).
    pose proof (Hbound p). lia.
  - rewrite reconstruct_loop_none_node. discriminate.
Qed.

Lemma iteration_ends fuel goal_node s :
  loop_ok G0 d goal_node s -> R < fuel ->
  match iteration haversine set_iter fuel goal_node s with
  | Return o _ => o <> OutOfFuel
  | Continue s' =>
      loop_ok G0 d goal_node s'
      /\ open_weight d rank (open_set s') < open_weight d rank (open_set s)
  end.
Proof.
  intros (He & Hok & Hdeg & Hgoal) Hfuel. unfold iteration.
  destruct (py_min (node_f (st_graph s)) (set_iter (open_set s))) as [cur|] eqn:Emin;
    [|discriminate].
  apply py_min_spec in Emin. destruct Emin as [Hin _].
  apply (Permutation_in _ (Hperm _)) in Hin.
  destruct (String.eqb cur (Node.name goal_node)) eqn:Eg.
  { apply String.eqb_eq in Eg. subst cur. unfold reconstruct_path.
    pose proof (reconstruct_loop_ends _ Hok fuel (Node.name goal_node) [] Hgoal) as Hend.
    destruct (reconstruct_loop fuel (st_graph s) (Some (Node.name goal_node)) []);
      [discriminate|].
    exfalso. apply Hend; [lia|reflexivity]. }
  destruct (nodes_get cur (Graph.nodes (st_graph s))) as [cn|] eqn:Ecur; [|discriminate].
  pose proof (nodes_get_name _ _ _ Ecur) as Hcn.
  destruct (Graph.get_neighbors cn (st_graph s)) as [nbs G1] eqn:En.
  destruct (get_neighbors_spec _ _ _ _ En) as (Hn1 & He1 & _).
  assert (Hdeg1 : out_degree_le d G1 /\ List.length nbs <= d).
  { revert En. unfold Graph.get_neighbors.
    destruct (dict_get (Node.name cn) (Graph.edges (st_graph s))) as [dct|] eqn:Ed;
      intros [= <- <-].
    - split; [exact Hdeg|]. unfold dict_keys. rewrite length_map. exact (Hdeg _ _ Ed).
    - split; [|simpl; lia]. unfold out_degree_le. cbn [Graph.edges].
      apply (dict_set_values (fun dct => List.length dct <= d)); [simpl; lia|exact Hdeg]. }
  destruct Hdeg1 as [Hdeg1 Hlen].
  destruct (expand haversine goal_node cur nbs G1 (set_remove cur (open_set s)))
    as [[[k|] G2] open2] eqn:Ex; [discriminate|].
  destruct (expand_weight _ _ _ _ _ _ _ Ex) as [Hedges2 Hw].
  destruct (expand_kept _ _ _ _ _ _ _ _ _ Ex) as (Hids2 & He2 & _).
  assert (He1' : forall u v, edge_route G1 u v = edge_route G0 u v)
    by (intros u v; now rewrite He1).
  split.
  - split; [intros u v; cbn [st_graph]; now rewrite He2|].
    split; [exact (expand_parents haversine G0 _ _ _ _ _ _ _ _ Ex He1'
                     (parents_ok_same_nodes G0 _ _ Hn1 Hok))|].
    split; [unfold out_degree_le; cbn [st_graph]; rewrite Hedges2; exact Hdeg1|].
    cbn [st_graph]. intros Hnone.
    apply (node_ids_registered G1 G2 _ Hids2) in Hnone. rewrite Hn1 in Hnone.
    contradiction.
  - cbn [open_set].
    pose proof (open_weight_remove cur (open_set s) Hin) as Hrem.
    assert (Hnb : open_weight d rank nbs < Nat.pow (S d) (rank cur)).
    { apply neighbours_weight; [|exact Hlen].
      intros w Hw'. destruct (get_neighbors_edges _ _ _ _ _ En Hw') as (r & Hr).
      rewrite Hcn, He in Hr. destruct Hrank as [Hfall _]. apply Hfall. congruence. }
    lia.
Qed.

Lemma search_loop_ends goal_node fuel :
  forall s,
    loop_ok G0 d goal_node s ->
    open_weight d rank (open_set s) + R + 2 <= fuel ->
    fst (search_loop haversine set_iter fuel goal_node s) <> OutOfFuel.
Proof.
  induction fuel as [|fuel IH]; intros s Hs Hfuel; [lia|].
  cbn [search_loop].
  assert (HR : R < fuel) by lia.
  pose proof (iteration_ends fuel goal_node s Hs HR) as Hit.
  destruct (iteration haversine set_iter fuel goal_node s) as [o G|s']; [exact Hit|].
  destruct Hit as [Hs' Hlt]. apply IH; [exact Hs'|lia].
Qed.
End Termination.

(** X14.  On a graph without cycles the search ends.  Let [rank] fall
    along every edge and stay below [R], let no node have more than [d]
    outgoing edges, and let the parent pointers run along edges (as in a
    graph just built, or left by earlier searches).  Then with
    [(d + 1) ^ rank start + R + 2] units of fuel or more, [astar_search]
    returns a path, returns [None] or raises: it is never cut off,
    whatever the heuristic, the costs and the order of set iteration. *)
Theorem astar_search_terminates_without_cycle :
  forall (haversine : Location -> Location -> Z)
         (set_iter : list string -> list string)
         (d : nat) (rank : string -> nat) (R : nat)
         (fuel : nat) (start goal : string) (G : Graph.t),
    (forall s, Permutation (set_iter s) s) ->
    parents_ok G G ->
    out_degree_le d G ->
    ranked rank R G ->
    (Nat.pow (S d) (rank start) + R + 2 <= fuel)%nat ->
    fst (astar_search haversine set_iter fuel start goal G) <> OutOfFuel.
Proof.
  intros haversine set_iter d rank R fuel start goal G Hperm Hok Hdeg Hrank Hfuel.
  unfold astar_search.
  destruct (nodes_get start (Graph.nodes G)) as [sn|] eqn:Es; [|discriminate].
  destruct (nodes_get goal (Graph.nodes G)) as [gn|] eqn:Eg; [|discriminate].
  apply (search_loop_ends haversine set_iter G d rank R Hperm Hrank).
  - split; [intros u v; reflexivity|].
    split; [now apply initial_parents_ok with (start := start)|].
    split; [exact Hdeg|].
    unfold initial_state. cbv zeta. cbn [st_graph Graph.nodes].
    apply nodes_put_registered. rewrite (nodes_get_name _ _ _ Eg). congruence.
  - unfold initial_state. cbv zeta. cbn [open_set].
    rewrite (nodes_get_name _ _ _ Es).
    unfold open_weight. cbn [map list_sum fold_right]. lia.
Qed.

Lemma main_graph_out_degree : out_degree_le 2 Main.graph.
Proof.
  assert (E : Graph.edges Main.graph
              = [(Main.A, [(Main.B, Main.train_AB); (Main.C, Main.flight_AC)]);
                 (Main.B, [(Main.C, Main.train_BC)])]) by reflexivity.
  intros k dct. rewrite E. cbn [dict_get].
  destruct (String.eqb Main.A k); [intros [= <-]; simpl; lia|].
  destruct (String.eqb Main.B k); [intros [= <-]; simpl; lia|].
  discriminate.
Qed.

Lemma main_graph_ranked : ranked main_rank 2 Main.graph.
Proof.
  split.
  - intros u v. unfold Main.graph. rewrite !edge_route_add_edge.
    destruct (String.eqb u Main.A) eqn:Ea; destruct (String.eqb v Main.C) eqn:Ec;
      destruct (String.eqb u Main.B) eqn:Eb; destruct (String.eqb v Main.B) eqn:Evb;
      cbn [andb];
      repeat match goal with H : String.eqb _ _ = true |- _ =>
               apply String.eqb_eq in H; subst end;
      try discriminate; intros H; try (now exfalso; apply H);
      vm_compute; lia.
  - intros u. unfold main_rank.
    destruct (String.eqb u Main.A); [lia|]. destruct (String.eqb u Main.B); lia.
Qed.

(** The program's graph has no cycle: thirteen iterations are enough for
    any search on it. *)
Lemma astar_search_terminates_without_cycle_witness :
  (forall s, Permutation (Main.insertion_order s) s)
  /\ parents_ok Main.graph Main.graph
  /\ out_degree_le 2 Main.graph
  /\ ranked main_rank 2 Main.graph
  /\ (Nat.pow 3 (main_rank Main.A) + 2 + 2 <= 13)%nat
  /\ fst (astar_search Main.haversine Main.insertion_order 13
            Main.A Main.C Main.graph) <> OutOfFuel.
Proof.
  split; [intros s; apply Permutation_refl|].
  split; [apply fresh_parents_ok, constructed_fresh, main_graph_constructed|].
  split; [exact main_graph_out_degree|].
  split; [exact main_graph_ranked|].
  split; [vm_compute; lia|].
  apply (astar_search_terminates_without_cycle Main.haversine Main.insertion_order
           2 main_rank 2 13 Main.A Main.C Main.graph).
  - intros s. apply Permutation_refl.
  - apply fresh_parents_ok, constructed_fresh, main_graph_constructed.
  - exact main_graph_out_degree.
  - exact main_graph_ranked.
  - vm_compute. lia.
Defined.

(* ================================================================== *)
(** * Further properties: the path returned under any heuristic *)

Section AnyHeuristic.
Variable haversine : Location -> Location -> Z.
Variable set_iter : list string -> list string.
Variable G0 : Graph.t.
Variables start goal : string.
Hypothesis Hperm : forall s, Permutation (set_iter s) s.
Hypothesis Hcost : nonneg_costs G0.

Lemma improve_any goal_node G cur nb nbn xc r :
  tree_any G0 start G ->
  nodes_get nb (Graph.nodes G) = Some nbn ->
  node_g G cur = Fin xc ->
  edge_route G0 cur nb = Some r ->
  num_ltb (Fin (xc + TransportRoute.base_cost r)) (Node.g nbn) = true ->
  tree_any G0 start
    (improve haversine goal_node cur (Fin (xc + TransportRoute.base_cost r)) nbn G)
  /\ node_g (improve haversine goal_node cur (Fin (xc + TransportRoute.base_cost r)) nbn G)
       cur = Fin xc
  /\ g_decreases G
       (improve haversine goal_node cur (Fin (xc + TransportRoute.base_cost r)) nbn G)
  /\ node_g (improve haversine goal_node cur (Fin (xc + TransportRoute.base_cost r)) nbn G)
       nb = Fin (xc + TransportRoute.base_cost r).
Proof.
  intros [[Hs Hsp] Htree] Enb Hcur Hr Hlt.
  pose proof (nodes_get_name _ _ _ Enb) as Hname.
  pose proof (Hcost _ _ _ Hr) as Hc.
  set (c := TransportRoute.base_cost r) in *.
  destruct (node_g_get _ _ _ Hcur) as (cn & Ecur & Hgc).
  destruct (Htree _ _ Ecur _ Hgc) as (Hxc & _).
  assert (Hold : forall y, node_g G nb = Fin y -> xc + c < y).
  { intros y Hy. unfold node_g in Hy. rewrite Enb in Hy. rewrite Hy in Hlt.
    simpl in Hlt. now apply Z.ltb_lt in Hlt. }
  assert (Hnc : String.eqb cur nb = false).
  { apply String.eqb_neq. intros <-. specialize (Hold _ Hcur). lia. }
  assert (Hns : String.eqb start nb = false).
  { apply String.eqb_neq. intros <-. specialize (Hold _ Hs). lia. }
  set (G2 := improve haversine goal_node cur (Fin (xc + c)) nbn G).
  assert (Hg2 : forall u, node_g G2 u = if String.eqb u nb then Fin (xc + c) else node_g G u).
  { intros u. subst G2. rewrite node_g_improve. now rewrite Hname. }
  assert (Hmono : g_decreases G G2).
  { intros u x Hu. rewrite Hg2. destruct (String.eqb u nb) eqn:E.
    - apply String.eqb_eq in E. subst u. exists (xc + c). split; [reflexivity|].
      specialize (Hold _ Hu). lia.
    - exists x. split; [exact Hu|lia]. }
  split; [|split; [|split; [exact Hmono|]]].
  - split.
    + split; [now rewrite Hg2, Hns|].
      unfold node_parent, G2, improve. cbv zeta. cbn [Graph.nodes].
      rewrite nodes_get_put. cbn [Node.name]. now rewrite Hname, Hns.
    + intros u n Hu. unfold G2, improve in Hu. cbv zeta in Hu.
      cbn [Graph.nodes] in Hu. rewrite nodes_get_put in Hu.
      cbn [Node.name] in Hu. rewrite Hname in Hu.
      destruct (String.eqb u nb) eqn:E.
      * apply String.eqb_eq in E. subst u. injection Hu as <-.
        cbn [Node.g Node.parent].
        intros x [= <-]. split; [lia|]. intros _.
        exists cur, xc, r. split; [reflexivity|]. split; [now rewrite Hg2, Hnc|].
        split; [exact Hr|lia].
      * intros x Hgx. destruct (Htree _ _ Hu _ Hgx) as (Hx0 & Hpar).
        split; [exact Hx0|].
        intros Hus. destruct (Hpar Hus) as (p & y & r' & Hp & Hgp & Hr' & Hle).
        destruct (Hmono _ _ Hgp) as (y' & Hgp' & Hle').
        exists p, y', r'. repeat split; auto. lia.
  - now rewrite Hg2, Hnc.
  - now rewrite Hg2, String.eqb_refl.
Qed.

Lemma expand_any goal_node cur nbs :
  forall G open G' open' xc,
    expand haversine goal_node cur nbs G open = (None, G', open') ->
    same_edges G0 G -> tree_any G0 start G -> node_g G cur = Fin xc ->
    tree_any G0 start G' /\ g_decreases G G'
    /\ (forall v, In v open' -> In v open \/ In v nbs)
    /\ (forall nb, In nb nbs -> exists y, node_g G' nb = Fin y).
Proof.
  induction nbs as [|nb rest IH]; intros G open G' open' xc Hex Hedges Htree Hcur.
  - cbn in Hex. injection Hex as <- <-.
    split; [exact Htree|]. split; [apply g_decreases_refl|]. split; [auto|].
    intros nb [].
  - cbn [expand] in Hex.
    destruct (nodes_get nb (Graph.nodes G)) as [nbn|] eqn:Enb; [|discriminate].
    destruct (node_g_get _ _ _ Hcur) as (cn & Ecur & Hgc). rewrite Ecur in Hex.
    destruct (Graph.get_route cn nbn G) as [[r|] G1] eqn:Er; [|discriminate].
    apply get_route_spec in Er. destruct Er as [-> Hr].
    rewrite (nodes_get_name _ _ _ Ecur), (nodes_get_name _ _ _ Enb), Hedges in Hr.
    cbv zeta in Hex. unfold TransportRoute.calculate_total_cost in Hex.
    rewrite Hgc in Hex. cbn [num_add] in Hex.
    set (c := TransportRoute.base_cost r) in *.
    set (G2 := if num_ltb (Fin (xc + c)) (Node.g nbn)
               then improve haversine goal_node cur (Fin (xc + c)) nbn G
               else G) in Hex.
    assert (Hstep : same_edges G0 G2 /\ tree_any G0 start G2
                    /\ node_g G2 cur = Fin xc /\ g_decreases G G2
                    /\ exists y, node_g G2 nb = Fin y).
    { subst G2. destruct (num_ltb (Fin (xc + c)) (Node.g nbn)) eqn:Elt.
      - destruct (improve_any goal_node G cur nb nbn xc r Htree Enb Hcur Hr Elt)
          as (H2 & H3 & H4 & H5).
        split; [exact Hedges|]. split; [exact H2|]. split; [exact H3|].
        split; [exact H4|]. now exists (xc + c).
      - split; [exact Hedges|]. split; [exact Htree|]. split; [exact Hcur|].
        split; [apply g_decreases_refl|].
        unfold node_g. rewrite Enb. destruct (Node.g nbn) as [y|]; [|discriminate].
        now exists y. }
    destruct Hstep as (Hedges2 & Htree2 & Hcur2 & Hmono2 & y & Hy).
    destruct (IH _ _ _ _ _ Hex Hedges2 Htree2 Hcur2) as (Ht & Hm & Hsup & Hnbs).
    split; [exact Ht|]. split; [eapply g_decreases_trans; eassumption|]. split.
    + intros v Hv. destruct (Hsup v Hv) as [H|H].
      * apply set_add_In in H. destruct H as [->|H]; [right; now left|now left].
      * right. now right.
    + intros nb' [<-|Hin]; [|now apply Hnbs].
      destruct (Hm _ _ Hy) as (y' & Hy' & _). now exists y'.
Qed.

Lemma tree_any_same_nodes G G1 :
  Graph.nodes G1 = Graph.nodes G -> tree_any G0 start G -> tree_any G0 start G1.
Proof. unfold tree_any, node_g, node_parent. intros ->. auto. Qed.

Lemma reconstruct_loop_any G :
  tree_any G0 start G ->
  forall fuel u x acc l,
    node_g G u = Fin x ->
    reconstruct_loop fuel G (Some u) acc = Some l ->
    exists c, l = acc ++ c /\ path_from_to G0 start u (rev c)
              /\ path_cost G0 (rev c) <= x.
Proof.
  intros [[Hs Hsp] Htree]. induction fuel as [|fuel IH]; intros u x acc l Hu Hl.
  - discriminate.
  - cbn [reconstruct_loop] in Hl.
    destruct (node_g_get _ _ _ Hu) as (n & En & Hg). rewrite En in Hl.
    destruct (Htree _ _ En _ Hg) as (Hx0 & Hpar).
    destruct (string_dec u start) as [->|Hne].
    + unfold node_parent in Hsp. rewrite En in Hsp. rewrite Hsp in Hl.
      rewrite reconstruct_loop_none_node in Hl. injection Hl as <-.
      exists [start]. split; [reflexivity|]. split; [|simpl; lia].
      repeat split.
    + destruct (Hpar Hne) as (p & y & r & Hp & Hgp & Hr & Hle).
      rewrite Hp in Hl.
      destruct (IH _ _ _ _ Hgp Hl) as (c & -> & Hpath & Hcost').
      exists (u :: c). split; [now rewrite <- app_assoc|].
      cbn [rev]. split.
      * eapply path_from_to_snoc; [exact Hpath|congruence].
      * destruct Hpath as (Hhd & Hlast & _).
        destruct (rev c) as [|z P] eqn:Erev using rev_ind; [discriminate|].
        clear IHP. rewrite last_last in Hlast. subst z.
        rewrite (path_cost_snoc _ _ _ _ _ Hr). lia.
Qed.

(** What every loop state of a search on a fresh graph satisfies. *)
Lemma iteration_any fuel goal_node s :
  Node.name goal_node = goal ->
  same_edges G0 (st_graph s) -> tree_any G0 start (st_graph s) ->
  open_finite (st_graph s) (open_set s) ->
  match iteration haversine set_iter fuel goal_node s with
  | Continue s' =>
      same_edges G0 (st_graph s') /\ tree_any G0 start (st_graph s')
      /\ open_finite (st_graph s') (open_set s')
  | Return (Found p) G' =>
      path_from_to G0 start goal p
      /\ exists x, node_g G' goal = Fin x /\ path_cost G0 p <= x
  | Return _ _ => True
  end.
Proof.
  intros Hgoal Hedges Htree Hfin. unfold iteration.
  destruct (py_min (node_f (st_graph s)) (set_iter (open_set s))) as [cur|] eqn:Emin;
    [|exact I].
  apply py_min_spec in Emin. destruct Emin as [Hin _].
  apply (Permutation_in _ (Hperm _)) in Hin.
  destruct (Hfin _ Hin) as (xc & Hxc).
  rewrite Hgoal. destruct (String.eqb cur goal) eqn:Eg.
  - apply String.eqb_eq in Eg. subst cur. unfold reconstruct_path.
    destruct (reconstruct_loop fuel (st_graph s) (Some goal) []) as [l|] eqn:El;
      [|exact I].
    destruct (reconstruct_loop_any _ Htree _ _ _ _ _ Hxc El) as (c & -> & Hpath & Hle).
    cbn [app]. split; [exact Hpath|]. now exists xc.
  - destruct (nodes_get cur (Graph.nodes (st_graph s))) as [cn|] eqn:Ecur; [|exact I].
    destruct (Graph.get_neighbors cn (st_graph s)) as [nbs G1] eqn:En.
    destruct (get_neighbors_spec _ _ _ _ En) as (Hn1 & He1 & _).
    assert (Hg1 : forall u, node_g G1 u = node_g (st_graph s) u).
    { intros u. unfold node_g. now rewrite Hn1. }
    assert (Hedges1 : same_edges G0 G1) by (intros u v; now rewrite He1).
    assert (Hcur1 : node_g G1 cur = Fin xc) by now rewrite Hg1.
    destruct (expand haversine goal_node cur nbs G1 (set_remove cur (open_set s)))
      as [[[k|] G2] open2] eqn:Ex; [exact I|].
    destruct (expand_any _ _ _ _ _ _ _ _ Ex Hedges1
                (tree_any_same_nodes _ _ Hn1 Htree) Hcur1) as (Ht & Hm & Hsup & Hnbs).
    destruct (expand_kept _ _ _ _ _ _ _ _ _ Ex) as (_ & He2 & _).
    cbn [st_graph open_set].
    split; [intros u v; now rewrite He2|]. split; [exact Ht|].
    intros v Hv. destruct (Hsup v Hv) as [H|H]; [|now apply Hnbs].
    apply set_remove_In in H. destruct H as [H _].
    destruct (Hfin _ H) as (x & Hx). rewrite <- Hg1 in Hx.
    destruct (Hm _ _ Hx) as (x' & Hx' & _). now exists x'.
Qed.

Lemma search_loop_any goal_node :
  Node.name goal_node = goal ->
  forall fuel s p G',
    same_edges G0 (st_graph s) -> tree_any G0 start (st_graph s) ->
    open_finite (st_graph s) (open_set s) ->
    search_loop haversine set_iter fuel goal_node s = (Found p, G') ->
    path_from_to G0 start goal p
    /\ exists x, node_g G' goal = Fin x /\ path_cost G0 p <= x.
Proof.
  intros Hgoal. induction fuel as [|fuel IH]; intros s p G' He Ht Hf Hrun.
  - discriminate.
  - cbn [search_loop] in Hrun.
    pose proof (iteration_any fuel goal_node s Hgoal He Ht Hf) as Hit.
    destruct (iteration haversine set_iter fuel goal_node s) as [o G|s'].
    + injection Hrun as -> ->. exact Hit.
    + destruct Hit as (He' & Ht' & Hf'). eapply IH; eassumption.
Qed.

Lemma initial_any start_node goal_node :
  fresh_scratch G0 ->
  nodes_get start (Graph.nodes G0) = Some start_node ->
  tree_any G0 start (st_graph (initial_state haversine start_node goal_node G0))
  /\ open_finite (st_graph (initial_state haversine start_node goal_node G0))
       (open_set (initial_state haversine start_node goal_node G0)).
Proof.
  intros Hfresh Es.
  pose proof (nodes_get_name _ _ _ Es) as Hname.
  destruct (Hfresh _ (nodes_get_in _ _ _ Es)) as (_ & _ & Hpar).
  unfold initial_state. cbv zeta. cbn [st_graph open_set].
  rewrite Hname, Hpar.
  set (sn := Node.mk start _ _ _ _ _).
  assert (Hget : forall u, nodes_get u (nodes_put sn (Graph.nodes G0))
                           = if String.eqb u start then Some sn
                             else nodes_get u (Graph.nodes G0)).
  { intros u. now rewrite nodes_get_put. }
  assert (Hgs : node_g (Graph.mk (nodes_put sn (Graph.nodes G0)) (Graph.edges G0)) start
                = Fin 0).
  { unfold node_g. cbn [Graph.nodes]. now rewrite Hget, String.eqb_refl. }
  split.
  - split.
    + split; [exact Hgs|].
      unfold node_parent. cbn [Graph.nodes]. now rewrite Hget, String.eqb_refl.
    + intros u n. cbn [Graph.nodes]. rewrite Hget.
      destruct (String.eqb u start) eqn:E.
      * apply String.eqb_eq in E. subst u. intros [= <-] x [= <-].
        split; [lia|congruence].
      * intros Hu x Hx.
        destruct (Hfresh _ (nodes_get_in _ _ _ Hu)) as (Hg & _). congruence.
  - intros v [<-|[]]. now exists 0.
Qed.
End AnyHeuristic.

(** X15.  With any heuristic and any order of set iteration, on a graph
    built by [add_node] and [add_edge] whose edge costs are not negative, a
    node sequence returned by [astar_search] is a directed path from the
    start to the goal, and its cost is at most the [g] the goal is left
    with.  (It need not be a cheapest path: that takes a zero heuristic.) *)
Theorem astar_search_returns_path_from_start :
  forall (haversine : Location -> Location -> Z)
         (set_iter : list string -> list string)
         (fuel : nat) (start goal : string) (G G' : Graph.t) (p : list string),
    (forall s, Permutation (set_iter s) s) ->
    constructed G -> nonneg_costs G ->
    astar_search haversine set_iter fuel start goal G = (Found p, G') ->
    path_from_to G start goal p
    /\ exists x, node_g G' goal = Fin x /\ path_cost G p <= x.
Proof.
  intros haversine set_iter fuel start goal G G' p Hperm HG Hcost.
  unfold astar_search.
  destruct (nodes_get start (Graph.nodes G)) as [sn|] eqn:Es; [|discriminate].
  destruct (nodes_get goal (Graph.nodes G)) as [gn|] eqn:Eg; [|discriminate].
  destruct (initial_any haversine G start sn gn (constructed_fresh G HG) Es)
    as [Ht Hf].
  apply (search_loop_any haversine set_iter G start goal Hperm Hcost gn
           (nodes_get_name _ _ _ Eg) fuel _ p G'); auto.
  intros u v. reflexivity.
Qed.

Lemma astar_search_returns_path_from_start_witness :
  (forall s, Permutation (Main.insertion_order s) s)
  /\ constructed Main.graph /\ nonneg_costs Main.graph
  /\ astar_search Main.haversine Main.insertion_order 10 Main.A Main.C Main.graph
     = (Found [Main.A; Main.C], main_graph_after_first_search)
  /\ path_from_to Main.graph Main.A Main.C [Main.A; Main.C]
  /\ exists x, node_g main_graph_after_first_search Main.C = Fin x
               /\ path_cost Main.graph [Main.A; Main.C] <= x.
Proof.
  split; [intros s; apply Permutation_refl|].
  split; [exact main_graph_constructed|].
  split; [exact main_graph_nonneg_costs|].
  split; [vm_compute; reflexivity|].
  apply (astar_search_returns_path_from_start Main.haversine Main.insertion_order 10
           Main.A Main.C Main.graph main_graph_after_first_search [Main.A; Main.C]).
  - intros s. apply Permutation_refl.
  - exact main_graph_constructed.
  - exact main_graph_nonneg_costs.
  - vm_compute. reflexivity.
Defined.

(* ================================================================== *)
(** * Further properties: find_nearest_stations and plan_trip *)

Section SortedFacts.
Context {A : Type}.
Variable key : A -> Z.

Lemma insert_by_perm x l : Permutation (insert_by key x l) (x :: l).
Proof.
  induction l as [|y l IH]; cbn [insert_by]; [reflexivity|].
  destruct (key x <=? key y); [reflexivity|].
  rewrite IH. apply perm_swap.
Qed.

Lemma sorted_perm l : Permutation (sorted key l) l.
Proof.
  unfold sorted. induction l as [|x l IH]; cbn [fold_right]; [reflexivity|].
  rewrite insert_by_perm. now constructor.
Qed.

Lemma insert_by_sorted x l :
  StronglySorted (fun a b => key a <= key b) l ->
  StronglySorted (fun a b => key a <= key b) (insert_by key x l).
Proof.
  induction 1 as [|y l Hs IH Hall]; cbn [insert_by].
  - repeat constructor.
  - destruct (key x <=? key y) eqn:E.
    + apply Z.leb_le in E. constructor; [now constructor|].
      constructor; [exact E|]. eapply Forall_impl; [|exact Hall].
      intros a Ha. cbn beta in *. lia.
    + apply Z.leb_gt in E. constructor; [exact IH|].
      apply (Permutation_Forall (Permutation_sym (insert_by_perm x l))).
      constructor; [lia|exact Hall].
Qed.

Lemma sorted_sorted l : StronglySorted (fun a b => key a <= key b) (sorted key l).
Proof.
  unfold sorted. induction l as [|x l IH]; cbn [fold_right]; [constructor|].
  now apply insert_by_sorted.
Qed.

Lemma strongly_sorted_app (l1 l2 : list A) :
  StronglySorted (fun a b => key a <= key b) (l1 ++ l2) ->
  StronglySorted (fun a b => key a <= key b) l1
  /\ forall s t, In s l1 -> In t l2 -> key s <= key t.
Proof.
  induction l1 as [|x l1 IH]; cbn [app]; intros H.
  - split; [constructor|intros s t []].
  - apply StronglySorted_inv in H. destruct H as [Hs Hall].
    destruct (IH Hs) as [H1 H2]. apply Forall_app in Hall. destruct Hall as [Ha1 Ha2].
    split; [now constructor|].
    intros s t [<-|Hin] Ht; [|now apply H2].
    rewrite Forall_forall in Ha2. now apply Ha2.
Qed.

Lemma firstn_sorted_nearest k l : nearest_by key k l (firstn k (sorted key l)).
Proof.
  pose proof (sorted_sorted l) as Hs. pose proof (sorted_perm l) as Hp.
  rewrite <- (firstn_skipn k (sorted key l)) in Hs.
  destruct (strongly_sorted_app _ _ Hs) as [H1 H2].
  split; [|split; [exact H1|]].
  - rewrite length_firstn. now rewrite (Permutation_length Hp).
  - exists (skipn k (sorted key l)). split; [|exact H2].
    now rewrite firstn_skipn.
Qed.

(** The sort is stable: elements with the same key keep their order. *)
Lemma insert_by_stable k x l :
  filter (fun a => key a =? k) (insert_by key x l)
  = filter (fun a => key a =? k) (x :: l).
Proof.
  induction l as [|y l IH]; cbn [insert_by]; [reflexivity|].
  destruct (key x <=? key y) eqn:E; [reflexivity|]. apply Z.leb_gt in E.
  cbn [filter] in *. rewrite IH.
  destruct (key y =? k) eqn:Ey; destruct (key x =? k) eqn:Ex; try reflexivity.
  apply Z.eqb_eq in Ey, Ex. lia.
Qed.

Lemma sorted_stable k l :
  filter (fun a => key a =? k) (sorted key l) = filter (fun a => key a =? k) l.
Proof.
  unfold sorted. induction l as [|x l IH]; cbn [fold_right]; [reflexivity|].
  rewrite insert_by_stable. cbn [filter]. now rewrite IH.
Qed.

(** An ascending list is determined by the order of its elements of equal
    key. *)
Lemma stable_sorted_unique (l1 : list A) :
  forall l2,
    StronglySorted (fun a b => key a <= key b) l1 ->
    StronglySorted (fun a b => key a <= key b) l2 ->
    (forall x, filter (fun a => key a =? x) l1 = filter (fun a => key a =? x) l2) ->
    l1 = l2.
Proof.
  induction l1 as [|a l1 IH]; intros [|b l2] H1 H2 Hf; [reflexivity| | |].
  - specialize (Hf (key b)). cbn [filter] in Hf. rewrite Z.eqb_refl in Hf.
    discriminate.
  - specialize (Hf (key a)). cbn [filter] in Hf. rewrite Z.eqb_refl in Hf.
    discriminate.
  - apply StronglySorted_inv in H1. destruct H1 as [H1 Ha].
    apply StronglySorted_inv in H2. destruct H2 as [H2 Hb].
    rewrite Forall_forall in Ha, Hb.
    assert (Hab : key a <= key b).
    { assert (Hin : In b (a :: l1)).
      { pose proof (Hf (key b)) as E. cbn [filter] in E.
        rewrite (Z.eqb_refl (key b)) in E.
        assert (Hb' : In b (filter (fun c => key c =? key b) (a :: l1))).
        { cbn [filter]. rewrite E. now left. }
        apply filter_In in Hb'. exact (proj1 Hb'). }
      destruct Hin as [->|Hin]; [lia|now apply Ha]. }
    assert (Hba : key b <= key a).
    { assert (Hin : In a (b :: l2)).
      { pose proof (Hf (key a)) as E. cbn [filter] in E.
        rewrite (Z.eqb_refl (key a)) in E.
        assert (Ha' : In a (filter (fun c => key c =? key a) (b :: l2))).
        { cbn [filter]. rewrite <- E. now left. }
        apply filter_In in Ha'. exact (proj1 Ha'). }
      destruct Hin as [->|Hin]; [lia|now apply Hb]. }
    assert (Hk : key b = key a) by lia.
    assert (Heq : a = b).
    { pose proof (Hf (key a)) as E. cbn [filter] in E.
      rewrite Hk, Z.eqb_refl in E. now injection E. }
    subst b. f_equal. apply IH; [exact H1|exact H2|].
    intros x. pose proof (Hf x) as E. cbn [filter] in E.
    destruct (key a =? x); [now injection E|exact E].
Qed.

(** [nearest_stable] holds of the first [k] elements of the stable sort,
    and of no other list. *)
Lemma firstn_sorted_stable k l res :
  nearest_stable key k l res <-> res = firstn k (sorted key l).
Proof.
  split.
  - intros (Hlen & rest & Hs & Hf).
    assert (E : res ++ rest = sorted key l).
    { apply stable_sorted_unique; [exact Hs|apply sorted_sorted|].
      intros x. now rewrite Hf, sorted_stable. }
    rewrite <- E.
    assert (Hl : List.length (res ++ rest) = List.length l).
    { rewrite E. apply Permutation_length, sorted_perm. }
    rewrite length_app in Hl.
    destruct (Nat.le_gt_cases k (List.length l)) as [Hk|Hk].
    + rewrite Nat.min_l in Hlen by exact Hk. rewrite <- Hlen.
      rewrite firstn_app, firstn_all, Nat.sub_diag. cbn [firstn].
      now rewrite app_nil_r.
    + rewrite Nat.min_r in Hlen by lia.
      rewrite firstn_all2; [|rewrite length_app; lia].
      destruct rest as [|y rest]; [now rewrite app_nil_r|].
      cbn [List.length] in Hl. lia.
  - intros ->. split.
    + rewrite length_firstn. now rewrite (Permutation_length (sorted_perm l)).
    + exists (skipn k (sorted key l)). rewrite firstn_skipn.
      split; [apply sorted_sorted|]. intros x. apply sorted_stable.
Qed.
End SortedFacts.

(** X16.  [find_nearest_stations] returns, for the home and for the hotel,
    the three stations nearest by [haversine] (all of them when there are
    fewer than three), nearest first, stations at the same distance in the
    order in which [stations] lists them; and each of the two lists it
    returns is the only list of which this holds. *)
Theorem find_nearest_stations_nearest_three :
  forall (haversine : Location -> Location -> Z)
         (home_location hotel_location : Location) (stations : list Node.t),
    nearest_by (fun station => haversine home_location (Node.location station)) 3
      stations (fst (find_nearest_stations haversine home_location hotel_location stations))
    /\ nearest_by (fun station => haversine hotel_location (Node.location station)) 3
         stations (snd (find_nearest_stations haversine home_location hotel_location stations))
    /\ (forall res,
          nearest_stable (fun station => haversine home_location (Node.location station))
            3 stations res
          <-> res = fst (find_nearest_stations haversine home_location hotel_location
                           stations))
    /\ (forall res,
          nearest_stable (fun station => haversine hotel_location (Node.location station))
            3 stations res
          <-> res = snd (find_nearest_stations haversine home_location hotel_location
                           stations)).
Proof.
  intros haversine home hotel stations. unfold find_nearest_stations. cbn [fst snd].
  split; [apply firstn_sorted_nearest|]. split; [apply firstn_sorted_nearest|].
  split; intros res; apply firstn_sorted_stable.
Qed.

Lemma path_routes_cons a b path G :
  path_routes (a :: b :: path) G
  = match nodes_get a (Graph.nodes G), nodes_get b (Graph.nodes G) with
    | Some na, Some nb =>
        match Graph.get_route na nb G with
        | (Some r, G1) =>
            match path_routes (b :: path) G1 with
            | (inr rs, G2) => (inr (r :: rs), G2)
            | e => e
            end
        | (None, G1) => (inl b, G1)
        end
    | None, _ => (inl a, G)
    | _, None => (inl b, G)
    end.
Proof. reflexivity. Qed.

Lemma path_routes_spec path :
  forall G rs G',
    path_routes path G = (inr rs, G') ->
    routes_of G rs
    /\ (forall u v, edge_route G' u v = edge_route G u v)
    /\ List.length rs = (List.length path - 1)%nat.
Proof.
  induction path as [|a path IH]; intros G rs G' H.
  - injection H as <- <-. repeat split. intros r [].
  - destruct path as [|b path].
    + injection H as <- <-. repeat split. intros r [].
    + rewrite path_routes_cons in H.
      destruct (nodes_get a (Graph.nodes G)) as [na|] eqn:Ea; [|discriminate].
      destruct (nodes_get b (Graph.nodes G)) as [nb|] eqn:Eb; [|discriminate].
      destruct (Graph.get_route na nb G) as [[r|] G1] eqn:Er; [|discriminate].
      apply get_route_spec in Er. destruct Er as [-> Hr].
      destruct (path_routes (b :: path) G) as [[k|rs'] G2] eqn:Erest;
        cbv beta iota in H; [discriminate|].
      injection H as <- <-.
      destruct (IH _ _ _ Erest) as (H1 & H2 & H3).
      split; [|split; [exact H2|]].
      * intros r' [<-|Hin]; [eauto|now apply H1].
      * cbn [List.length] in *. lia.
Qed.

Section PlanFacts.
Variable haversine : Location -> Location -> Z.
Variable set_iter : list string -> list string.

Lemma plan_pairs_spec fuel pairs :
  forall G acc R G',
    plan_pairs haversine set_iter fuel pairs G acc = (inr R, G') ->
    (forall u v, edge_route G' u v = edge_route G u v)
    /\ (List.length R <= List.length acc + List.length pairs)%nat
    /\ forall rs, In rs R -> In rs acc \/ routes_of G rs.
Proof.
  induction pairs as [|[s e] pairs IH]; intros G acc R G' H.
  - injection H as <- <-. split; [reflexivity|]. split; [lia|auto].
  - cbn [plan_pairs] in H.
    pose proof (astar_search_keeps_routes haversine set_iter fuel
                  (Node.name s) (Node.name e) G) as Hkeep.
    destruct (astar_search haversine set_iter fuel (Node.name s) (Node.name e) G)
      as [[path| |k|] G1]; cbn [snd] in Hkeep; try discriminate.
    + assert (Hcase : forall acc1 G2,
                 (forall u v, edge_route G2 u v = edge_route G u v) ->
                 (List.length acc1 <= S (List.length acc))%nat ->
                 (forall rs, In rs acc1 -> In rs acc \/ routes_of G rs) ->
                 plan_pairs haversine set_iter fuel pairs G2 acc1 = (inr R, G') ->
                 (forall u v, edge_route G' u v = edge_route G u v)
                 /\ (List.length R <= List.length acc + S (List.length pairs))%nat
                 /\ forall rs, In rs R -> In rs acc \/ routes_of G rs).
      { intros acc1 G2 He Hlen Hacc Hrun.
        destruct (IH _ _ _ _ Hrun) as (H1 & H2 & H3).
        split; [intros u v; now rewrite H1|]. split; [lia|].
        intros rs Hrs. destruct (H3 rs Hrs) as [Hin|Hr]; [now apply Hacc|].
        right. intros r Hin. destruct (Hr r Hin) as (u & v & Huv).
        exists u, v. now rewrite <- He. }
      destruct path as [|x path].
      * apply (Hcase acc G1 Hkeep); auto.
      * destruct (path_routes (x :: path) G1) as [[k|trs] G2] eqn:Ep; [discriminate|].
        destruct (path_routes_spec _ _ _ _ Ep) as (Hr & He2 & _).
        apply (Hcase (acc ++ [trs]) G2).
        -- intros u v. now rewrite He2.
        -- rewrite length_app. simpl. lia.
        -- intros rs Hrs. apply in_app_or in Hrs. destruct Hrs as [Hrs|[<-|[]]]; [now left|].
           right. intros r Hin. destruct (Hr r Hin) as (u & v & Huv).
           exists u, v. now rewrite <- Hkeep.
        -- exact H.
    + destruct (IH _ _ _ _ H) as (H1 & H2 & H3).
      split; [intros u v; now rewrite H1|]. split; [cbn [List.length]; lia|].
      intros rs Hrs. destruct (H3 rs Hrs) as [Hin|Hr]; [now left|].
      right. intros r Hin. destruct (Hr r Hin) as (u & v & Huv).
      exists u, v. now rewrite <- Hkeep.
Qed.
Lemma plan_pairs_error fuel pairs :
  forall G acc e G',
    plan_pairs haversine set_iter fuel pairs G acc = (inl e, G') ->
    forall l, e <> Trips l.
Proof.
  induction pairs as [|[s t] pairs IH]; intros G acc e G' H; [discriminate|].
  cbn [plan_pairs] in H.
  destruct (astar_search haversine set_iter fuel (Node.name s) (Node.name t) G)
    as [[path| |k|] G1].
  - destruct path as [|x path]; [exact (IH _ _ _ _ H)|].
    destruct (path_routes (x :: path) G1) as [[k|trs] G2]; [|exact (IH _ _ _ _ H)].
    injection H as <- _. discriminate.
  - exact (IH _ _ _ _ H).
  - injection H as <- _. discriminate.
  - injection H as <- _. discriminate.
Qed.
End PlanFacts.

Lemma detail_totals rs : totals_match (detail rs) /\ route (detail rs) = rs.
Proof.
  unfold detail, totals_match, collect_route_details, py_sum.
  rewrite collect_loop_sums, py_sum_from. cbn [total_time total_cost total_transfers
    total_transfer_time route]. repeat split; lia.
Qed.

(** X17.  When [plan_trip] returns a list of candidates, the list has at
    most nine entries (one per pair of a nearest start and a nearest end
    station), the totals of every candidate are the sums over its own edge
    list ([total_transfers] the number of its edges minus 1), and every
    edge in it is a route the graph holds.  With no station at all it
    returns the empty list and leaves the graph alone. *)
Theorem plan_trip_candidates :
  forall (haversine : Location -> Location -> Z)
         (set_iter : list string -> list string)
         (fuel : nat) (home_location hotel_location : Location)
         (stations : list Node.t) (G : Graph.t),
    (forall detailed_routes,
       fst (plan_trip haversine set_iter fuel home_location hotel_location stations G)
       = Trips detailed_routes ->
       (List.length detailed_routes <= 9)%nat
       /\ forall c, In c detailed_routes -> totals_match c /\ routes_of G (route c))
    /\ plan_trip haversine set_iter fuel home_location hotel_location [] G
       = (Trips [], G).
Proof.
  intros haversine set_iter fuel home hotel stations G. split; [|reflexivity].
  intros l. unfold plan_trip.
  destruct (find_nearest_stations haversine home hotel stations) as [nh nt] eqn:En.
  assert (Hlen : (List.length (list_prod nh nt) <= 9)%nat).
  { unfold find_nearest_stations in En.
    pose proof (f_equal fst En) as Hnh. pose proof (f_equal snd En) as Hnt.
    cbn [fst snd] in Hnh, Hnt. subst nh nt.
    rewrite length_prod, !length_firstn. nia. }
  destruct (plan_pairs haversine set_iter fuel (list_prod nh nt) G [])
    as [[e|R] G'] eqn:Ep.
  - cbn [fst]. intros ->. exfalso.
    exact (plan_pairs_error _ _ _ _ _ _ _ _ Ep l eq_refl).
  - cbn [fst]. intros [= <-].
    destruct (plan_pairs_spec _ _ _ _ _ _ _ _ Ep) as (_ & H2 & H3).
    split; [rewrite length_map; cbn [List.length] in H2; lia|].
    intros c Hc. apply in_map_iff in Hc. destruct Hc as (rs & <- & Hrs).
    destruct (detail_totals rs) as [Ht Hr]. split; [exact Ht|].
    rewrite Hr. destruct (H3 rs Hrs) as [[]|H]. exact H.
Qed.

Lemma plan_trip_candidates_witness :
  (exists detailed_routes,
     fst (plan_trip Main.haversine Main.insertion_order 10
            Main.home_location Main.hotel_location (Graph.nodes Main.graph) Main.graph)
     = Trips detailed_routes
     /\ (List.length detailed_routes <= 9)%nat
     /\ forall c, In c detailed_routes ->
          totals_match c /\ routes_of Main.graph (route c)).
Proof.
  eexists. split; [vm_compute; reflexivity|].
  apply (proj1 (plan_trip_candidates Main.haversine Main.insertion_order 10
                  Main.home_location Main.hotel_location
                  (Graph.nodes Main.graph) Main.graph)).
  vm_compute. reflexivity.
Defined.

(** X18.  [plan_trip] looks every chosen station up in [graph.nodes] by
    name: when there are stations and none of their names is registered in
    the graph, it raises [KeyError] for the name of one of them before any
    search is run, and the graph is left as it was. *)
Theorem plan_trip_unregistered_station :
  forall (haversine : Location -> Location -> Z)
         (set_iter : list string -> list string)
         (fuel : nat) (home_location hotel_location : Location)
         (stations : list Node.t) (G : Graph.t),
    stations <> [] ->
    (forall s, In s stations -> nodes_get (Node.name s) (Graph.nodes G) = None) ->
    exists s, In s stations
              /\ plan_trip haversine set_iter fuel home_location hotel_location stations G
                 = (TripKeyError (Node.name s), G).
Proof.
  intros haversine set_iter fuel home hotel stations G Hne Hunreg.
  unfold plan_trip, find_nearest_stations.
  set (kh := fun station => haversine home (Node.location station)).
  set (kt := fun station => haversine hotel (Node.location station)).
  assert (Hfirst : forall key : Node.t -> Z,
             exists x l, firstn 3 (sorted key stations) = x :: l /\ In x stations).
  { intros key. pose proof (sorted_perm key stations) as Hp.
    destruct (sorted key stations) as [|x l] eqn:E.
    - apply Permutation_nil in Hp. congruence.
    - exists x, (firstn 2 l). split; [reflexivity|].
      apply (Permutation_in _ Hp). now left. }
  destruct (Hfirst kh) as (x & lx & -> & Hx).
  destruct (Hfirst kt) as (y & ly & -> & Hy).
  exists x. split; [exact Hx|].
  cbn [list_prod map app plan_pairs]. unfold astar_search.
  now rewrite (Hunreg x Hx).
Qed.

Lemma plan_trip_unregistered_station_witness :
  Graph.nodes Main.graph <> []
  /\ (forall s, In s (Graph.nodes Main.graph) ->
        nodes_get (Node.name s) (Graph.nodes Graph.init) = None)
  /\ exists s, In s (Graph.nodes Main.graph)
       /\ plan_trip Main.haversine Main.insertion_order 10
            Main.home_location Main.hotel_location (Graph.nodes Main.graph) Graph.init
          = (TripKeyError (Node.name s), Graph.init).
Proof.
  split; [discriminate|]. split; [reflexivity|].
  apply (plan_trip_unregistered_station Main.haversine Main.insertion_order 10
           Main.home_location Main.hotel_location (Graph.nodes Main.graph) Graph.init).
  - discriminate.
  - reflexivity.
Defined.

(* ================================================================== *)
(** * Further properties: searches that cannot fail *)

Section NoError.
Variable haversine : Location -> Location -> Z.
Variable set_iter : list string -> list string.
Variable G0 : Graph.t.
Hypothesis Hperm : forall s, Permutation (set_iter s) s.
Hypothesis Hclosed : closed_edges G0.

Lemma expand_no_error goal_node cur nbs :
  forall G open,
    nodes_get cur (Graph.nodes G) <> None ->
    (forall w, In w nbs ->
       nodes_get w (Graph.nodes G) <> None /\ edge_route G cur w <> None) ->
    exists G' open', expand haversine goal_node cur nbs G open = (None, G', open').
Proof.
  induction nbs as [|nb rest IH]; intros G open Hcur Hnbs; [cbn; eauto|].
  cbn [expand].
  destruct (Hnbs nb (or_introl eq_refl)) as [Hreg Hedge].
  destruct (nodes_get nb (Graph.nodes G)) as [nbn|] eqn:Enb; [|congruence].
  destruct (nodes_get cur (Graph.nodes G)) as [cn|] eqn:Ecur; [|congruence].
  destruct (Graph.get_route cn nbn G) as [[r|] G1] eqn:Er.
  - apply get_route_spec in Er. destruct Er as [-> _]. cbv zeta.
    set (G2 := if num_ltb _ (Node.g nbn) then _ else G).
    assert (HG2 : kept G G2).
    { subst G2. destruct (num_ltb _ (Node.g nbn)) eqn:Elt; [|apply kept_refl].
      eapply improve_kept; eassumption. }
    destruct HG2 as (Hids & He & _).
    apply IH.
    + rewrite (node_ids_registered G G2 cur Hids). congruence.
    + intros w Hw. destruct (Hnbs w (or_intror Hw)) as [H1 H2].
      split; [now rewrite (node_ids_registered G G2 w Hids)|now rewrite He].
  - exfalso. apply Hedge.
    pose proof (f_equal fst Er) as Hf. cbn [fst] in Hf.
    unfold Graph.get_route in Hf. unfold edge_route.
    rewrite (nodes_get_name _ _ _ Ecur), (nodes_get_name _ _ _ Enb) in Hf.
    now destruct (dict_get cur (Graph.edges G)).
Qed.

Lemma iteration_no_error fuel goal_node s :
  open_registered G0 s ->
  match iteration haversine set_iter fuel goal_node s with
  | Return (KeyError _) _ => False
  | Return _ _ => True
  | Continue s' => open_registered G0 s'
  end.
Proof.
  intros (He & Hids & Hopen). unfold iteration.
  destruct (py_min (node_f (st_graph s)) (set_iter (open_set s))) as [cur|] eqn:Emin;
    [|exact I].
  apply py_min_spec in Emin. destruct Emin as [Hin _].
  apply (Permutation_in _ (Hperm _)) in Hin.
  destruct (String.eqb cur (Node.name goal_node)).
  { unfold reconstruct_path.
    now destruct (reconstruct_loop fuel (st_graph s) (Some cur) []). }
  pose proof (Hopen _ Hin) as Hcur.
  rewrite <- (node_ids_registered G0 (st_graph s) cur Hids) in Hcur.
  destruct (nodes_get cur (Graph.nodes (st_graph s))) as [cn|] eqn:Ecur; [|congruence].
  pose proof (nodes_get_name _ _ _ Ecur) as Hcn.
  destruct (Graph.get_neighbors cn (st_graph s)) as [nbs G1] eqn:En.
  destruct (get_neighbors_spec _ _ _ _ En) as (Hn1 & He1 & _).
  assert (Hnbs : forall w, In w nbs ->
             nodes_get w (Graph.nodes G1) <> None /\ edge_route G1 cur w <> None).
  { intros w Hw. destruct (get_neighbors_edges _ _ _ _ _ En Hw) as (r & Hr).
    rewrite Hcn in Hr. split; [|rewrite He1; congruence].
    rewrite Hn1, (node_ids_registered G0 (st_graph s) w Hids).
    apply (Hclosed cur w). rewrite <- He. congruence. }
  destruct (expand_no_error goal_node cur nbs G1 (set_remove cur (open_set s)))
    as (G2 & open2 & Hex); [rewrite Hn1, Ecur; discriminate|exact Hnbs|].
  rewrite Hex.
  destruct (expand_kept _ _ _ _ _ _ _ _ _ Hex) as (Hids2 & He2 & _).
  destruct (expand_open _ _ _ _ _ _ _ _ Hex) as [_ Hsup].
  split; cbn [st_graph open_set]; [intros u v; now rewrite He2, He1|]. split.
  - rewrite Hids2. unfold node_ids. now rewrite Hn1.
  - intros v Hv. destruct (Hsup v Hv) as [H|H].
    + apply set_remove_In in H. now apply Hopen.
    + destruct (Hnbs v H) as [Hreg _].
      now rewrite Hn1, (node_ids_registered G0 (st_graph s) v Hids) in Hreg.
Qed.

Lemma search_loop_no_error goal_node fuel :
  forall s k,
    open_registered G0 s ->
    fst (search_loop haversine set_iter fuel goal_node s) <> KeyError k.
Proof.
  induction fuel as [|fuel IH]; intros s k Hs; [discriminate|].
  cbn [search_loop].
  pose proof (iteration_no_error fuel goal_node s Hs) as Hit.
  destruct (iteration haversine set_iter fuel goal_node s) as [o G|s'].
  - cbn [fst]. destruct o; try discriminate. contradiction.
  - now apply IH.
Qed.
End NoError.

Lemma initial_open_registered haversine G start sn gn :
  nodes_get start (Graph.nodes G) = Some sn ->
  open_registered G (initial_state haversine sn gn G).
Proof.
  intros Es. split; [intros u v; reflexivity|]. split.
  - unfold initial_state, node_ids. cbv zeta. cbn [st_graph Graph.nodes].
    apply node_ids_put with (m := sn); [|reflexivity].
    cbn [Node.name]. now rewrite (nodes_get_name _ _ _ Es).
  - unfold initial_state. cbv zeta. cbn [open_set]. intros v [<-|[]].
    rewrite (nodes_get_name _ _ _ Es). congruence.
Qed.

(** X19.  On a graph without cycles whose edges all lead to registered
    nodes, a search between two registered nodes decides reachability:
    with enough fuel it returns a node sequence exactly when a directed
    path from the start to the goal exists, and [None] exactly when none
    exists.  It neither raises nor is cut off, whatever the heuristic, the
    edge costs and the order of set iteration. *)
Theorem astar_search_decides_reachability :
  forall (haversine : Location -> Location -> Z)
         (set_iter : list string -> list string)
         (d : nat) (rank : string -> nat) (R : nat)
         (fuel : nat) (start goal : string) (G : Graph.t),
    (forall s, Permutation (set_iter s) s) ->
    parents_ok G G ->
    out_degree_le d G ->
    ranked rank R G ->
    closed_edges G ->
    nodes_get start (Graph.nodes G) <> None ->
    nodes_get goal (Graph.nodes G) <> None ->
    (Nat.pow (S d) (rank start) + R + 2 <= fuel)%nat ->
    (exists p, fst (astar_search haversine set_iter fuel start goal G) = Found p
               /\ exists q, path_from_to G start goal q)
    \/ (fst (astar_search haversine set_iter fuel start goal G) = NotFound
        /\ forall q, ~ path_from_to G start goal q).
Proof.
  intros haversine set_iter d rank R fuel start goal G
         Hperm Hok Hdeg Hrank Hclosed Hs Hg Hfuel.
  unfold astar_search.
  destruct (nodes_get start (Graph.nodes G)) as [sn|] eqn:Es; [|congruence].
  destruct (nodes_get goal (Graph.nodes G)) as [gn|] eqn:Eg; [|congruence].
  pose proof (nodes_get_name _ _ _ Es) as Hsn.
  pose proof (nodes_get_name _ _ _ Eg) as Hgn.
  destruct (search_loop haversine set_iter fuel gn (initial_state haversine sn gn G))
    as [o G'] eqn:Erun.
  cbn [fst]. destruct o as [p| |k|].
  - left. exists p. split; [reflexivity|]. rewrite <- Hgn.
    eapply (search_loop_reachable haversine set_iter G start Hperm); [|exact Erun].
    split; [intros u v; reflexivity|].
    cbn [initial_state open_set]. intros v [<-|[]].
    rewrite Hsn. exists [start]. repeat split.
  - right. split; [reflexivity|].
    apply (search_loop_meets haversine set_iter G start goal Hperm gn fuel Hgn
             (initial_state haversine sn gn G) G'); [|exact Erun].
    split; [intros u v; reflexivity|].
    cbn [initial_state open_set]. rewrite Hsn.
    intros q (Hhd & _). destruct q as [|v q]; [discriminate|].
    injection Hhd as ->. exists start. split; now left.
  - exfalso.
    apply (search_loop_no_error haversine set_iter G Hperm Hclosed gn fuel
             (initial_state haversine sn gn G) k).
    + now apply initial_open_registered with (start := start).
    + now rewrite Erun.
  - exfalso.
    apply (search_loop_ends haversine set_iter G d rank R Hperm Hrank gn fuel
             (initial_state haversine sn gn G)).
    + split; [intros u v; reflexivity|].
      split; [now apply initial_parents_ok with (start := start)|].
      split; [exact Hdeg|].
      unfold initial_state. cbv zeta. cbn [st_graph Graph.nodes].
      apply nodes_put_registered. rewrite Hgn. congruence.
    + unfold initial_state. cbv zeta. cbn [open_set]. rewrite Hsn.
      unfold open_weight. cbn [map list_sum fold_right]. lia.
    + now rewrite Erun.
Qed.

Lemma main_graph_closed_edges : closed_edges Main.graph.
Proof.
  intros u v. unfold Main.graph. rewrite !edge_route_add_edge.
  destruct (String.eqb u Main.A) eqn:Ea; destruct (String.eqb v Main.C) eqn:Ec;
    destruct (String.eqb u Main.B) eqn:Eb; destruct (String.eqb v Main.B) eqn:Evb;
    cbn [andb];
    repeat match goal with H : String.eqb _ _ = true |- _ =>
             apply String.eqb_eq in H; subst end;
    try discriminate; intros H; try (now exfalso; apply H);
    vm_compute; discriminate.
Qed.

(** The program's graph: [Station C] is reachable from [Station A]. *)
Lemma astar_search_decides_reachability_witness :
  (forall s, Permutation (Main.insertion_order s) s)
  /\ parents_ok Main.graph Main.graph
  /\ out_degree_le 2 Main.graph
  /\ ranked main_rank 2 Main.graph
  /\ closed_edges Main.graph
  /\ nodes_get Main.A (Graph.nodes Main.graph) <> None
  /\ nodes_get Main.C (Graph.nodes Main.graph) <> None
  /\ (Nat.pow 3 (main_rank Main.A) + 2 + 2 <= 13)%nat
  /\ ((exists p, fst (astar_search Main.haversine Main.insertion_order 13
                        Main.A Main.C Main.graph) = Found p
                 /\ exists q, path_from_to Main.graph Main.A Main.C q)
      \/ (fst (astar_search Main.haversine Main.insertion_order 13
                 Main.A Main.C Main.graph) = NotFound
          /\ forall q, ~ path_from_to Main.graph Main.A Main.C q)).
Proof.
  split; [intros s; apply Permutation_refl|].
  split; [apply fresh_parents_ok, constructed_fresh, main_graph_constructed|].
  split; [exact main_graph_out_degree|].
  split; [exact main_graph_ranked|].
  split; [exact main_graph_closed_edges|].
  split; [vm_compute; discriminate|].
  split; [vm_compute; discriminate|].
  split; [vm_compute; lia|].
  apply (astar_search_decides_reachability Main.haversine Main.insertion_order
           2 main_rank 2 13 Main.A Main.C Main.graph).
  - intros s. apply Permutation_refl.
  - apply fresh_parents_ok, constructed_fresh, main_graph_constructed.
  - exact main_graph_out_degree.
  - exact main_graph_ranked.
  - exact main_graph_closed_edges.
  - vm_compute. discriminate.
  - vm_compute. discriminate.
  - vm_compute. lia.
Defined.

(** X20.  Dijkstra mode is complete on graphs without cycles.  With a
    zero heuristic, on a graph whose scratch fields are as [Node.__init__]
    sets them, with non-negative costs, no cycle and every edge leading to a
    registered node: when a directed path from the start to the goal exists,
    the search, given enough fuel, returns a node sequence, and that
    sequence is a cheapest directed path from the start to the goal. *)
Theorem astar_search_zero_heuristic_finds_cheapest :
  forall (haversine : Location -> Location -> Z)
         (set_iter : list string -> list string)
         (d : nat) (rank : string -> nat) (R : nat)
         (fuel : nat) (start goal : string) (G : Graph.t) (q : list string),
    (forall s, Permutation (set_iter s) s) ->
    (forall a b, haversine a b = 0) ->
    fresh_scratch G ->
    nonneg_costs G ->
    out_degree_le d G ->
    ranked rank R G ->
    closed_edges G ->
    nodes_get start (Graph.nodes G) <> None ->
    nodes_get goal (Graph.nodes G) <> None ->
    (Nat.pow (S d) (rank start) + R + 2 <= fuel)%nat ->
    path_from_to G start goal q ->
    exists p, fst (astar_search haversine set_iter fuel start goal G) = Found p
              /\ path_from_to G start goal p
              /\ forall q', path_from_to G start goal q' ->
                            path_cost G p <= path_cost G q'.
Proof.
  intros haversine set_iter d rank R fuel start goal G q
         Hperm Hzero Hfresh Hcost Hdeg Hrank Hclosed Hs Hg Hfuel Hq.
  destruct (nodes_get start (Graph.nodes G)) as [sn|] eqn:Es; [|congruence].
  destruct (nodes_get goal (Graph.nodes G)) as [gn|] eqn:Eg; [|congruence].
  pose proof (nodes_get_name _ _ _ Es) as Hsn.
  pose proof (nodes_get_name _ _ _ Eg) as Hgn.
  assert (Ha : astar_search haversine set_iter fuel start goal G
               = search_loop haversine set_iter fuel gn
                   (initial_state haversine sn gn G)).
  { unfold astar_search. now rewrite Es, Eg. }
  destruct (astar_search haversine set_iter fuel start goal G) as [o G'] eqn:Erun.
  cbn [fst]. destruct o as [p| |k|].
  - exists p. split; [reflexivity|].
    exact (astar_search_found_optimal haversine set_iter G start goal
             Hperm Hzero Hcost fuel p G' Hfresh Erun).
  - exfalso.
    apply (search_loop_meets haversine set_iter G start goal Hperm gn fuel Hgn
             (initial_state haversine sn gn G) G') with (q := q);
      [|now symmetry|exact Hq].
    split; [intros u v; reflexivity|].
    cbn [initial_state open_set]. rewrite Hsn.
    intros q0 (Hhd & _). destruct q0 as [|v q0]; [discriminate|].
    injection Hhd as ->. exists start. split; now left.
  - exfalso.
    apply (search_loop_no_error haversine set_iter G Hperm Hclosed gn fuel
             (initial_state haversine sn gn G) k).
    + now apply initial_open_registered with (start := start).
    + now rewrite <- Ha.
  - exfalso.
    apply (search_loop_ends haversine set_iter G d rank R Hperm Hrank gn fuel
             (initial_state haversine sn gn G)).
    + split; [intros u v; reflexivity|].
      split; [apply initial_parents_ok with (start := start);
              [now apply fresh_parents_ok|exact Es]|].
      split; [exact Hdeg|].
      unfold initial_state. cbv zeta. cbn [st_graph Graph.nodes].
      apply nodes_put_registered. rewrite Hgn. congruence.
    + unfold initial_state. cbv zeta. cbn [open_set]. rewrite Hsn.
      unfold open_weight. cbn [map list_sum fold_right]. lia.
    + now rewrite <- Ha.
Qed.

(** The program's graph in Dijkstra mode: the direct flight is a path from
    [Station A] to [Station C], so a cheapest one is returned. *)
Lemma astar_search_zero_heuristic_finds_cheapest_witness :
  (forall s, Permutation (Main.insertion_order s) s)
  /\ (forall a b, Main.zero_heuristic a b = 0)
  /\ fresh_scratch Main.graph
  /\ nonneg_costs Main.graph
  /\ out_degree_le 2 Main.graph
  /\ ranked main_rank 2 Main.graph
  /\ closed_edges Main.graph
  /\ nodes_get Main.A (Graph.nodes Main.graph) <> None
  /\ nodes_get Main.C (Graph.nodes Main.graph) <> None
  /\ (Nat.pow 3 (main_rank Main.A) + 2 + 2 <= 13)%nat
  /\ path_from_to Main.graph Main.A Main.C [Main.A; Main.C]
  /\ exists p, fst (astar_search Main.zero_heuristic Main.insertion_order 13
                      Main.A Main.C Main.graph) = Found p
               /\ path_from_to Main.graph Main.A Main.C p
               /\ forall q', path_from_to Main.graph Main.A Main.C q' ->
                             path_cost Main.graph p <= path_cost Main.graph q'.
Proof.
  split; [intros s; apply Permutation_refl|].
  split; [reflexivity|].
  split; [apply constructed_fresh, main_graph_constructed|].
  split; [exact main_graph_nonneg_costs|].
  split; [exact main_graph_out_degree|].
  split; [exact main_graph_ranked|].
  split; [exact main_graph_closed_edges|].
  split; [vm_compute; discriminate|].
  split; [vm_compute; discriminate|].
  split; [vm_compute; lia|].
  split; [repeat split|].
  apply (astar_search_zero_heuristic_finds_cheapest
           Main.zero_heuristic Main.insertion_order
           2 main_rank 2 13 Main.A Main.C Main.graph [Main.A; Main.C]).
  - intros s. apply Permutation_refl.
  - reflexivity.
  - apply constructed_fresh, main_graph_constructed.
  - exact main_graph_nonneg_costs.
  - exact main_graph_out_degree.
  - exact main_graph_ranked.
  - exact main_graph_closed_edges.
  - vm_compute. discriminate.
  - vm_compute. discriminate.
  - vm_compute. lia.
  - repeat split.
Defined.
